(** * tfkaldi: batch dispenser and attend-and-spell cell

    A shallow embedding of [prepare/batch_dispenser.py] and of the label
    selection and precondition logic of
    [neuralnetworks/las_elements.py], with the properties of the
    specification stated and proved over it, followed by properties of
    the matrix conversions, the constructors, [get_batch], the state
    containers and the feed-forward network read off the code.

    Conventions of the embedding.
    - Python integers are [Z]; list positions and array dimensions are [nat].
    - Text is modelled over 8-bit code points: a character is an [ascii],
      a Python [str] a [string].
    - An exception is a value of [exn]; code that may raise returns
      [result].
    - A numpy array carries its shape next to its data. *)

From Stdlib Require Import ZArith QArith Ascii String List Lia.
From Stdlib Require OrderedTypeEx.
From stdpp Require Import base option gmap strings list sorting.

Close Scope Q_scope.
Open Scope string_scope.
Open Scope list_scope.
Open Scope nat_scope.

(** ** Exceptions *)

Inductive exn : Type :=
  | KeyError
  | IndexError
  | AssertionError
  | ValueError (msg : string)
  | AttributeError (msg : string).

Inductive result (A : Type) : Type :=
  | Ok (a : A)
  | Raise (e : exn).
Arguments Ok {A} a.
Arguments Raise {A} e.

#[global] Instance result_ret : MRet result := λ A a, Ok a.
#[global] Instance result_bind : MBind result := λ A B f m,
  match m with
  | Ok a => f a
  | Raise e => Raise e
  end.
#[global] Instance result_fmap : FMap result := λ A B f m,
  match m with
  | Ok a => Ok (f a)
  | Raise e => Raise e
  end.

Definition py_assert (b : bool) : result unit :=
  if b then Ok tt else Raise AssertionError.

(** A [for] loop whose body may raise: the state is threaded through the
    items in order and the first exception ends the loop. *)
Definition for_each {A St} (items : list A) (init : St) (body : St → A → result St)
    : result St :=
  foldl (λ acc item, st ← acc; body st item) (Ok init) items.

(** ** Python built-ins used by the dispensers *)

Definition ord (c : ascii) : nat := nat_of_ascii c.
Definition chr (n : nat) : ascii := ascii_of_nat n.

(** [range(a, b)]: the integers from [a] up to, and not including, [b]. *)
Definition range (a b : nat) : list nat := seq a (b - a).

(** [enumerate(l)] *)
Definition enumerate {A} (l : list A) : list (nat * A) :=
  imap (λ i x, (i, x)) l.

(** [l[i]] for a position [i] that is not negative *)
Definition getitem {A} (l : list A) (i : nat) : result A :=
  match l !! i with
  | Some x => Ok x
  | None => Raise IndexError
  end.

(** [l[start:end]] for positions that are not negative *)
Definition slice {A} (l : list A) (start end_ : nat) : list A :=
  take (end_ - start) (drop start l).

(** [l[i] = x] for a position [i] that is not negative *)
Definition setitem1 {A} (l : list A) (i : nat) (x : A) : result (list A) :=
  if decide (length l ≤ i) then Raise IndexError else Ok (<[i := x]> l).

(** [len(d)] of a dict *)
Definition dict_len `{Countable K} {V} (d : gmap K V) : nat := size d.

(** [np.max(l)]: the reduction has no identity, an empty array is refused
    with a [ValueError]. *)
Definition empty_reduction : exn :=
  ValueError "zero-size array to reduction operation maximum which has no identity".

Definition np_max (l : list nat) : result nat :=
  match l with
  | [] => Raise empty_reduction
  | x :: l' => Ok (foldl Nat.max x l')
  end.

(** [c.lower()] on the code points below 256: the letters A-Z and the
    Latin-1 capitals (192-222 without the multiplication sign 215) move up
    by 32, everything else stays. *)
Definition lower (c : ascii) : ascii :=
  let n := ord c in
  if (((65 <=? n) && (n <=? 90))
      || ((192 <=? n) && (n <=? 222) && negb (n =? 215)))%nat
  then chr (n + 32) else c.

(** [s.split(sep)] for a one-character separator: every occurrence of the
    separator cuts, so empty pieces are kept. *)
Fixpoint split (sep : ascii) (s : string) : list string :=
  match s with
  | EmptyString => [EmptyString]
  | String c s' =>
      if decide (c = sep) then EmptyString :: split sep s'
      else match split sep s' with
           | w :: ws => String c w :: ws
           | [] => [String c EmptyString]
           end
  end.

(** [np.array(l, dtype=np.uint8)] of Python integers: each entry is stored
    in eight bits. The numpy releases this code was written for convert
    with a C cast, so an entry outside 0..255 keeps its low byte. *)
Definition to_uint8 (k : Z) : Z := (k mod 256)%Z.
Definition np_array_uint8 (l : list Z) : list Z := to_uint8 <$> l.

(** [l[-1] = x] *)
Definition set_last {A} (l : list A) (x : A) : result (list A) :=
  match l with
  | [] => Raise IndexError
  | _ => Ok (<[pred (length l) := x]> l)
  end.

(** ** UttTextDispenser: character targets *)

Module UttTextDispenser.

Definition allowed_chrs : list ascii :=
  let allowed_chrs := [] in
  let allowed_chrs := allowed_chrs ++ [">"%char] in
  let allowed_chrs := allowed_chrs ++ ["<"%char] in
  let allowed_chrs := allowed_chrs ++ [" "%char] in
  let allowed_chrs := allowed_chrs ++ [","%char] in
  let allowed_chrs := allowed_chrs ++ ["."%char] in
  let allowed_chrs := allowed_chrs ++ ["'"%char] in
  let allowed_chrs := allowed_chrs ++ ["?"%char] in
  foldl (λ allowed_chrs counti, allowed_chrs ++ [chr counti])
        allowed_chrs (range (ord "a") (ord "z")).

Definition code_dict : gmap ascii Z :=
  foldl (λ code_dict '(key, char), <[char := Z.of_nat key]> code_dict)
        ∅ (enumerate allowed_chrs).

Definition target_label_no : nat := length allowed_chrs.

Definition encode (char_lst : list ascii) : result (list Z) :=
  encoded ← foldl (λ acc char,
                     encoded ← acc;
                     match code_dict !! char with
                     | Some code => Ok (encoded ++ [code])
                     | None => Raise KeyError
                     end)
                  (Ok []) char_lst;
  Ok (np_array_uint8 encoded).

(** The comprehension [{code: char for char, code in code_dict.items()}];
    a later item replaces an earlier one with the same code. *)
Definition reverse_dict : gmap Z ascii :=
  foldl (λ rev '(char, code), <[code := char]> rev) ∅ (map_to_list code_dict).

Definition decode (char_lst : list Z) : result (list ascii) :=
  foldl (λ acc char,
           decoded ← acc;
           match reverse_dict !! char with
           | Some c => Ok (decoded ++ [c])
           | None => Raise KeyError
           end)
        (Ok []) char_lst.

(** The first loop of [normalize_targets]: one step per word. *)
Definition tmp_step (tmp_lst : list string) (word : string) : list string :=
  if decide (word = ",COMMA") then tmp_lst ++ [","]
  else if decide (word = ".PERIOD") then tmp_lst ++ ["."]
  else (tmp_lst ++ [word]) ++ [" "].

(** The inner loop of the second pass: one step per character. *)
Definition norm_step (norm_lst : list ascii) (any_chr : ascii) : list ascii :=
  let lower_c := lower any_chr in
  if decide (lower_c ∉ allowed_chrs) then norm_lst ++ ["?"%char]
  else norm_lst ++ [lower_c].

Definition check_unknowns (tmp_lst : list string) : list ascii :=
  foldl (λ norm_lst word, foldl norm_step norm_lst (list_ascii_of_string word))
        [] tmp_lst.

Definition normalize_targets (target_list : list string) : result (list ascii) :=
  let tmp_lst := ["<"] in
  let tmp_lst := foldl tmp_step tmp_lst target_list in
  tmp_lst ← set_last tmp_lst ">";
  Ok (check_unknowns tmp_lst).

End UttTextDispenser.

(** ** numpy arrays of rank 2 and 3

    The entries are copied and compared with zero, never computed with,
    so their type [F] is left open; [zero] and [one] stand for [0.0] and
    [1.0]. *)

Section ndarray.
Context {F : Type}.

Record ndarray2 := Array2 { shape2 : nat * nat; data2 : list (list F) }.
Record ndarray3 := Array3 { shape3 : nat * nat * nat; data3 : list (list (list F)) }.

(** The data of an array fill its shape. *)
Definition wf2 (a : ndarray2) : Prop :=
  length (data2 a) = (shape2 a).1 ∧
  Forall (λ row, length row = (shape2 a).2) (data2 a).

Definition wf3 (a : ndarray3) : Prop :=
  length (data3 a) = (shape3 a).1.1 ∧
  Forall (λ plane, length plane = (shape3 a).1.2 ∧
                   Forall (λ row, length row = (shape3 a).2) plane) (data3 a).

(** [a[i, j, k]] *)
Definition get3 (a : ndarray3) (i j k : nat) : option F :=
  plane ← data3 a !! i; row ← plane !! j; row !! k.

Variable zero : F.

Definition np_zeros3 (shape : nat * nat * nat) : ndarray3 :=
  Array3 shape (replicate shape.1.1 (replicate shape.1.2 (replicate shape.2 zero))).

(** [a.transpose()] *)
Definition transpose (a : ndarray2) : ndarray2 :=
  Array2 ((shape2 a).2, (shape2 a).1)
         ((λ j, omap (λ row, row !! j) (data2 a)) <$> seq 0 (shape2 a).2).

(** [np.pad(a, ((0, pad), (0, 0)), "constant", constant_values=0)] *)
Definition np_pad_rows (a : ndarray2) (pad : Z) : result ndarray2 :=
  if decide (pad < 0)%Z then Raise (ValueError "index can't contain negative values")
  else Ok (Array2 ((shape2 a).1 + Z.to_nat pad, (shape2 a).2)
                  (data2 a ++ replicate (Z.to_nat pad) (replicate (shape2 a).2 zero))).

(** numpy broadcasting of one axis to length [n]: an axis of that length
    stays, an axis of length one is repeated, anything else is refused. *)
Definition broadcast_axis {A} (n len : nat) (l : list A) : result (list A) :=
  if decide (len = n) then Ok l
  else match l with
       | [x] => if decide (len = 1) then Ok (replicate n x)
                else Raise (ValueError "could not broadcast")
       | _ => Raise (ValueError "could not broadcast")
       end.

(** [a[:, j, :] = src] *)
Definition setitem_col (a : ndarray3) (j : nat) (src : ndarray2) : result ndarray3 :=
  if decide ((shape3 a).1.2 ≤ j) then Raise IndexError
  else
    rows ← broadcast_axis (shape3 a).1.1 (shape2 src).1 (data2 src);
    rows ← for_each rows [] (λ done row,
              row ← broadcast_axis (shape3 a).2 (shape2 src).2 row;
              Ok (done ++ [row]));
    Ok (Array3 (shape3 a) (zip_with (λ plane row, <[j := row]> plane) (data3 a) rows)).

(** numpy reads a negative position from the end of the axis. *)
Definition norm_index (n : nat) (i : Z) : result nat :=
  if decide (0 ≤ i < Z.of_nat n)%Z then Ok (Z.to_nat i)
  else if decide (- Z.of_nat n ≤ i < 0)%Z then Ok (Z.to_nat (i + Z.of_nat n))
  else Raise IndexError.

(** [a[i, j, k] = v] with [i], [j] positions and [k] any integer *)
Definition setitem3 (a : ndarray3) (i j : nat) (k : Z) (v : F) : result ndarray3 :=
  if decide ((shape3 a).1.1 ≤ i) then Raise IndexError
  else if decide ((shape3 a).1.2 ≤ j) then Raise IndexError
  else
    k ← norm_index (shape3 a).2 k;
    Ok (Array3 (shape3 a) (alter (alter (<[k := v]>) j) i (data3 a))).
End ndarray.

Arguments ndarray2 : clear implicits.
Arguments ndarray3 : clear implicits.

(** ** BatchDispenser: the shared base class *)

Module BatchDispenser.

(** The attributes set by [__init__]. The feature reader is a
    collaborator of [get_batch] only and is left out. [Tok] is the type
    of a normalized target token. *)
Record t (Tok : Type) := Build {
  num_labels : nat;
  text_lines : list string;
  text_dict : gmap string (list Tok);
  size : nat;
  max_time : option Z;
  one_hot_encoding : bool
}.
Arguments Build {Tok}.
Arguments num_labels {Tok}.
Arguments text_lines {Tok}.
Arguments text_dict {Tok}.
Arguments size {Tok}.
Arguments max_time {Tok}.
Arguments one_hot_encoding {Tok}.

(** [__init__]; [lines] is [text_file.read().splitlines()] and
    [normalize_targets] the method of the child class. *)
Definition init {Tok} (normalize_targets : list string → result (list Tok))
    (size : nat) (lines : list string) (num_labels : nat)
    (max_time : option Z) (one_hot_encoding : bool) : result (t Tok) :=
  text_dict ← foldl (λ acc line,
                       text_dict ← acc;
                       let tmp := split " " line in
                       utt_id ← getitem tmp 0;
                       targets ← normalize_targets (drop 1 tmp);
                       Ok (<[utt_id := targets]> text_dict))
                    (Ok ∅) lines;
  Ok (Build num_labels lines text_dict size max_time one_hot_encoding).

(** [target_list_to_sparse_tensor]: indices, values and shape. *)
Definition sparse_step (t_i : nat) (target : list Z)
    (st : list (list nat) * list Z * list nat) (item : nat * Z)
    : list (list nat) * list Z * list nat :=
  let '(indices, vals, lengths) := st in
  let '(seq_i, val) := item in
  let lengths := lengths ++ [length target] in
  if decide (val ≠ 0%Z) then (indices ++ [[t_i; seq_i]], vals ++ [val], lengths)
  else (indices, vals, lengths).

Definition sparse_loop (target_list : list (list Z))
    : list (list nat) * list Z * list nat :=
  foldl (λ st '(t_i, target), foldl (sparse_step t_i target) st (enumerate target))
        ([], [], []) (enumerate target_list).

Definition target_list_to_sparse_tensor (target_list : list (list Z))
    : result (list (list nat) * list Z * list nat) :=
  let '(indices, vals, lengths) := sparse_loop target_list in
  max_len ← np_max lengths;
  let shape := [length target_list; max_len] in
  Ok (indices, vals, shape).

Section dense.
Context {F : Type} (zero one : F).

Inductive target_data : Type :=
  | OneHot (target_mat : ndarray3 F)
  | Sparse (sparse : list (list nat) * list Z * list nat).

Definition target_list_to_one_hot {Tok} (self : t Tok)
    (target_list : list (list Z)) : result (ndarray3 F) :=
  let batch_size := size self in
  let max_length := foldl (λ max_length seq, Nat.max max_length (length seq))
                          0 target_list in
  let target_mat := np_zeros3 zero (max_length, batch_size, num_labels self) in
  for_each (enumerate target_list) target_mat (λ target_mat '(batch_i, seq),
    for_each (enumerate seq) target_mat (λ target_mat '(time_pos, char_code),
      setitem3 target_mat time_pos batch_i char_code one)).

Definition max_steps_of {Tok} (self : t Tok) (input_list : list (ndarray2 F)) : Z :=
  match max_time self with
  | None => Z.of_nat (foldl (λ max_steps inp, Nat.max max_steps (shape2 inp).2)
                            0 input_list)
  | Some max_time => max_time
  end.

(** The body of the first loop of [data_lists_to_batch]; an item is
    the pair of [batch_i] and [orig_i]. *)
Definition length_step (input_list : list (ndarray2 F))
    (batch_seq_lengths : list nat) (item : nat * nat) : result (list nat) :=
  let batch_i := item.1 in
  let orig_i := item.2 in
  inp ← getitem input_list orig_i;
  setitem1 batch_seq_lengths batch_i (shape2 inp).2.

(** The body of the second loop; the state is [batch_inputs] and
    [batch_target_list]. *)
Definition pad_step (input_list : list (ndarray2 F)) (target_list : list (list Z))
    (max_steps : Z) (st : ndarray3 F * list (list Z)) (item : nat * nat)
    : result (ndarray3 F * list (list Z)) :=
  let batch_inputs := st.1 in
  let batch_target_list := st.2 in
  let batch_i := item.1 in
  let orig_i := item.2 in
  inp ← getitem input_list orig_i;
  let pad_secs := (max_steps - Z.of_nat (shape2 inp).2)%Z in
  padded ← np_pad_rows zero (transpose inp) pad_secs;
  batch_inputs ← setitem_col batch_inputs batch_i padded;
  target ← getitem target_list orig_i;
  Ok (batch_inputs, batch_target_list ++ [target]).

Definition encode_targets {Tok} (self : t Tok)
    (target_list batch_target_list : list (list Z)) : result target_data :=
  if one_hot_encoding self
  then OneHot <$> target_list_to_one_hot self target_list
  else Sparse <$> target_list_to_sparse_tensor batch_target_list.

Definition data_lists_to_batch {Tok} (self : t Tok)
    (input_list : list (ndarray2 F)) (target_list : list (list Z))
    : result (ndarray3 F * target_data * list nat) :=
  _ ← py_assert (bool_decide (length input_list = length target_list));
  inp0 ← getitem input_list 0;
  let n_features := (shape2 inp0).1 in
  let max_steps := max_steps_of self input_list in
  let batch_ixs := range 0 (length input_list) in
  let '(start, end_) := (0, size self) in
  let batch_seq_lengths := replicate (size self) 0 in
  batch_seq_lengths ←
    for_each (enumerate (slice batch_ixs start end_)) batch_seq_lengths
             (length_step input_list);
  batch_inputs ←
    (if decide (max_steps < 0)%Z
     then Raise (ValueError "negative dimensions are not allowed")
     else Ok (np_zeros3 zero (Z.to_nat max_steps, size self, n_features)));
  let batch_target_list := [] in
  st ← for_each (enumerate (slice batch_ixs start end_))
                (batch_inputs, batch_target_list)
                (pad_step input_list target_list max_steps);
  let batch_inputs := st.1 in
  let batch_target_list := st.2 in
  target_data ← encode_targets self target_list batch_target_list;
  Ok (batch_inputs, target_data, batch_seq_lengths).
End dense.

End BatchDispenser.

(** [UttTextDispenser.__init__]: the code map is fixed, the base class
    reads the transcripts. *)
Definition UttTextDispenser_init (size : nat) (lines : list string)
    (num_labels : nat) (max_time : option Z) (one_hot_encoding : bool)
    : result (BatchDispenser.t ascii) :=
  BatchDispenser.init UttTextDispenser.normalize_targets
                      size lines num_labels max_time one_hot_encoding.

(** ** PhonemeTextDispenser: phoneme targets *)

Module PhonemeTextDispenser.

Record t := Build {
  base : BatchDispenser.t string;
  phone_map : gmap string Z
}.

Definition normalize_targets (target_list : list string) : result (list string) :=
  Ok target_list.

Definition count_word (vocab_dict : gmap string Z) (wrd : string) : gmap string Z :=
  match vocab_dict !! wrd with
  | Some n => <[wrd := (n + 1)%Z]> vocab_dict
  | None => <[wrd := 0%Z]> vocab_dict
  end.

(** [phones.sort()]: strings are compared code point by code point. The
    keys of a dict are distinct, so the sorted list does not depend on
    the order in which the dict hands them out. *)
Definition sort (l : list string) : list string :=
  merge_sort (λ a b, Is_true (String.leb a b)) l.

Definition init (size : nat) (lines : list string) (num_labels : nat)
    (max_time : option Z) (one_hot_encoding : bool) : result t :=
  base ← BatchDispenser.init normalize_targets
                             size lines num_labels max_time one_hot_encoding;
  let vocab_dict :=
    foldl (λ vocab_dict line,
             let tmp := split " " line in
             foldl count_word vocab_dict (drop 1 tmp))
          ∅ (BatchDispenser.text_lines base) in
  let phones := (map_to_list vocab_dict).*1 in
  let phones := sort phones in
  let phone_map :=
    foldl (λ phone_map '(no, phoneme), <[phoneme := Z.of_nat no]> phone_map)
          ∅ (enumerate phones) in
  _ ← py_assert (bool_decide (num_labels = dict_len phone_map));
  Ok (Build base phone_map).

Definition encode (self : t) (phone_lst : list string) : result (list Z) :=
  targets ← foldl (λ acc phone,
                     targets ← acc;
                     match phone_map self !! phone with
                     | Some code => Ok (targets ++ [code])
                     | None => Raise KeyError
                     end)
                  (Ok []) phone_lst;
  Ok (np_array_uint8 targets).

End PhonemeTextDispenser.

(** ** AttendAndSpellCell *)

(** The tensorflow operations the cell calls. They build graph nodes and
    are taken as given: an operation is a function of its arguments and
    the shape of a tensor is fully known. The errors tensorflow raises
    while it builds the graph (shapes that do not fit, a dimension that is
    not known) are outside this model: it says which values flow where
    in a step, and which checks of the cell itself fail. *)
Class TensorOps (Tensor : Type) := {
  get_shape : Tensor → list nat;
  tf_concat : nat → list Tensor → Tensor;
  tf_expand_dims : Tensor → nat → Tensor;
  tf_batch_matmul : Tensor → Tensor → Tensor;
  tf_squeeze : Tensor → list nat → Tensor;
  tf_softmax : Tensor → Tensor;
  tf_argmax : Tensor → nat → Tensor;
  tf_one_hot : Tensor → nat → Tensor
}.

(** The networks the cell owns and the two layout helpers, collaborators
    with a call contract only: functions of their arguments, whose own
    errors are outside this model. *)
Class Networks (Tensor RNNState : Type) := {
  state_net : Tensor → Tensor;
  featr_net : Tensor → Tensor;
  char_net : Tensor → Tensor;
  pre_context_rnn : Tensor → RNNState → Tensor * RNNState;
  post_context_rnn : Tensor → RNNState → Tensor * RNNState;
  seq2nonseq : Tensor → Tensor → Tensor;
  nonseq2seq : Tensor → Tensor → nat → Tensor
}.

Module AttendAndSpellCell.
Section cell.
Context {Tensor RNNState : Type} `{!TensorOps Tensor} `{!Networks Tensor RNNState}.

(** The attributes the step reads; [None] is Python's [None]. *)
Record t := Build {
  target_label_no : nat;
  high_lvl_features : option Tensor;
  high_lvl_feature_dim : option nat;
  psi : option Tensor;
  type_two : bool
}.

Record StateTouple := State {
  pre_context_states : RNNState;
  post_context_states : RNNState;
  one_hot_char : Tensor;
  context_vector : Tensor
}.

Definition init (target_label_no : nat) : t :=
  Build target_label_no None None None false.

(** Attribute assignments [self.x = v] *)
Definition assign_high_lvl_features (self : t) (v : Tensor) : t :=
  Build (target_label_no self) (Some v) (high_lvl_feature_dim self)
        (psi self) (type_two self).
Definition assign_high_lvl_feature_dim (self : t) (v : nat) : t :=
  Build (target_label_no self) (high_lvl_features self) (Some v)
        (psi self) (type_two self).
Definition assign_psi (self : t) (v : Tensor) : t :=
  Build (target_label_no self) (high_lvl_features self)
        (high_lvl_feature_dim self) (Some v) (type_two self).

(** [set_features] assigns its attributes one after the other; when a
    statement raises, the assignments made before it stay. The result
    is the cell afterwards and the outcome of the call. *)
Definition set_features (self : t) (high_lvl_features feature_seq_lengths : Tensor)
    : t * result unit :=
  let self := assign_high_lvl_features self high_lvl_features in
  let feature_shape := get_shape high_lvl_features in
  match getitem feature_shape 2 with
  | Raise e => (self, Raise e)
  | Ok dim =>
      let self := assign_high_lvl_feature_dim self dim in
      let non_seq_features := seq2nonseq high_lvl_features feature_seq_lengths in
      let non_seq_psi := featr_net non_seq_features in
      match getitem feature_shape 1 with
      | Raise e => (self, Raise e)
      | Ok time => (assign_psi self (nonseq2seq non_seq_psi feature_seq_lengths time),
                    Ok tt)
      end
  end.

(** The draw of [tf.random_uniform] is a rational in the half-open
    interval from [minval] to [maxval]; the caller passes it in. *)
Definition minval : Q := 0%Q.
Definition maxval : Q := 1%Q.
Definition net_out_prob : Q := (2 # 10)%Q.

Definition tf_greater (a b : Q) : bool :=
  match (a ?= b)%Q with
  | Gt => true
  | _ => false
  end.

(** [pred] of [select_out_or_target] *)
Definition pred (rand_val : Q) : bool := tf_greater rand_val net_out_prob.

Definition tf_cond {A} (p : bool) (fn1 fn2 : unit → A) : A :=
  if p then fn1 tt else fn2 tt.

Definition select_out_or_target (rand_val : Q)
    (groundtruth_char one_hot_char : Tensor) : Tensor :=
  let pick_ground_truth := λ _ : unit, groundtruth_char in
  let pick_last_output := λ _ : unit, one_hot_char in
  tf_cond (pred rand_val) pick_ground_truth pick_last_output.

Definition greedy_decoding (self : t) (logits : Tensor) : Tensor :=
  let max_pos := tf_argmax logits 1 in
  tf_one_hot max_pos (target_label_no self).

Definition attention_context (self : t) (pre_context_out : Tensor) : result Tensor :=
  let phi := state_net pre_context_out in
  let phi_3d := tf_expand_dims phi 2 in
  match psi self, high_lvl_features self with
  | Some psi, Some high_lvl_features =>
      let energy_3d := tf_batch_matmul psi phi_3d in
      let scalar_energy := tf_squeeze energy_3d [2] in
      let alpha := tf_softmax scalar_energy in
      let alpha_3d := tf_expand_dims alpha 1 in
      let context_vector_3d := tf_batch_matmul alpha_3d high_lvl_features in
      Ok (tf_squeeze context_vector_3d [1])
  | _, _ => Raise (ValueError "None values not supported.")
  end.

(** The label fed into the first recurrent network at a step. *)
Definition fed_back_label (cell_input : option Tensor) (state : StateTouple)
    (rand_val : Q) : Tensor :=
  match cell_input with
  | Some groundtruth_char =>
      select_out_or_target rand_val groundtruth_char (one_hot_char state)
  | None => one_hot_char state
  end.

(** [__call__]: one unrolling of the cell. *)
Definition call (self : t) (cell_input : option Tensor) (state : StateTouple)
    (rand_val : Q) : result (Tensor * StateTouple) :=
  let groundtruth_char := cell_input in
  match psi self with
  | None => Raise (AttributeError "Features must be set.")
  | Some _ =>
      let one_hot_char := fed_back_label groundtruth_char state rand_val in
      let rnn_input := tf_concat 1 [one_hot_char; context_vector state] in
      let '(pre_context_out, pre_context_states) :=
        pre_context_rnn rnn_input (pre_context_states state) in
      context_vector ← attention_context self pre_context_out;
      let '(char_net_input, post_context_states) :=
        if type_two self then
          let '(post_context_out, post_context_states) :=
            post_context_rnn context_vector (post_context_states state) in
          (tf_concat 1 [pre_context_out; post_context_out], post_context_states)
        else
          (tf_concat 1 [pre_context_out; context_vector], post_context_states state) in
      let logits := char_net char_net_input in
      let one_hot_char := greedy_decoding self logits in
      Ok (logits, State pre_context_states post_context_states
                        one_hot_char context_vector)
  end.
End cell.
Arguments t : clear implicits.
Arguments StateTouple : clear implicits.
End AttendAndSpellCell.

(** The share of the draws of a uniform variable on the interval from
    [lo] to [hi] that fall between [a] and [b]: the probability of that
    event. *)
Definition uniform_prob (lo hi a b : Q) : Q := ((b - a) / (hi - lo))%Q.

(** Tensors seen through their shape only, with networks that keep the
    shape of their input: enough to run the control flow of the cell on a
    concrete input. *)
Module ShapeOnly.
Definition Tensor : Type := list nat.

Definition axis_len (axis : nat) (s : Tensor) : nat := default 0 (s !! axis).

#[global] Instance ops : TensorOps Tensor := {|
  get_shape := λ s, s;
  tf_concat := λ axis l,
    match l with
    | [] => []
    | s :: l' => <[axis := axis_len axis s + sum_list (axis_len axis <$> l')]> s
    end;
  tf_expand_dims := λ s axis, take axis s ++ 1 :: drop axis s;
  tf_batch_matmul := λ a b, take 2 a ++ drop 2 b;
  tf_squeeze := λ s dims,
    mjoin (imap (λ axis d, if decide (axis ∈ dims) then [] else [d]) s);
  tf_softmax := λ s, s;
  tf_argmax := λ s axis, take axis s ++ drop (S axis) s;
  tf_one_hot := λ s depth, s ++ [depth]
|}.

#[global] Instance nets : Networks Tensor unit := {|
  state_net := λ s, s;
  featr_net := λ s, s;
  char_net := λ s, s;
  pre_context_rnn := λ s st, (s, st);
  post_context_rnn := λ s st, (s, st);
  seq2nonseq := λ s lens,
    match s with
    | batch :: time :: dims => batch * time :: dims
    | _ => s
    end;
  nonseq2seq := λ s lens time,
    match s with
    | rows :: dims => rows / time :: time :: dims
    | [] => []
    end
|}.
End ShapeOnly.

(** Tensors seen through the expression that built them, to follow a
    value through a step; the shape is not traced and is that of
    features of 2 utterances, 5 time steps and 8 dimensions. *)
Module Traced.
Definition Tensor : Type := string.

Definition node (op : string) (args : list string) : string :=
  op ++ "(" ++ String.concat "," args ++ ")".

#[global] Instance ops : TensorOps Tensor := {|
  get_shape := λ _, [2; 5; 8];
  tf_concat := λ _ l, node "concat" l;
  tf_expand_dims := λ s _, node "expand_dims" [s];
  tf_batch_matmul := λ a b, node "batch_matmul" [a; b];
  tf_squeeze := λ s _, node "squeeze" [s];
  tf_softmax := λ s, node "softmax" [s];
  tf_argmax := λ s _, node "argmax" [s];
  tf_one_hot := λ s _, node "one_hot" [s]
|}.

#[global] Instance nets : Networks Tensor string := {|
  state_net := λ s, node "state_net" [s];
  featr_net := λ s, node "featr_net" [s];
  char_net := λ s, node "char_net" [s];
  pre_context_rnn := λ s st, (node "pre_out" [s; st], node "pre_state" [s; st]);
  post_context_rnn := λ s st, (node "post_out" [s; st], node "post_state" [s; st]);
  seq2nonseq := λ s lens, node "seq2nonseq" [s; lens];
  nonseq2seq := λ s lens _, node "nonseq2seq" [s; lens]
|}.
End Traced.

(** Draw number [k] of [n] draws spread evenly over the interval from 0
    to 1: the middle of cell [k] of [n] equal cells. *)
Definition grid_draw (n k : nat) : Q :=
  (2 * Z.of_nat k + 1) # Z.to_pos (2 * Z.of_nat n).

(** ** Definitions used to state the properties *)

(** What the second pass of [normalize_targets] writes for one character. *)
Definition norm_chr (any_chr : ascii) : ascii :=
  if decide (lower any_chr ∈ UttTextDispenser.allowed_chrs) then lower any_chr
  else "?"%char.

(** What the first pass of [normalize_targets] appends for one word. *)
Definition word_tokens (word : string) : list string :=
  if decide (word = ",COMMA") then [","]
  else if decide (word = ".PERIOD") then ["."]
  else [word; " "].

(** The seven punctuation tokens followed by the letters from [first] to
    [last], both included. *)
Definition punctuation_and_letters (first last : ascii) : list ascii :=
  [">"; "<"; " "; ","; "."; "'"; "?"]%char
  ++ (chr <$> seq (ord first) (S (ord last) - ord first)).

(** Every allowed character has a code below 256 that [reverse_dict]
    takes back to the character. *)
Definition code_round_trip (c : ascii) : bool :=
  match UttTextDispenser.code_dict !! c with
  | Some k =>
      bool_decide (0 ≤ k < 256)%Z &&
      match UttTextDispenser.reverse_dict !! to_uint8 k with
      | Some c' => bool_decide (c' = c)
      | None => false
      end
  | None => false
  end.

(** The positions of a batch of targets that hold a nonzero code, in
    reading order, each with its code. *)
Definition nonzero_in (t_i : nat) (target : list Z) : list (nat * nat * Z) :=
  '(seq_i, val) ← enumerate target;
  if decide (val ≠ 0%Z) then [(t_i, seq_i, val)] else [].

Definition nonzero_positions (target_list : list (list Z)) : list (nat * nat * Z) :=
  '(t_i, target) ← enumerate target_list; nonzero_in t_i target.

Definition index_of (p : nat * nat * Z) : list nat := [p.1.1; p.1.2].
Definition value_of (p : nat * nat * Z) : Z := p.2.

(** The length of its sequence, once for every position of the batch. *)
Definition position_lengths (target_list : list (list Z)) : list nat :=
  target ← target_list; replicate (length target) (length target).

(** The first dimension of the inputs of a batch: the cap when one is
    set, the longest input otherwise. *)
Definition expected_max_steps {F Tok} (self : BatchDispenser.t Tok)
    (input_list : list (ndarray2 F)) : nat :=
  match BatchDispenser.max_time self with
  | Some max_time => Z.to_nat max_time
  | None => max_list_with (λ inp, (shape2 inp).2) input_list
  end.

(** The items of the two loops of [data_lists_to_batch]: the pairs (i, i)
    for i below the batch size and the number of inputs. *)
Definition batch_items_of (size n : nat) : list (nat * nat) :=
  (λ i : nat, (i, i)) <$> seq 0 (size `min` n).

Section invariants.
Context {F : Type} (zero : F).
Context (input_list : list (ndarray2 F)) (target_list : list (list Z)).
Context (size n_features max_steps : nat).

(** After [i] rounds of the first loop the first [i] lengths are set. *)
Definition lengths_inv (i : nat) (lens : list nat) : Prop :=
  length lens = size ∧
  ∀ b, b < i → lens !! b = (λ inp, (shape2 inp).2) <$> input_list !! b.

(** After [i] rounds of the second loop the first [i] columns hold the
    inputs, padded with zeros, and the other columns are zero. *)
Definition inputs_inv (i : nat) (st : ndarray3 F * list (list Z)) : Prop :=
  shape3 st.1 = (max_steps, size, n_features) ∧
  wf3 st.1 ∧
  st.2 = take i target_list ∧
  (∀ t b f x, get3 st.1 t b f = Some x →
              x = zero ∨ ∃ inp, b < i ∧ input_list !! b = Some inp ∧
                                t < (shape2 inp).2) ∧
  (∀ t b f inp, b < i → input_list !! b = Some inp → t < (shape2 inp).2 →
                get3 st.1 t b f = data2 inp !! f ≫= (λ row, row !! t)).
End invariants.

(** A transcript file with one utterance that uses 257 different
    phonemes, named "aa", "ab", ... in increasing order. *)
Definition phone_name (i : nat) : string :=
  String (chr (97 + i / 26)) (String (chr (97 + i mod 26)) EmptyString).

Definition corpus257 : list string :=
  [foldl (λ line i, (line ++ " " ++ phone_name i)%string) "utt1" (seq 0 257)].

(** ** Conversions between dense and sparse matrices

    The static methods [sparse_to_dense], [dense_to_sparse] and
    [array_list_to_dense] of [BatchDispenser], for matrices of rank 2. *)

Section conversions.
Context {F : Type} `{!EqDecision F} (zero : F).

Definition np_zeros2 (shape : nat * nat) : ndarray2 F :=
  Array2 shape (replicate shape.1 (replicate shape.2 zero)).

(** The entry at row [i] and column [j], when there is one. *)
Definition get2 (a : ndarray2 F) (i j : nat) : option F :=
  row ← data2 a !! i; row !! j.

(** [a[i, j]] for positions that are not negative *)
Definition getitem2 (a : ndarray2 F) (i j : nat) : result F :=
  if decide ((shape2 a).1 ≤ i) then Raise IndexError
  else if decide ((shape2 a).2 ≤ j) then Raise IndexError
  else match get2 a i j with
       | Some x => Ok x
       | None => Raise IndexError
       end.

(** [a[i, j] = v] for positions that are not negative *)
Definition setitem2 (a : ndarray2 F) (i j : nat) (v : F) : result (ndarray2 F) :=
  if decide ((shape2 a).1 ≤ i) then Raise IndexError
  else if decide ((shape2 a).2 ≤ j) then Raise IndexError
  else Ok (Array2 (shape2 a) (alter (<[j := v]>) i (data2 a))).

(** The body of the loop of [sparse_to_dense]; an item is the pair of
    [i] and [index]. *)
Definition sparse_write (values : list F) (dense_array : ndarray2 F)
    (item : nat * list nat) : result (ndarray2 F) :=
  let i := item.1 in
  let index := item.2 in
  v ← getitem values i;
  row ← getitem index 0;
  col ← getitem index 1;
  setitem2 dense_array row col v.

Definition sparse_to_dense (indices : list (list nat)) (values : list F)
    (shape : nat * nat) : result (ndarray2 F) :=
  let dense_array := np_zeros2 shape in
  for_each (enumerate indices) dense_array (sparse_write values).

(** The body of the inner loop of [dense_to_sparse]; the state is
    [indices] and [values]. *)
Definition scan_cell (dense_matrix : ndarray2 F) (row : nat)
    (st : list (list nat) * list F) (col : nat)
    : result (list (list nat) * list F) :=
  let indices := st.1 in
  let values := st.2 in
  x ← getitem2 dense_matrix row col;
  if decide (x ≠ zero)
  then Ok (indices ++ [[row; col]], values ++ [x])
  else Ok (indices, values).

Definition dense_to_sparse (dense_matrix : ndarray2 F)
    : result (list (list nat) * list F * (nat * nat)) :=
  let shape := shape2 dense_matrix in
  let indices := [] in
  let values := [] in
  st ← for_each (range 0 shape.1) (indices, values) (λ st row,
         for_each (range 0 shape.2) st (scan_cell dense_matrix row));
  Ok (st.1, st.2, shape).

(** [a[i, 0:len(src)] = src]: the slice stops at the end of the row, and
    the source is broadcast to the slice. *)
Definition setitem_row_prefix (a : ndarray2 F) (i : nat) (src : list F)
    : result (ndarray2 F) :=
  if decide ((shape2 a).1 ≤ i) then Raise IndexError
  else
    let stop := length src `min` (shape2 a).2 in
    src ← broadcast_axis stop (length src) src;
    Ok (Array2 (shape2 a) (alter (λ row, src ++ drop stop row) i (data2 a))).

Definition array_list_to_dense (array_list : list (list F)) (shape : nat * nat)
    : result (ndarray2 F) :=
  let dense_array := np_zeros2 shape in
  for_each (enumerate array_list) dense_array (λ dense_array item,
    setitem_row_prefix dense_array item.1 item.2).

(** An index of a sparse matrix that [sparse_to_dense] can write: it has
    a row and a column, both inside the shape. *)
Definition index_in (shape : nat * nat) (index : list nat) : Prop :=
  match index with
  | row :: col :: _ => row < shape.1 ∧ col < shape.2
  | _ => False
  end.

#[global] Instance index_in_dec shape index : Decision (index_in shape index) :=
  match index return Decision (index_in shape index) with
  | row :: col :: _ => and_dec _ _
  | _ => False_dec
  end.

(** The value the writes of [sparse_to_dense] leave at a position: that
    of the last index naming the position, zero when there is none. *)
Definition last_write (entries : list (list nat * F)) (row col : nat) : F :=
  foldl (λ acc e, if decide (e.1 !! 0 = Some row ∧ e.1 !! 1 = Some col)
                  then e.2 else acc)
        zero entries.

(** The state of the loop of [sparse_to_dense] after [k] rounds. *)
Definition sparse_inv (indices : list (list nat)) (values : list F)
    (shape : nat * nat) (k : nat) (dense : ndarray2 F) : Prop :=
  k ≤ length values ∧
  Forall (index_in shape) (take k indices) ∧
  shape2 dense = shape ∧ wf2 dense ∧
  ∀ r c, r < shape.1 → c < shape.2 →
         get2 dense r c = Some (last_write (take k (zip indices values)) r c).

(** The nonzero entries of a matrix in row-major order, each with its
    row and column. *)
Definition row_entries (row : nat) (r : list F) : list (nat * nat * F) :=
  '(col, x) ← enumerate r;
  if decide (x ≠ zero) then [(row, col, x)] else [].

Definition nonzero_entries (a : ndarray2 F) : list (nat * nat * F) :=
  '(row, r) ← enumerate (data2 a); row_entries row r.

Definition entry_index (p : nat * nat * F) : list nat := [p.1.1; p.1.2].
Definition entry_value (p : nat * nat * F) : F := p.2.

(** Row-major order of the positions of two entries. *)
Definition row_major_lt (p q : nat * nat * F) : Prop :=
  p.1.1 < q.1.1 ∨ (p.1.1 = q.1.1 ∧ p.1.2 < q.1.2).

(** Row [i] of the matrix built by [array_list_to_dense]. *)
Definition padded_row (array_list : list (list F)) (width i : nat) : list F :=
  match array_list !! i with
  | Some array => array ++ replicate (width - length array) zero
  | None => replicate width zero
  end.

(** The state of the loop of [array_list_to_dense] after [i] rounds. *)
Definition rows_inv (array_list : list (list F)) (shape : nat * nat)
    (i : nat) (dense : ndarray2 F) : Prop :=
  shape2 dense = shape ∧ wf2 dense ∧
  ∀ r, r < shape.1 →
       data2 dense !! r
       = Some (if decide (r < i) then padded_row array_list shape.2 r
               else replicate shape.2 zero).
End conversions.

(** ** One-hot targets: what [target_list_to_one_hot] writes *)

(** The position a label code names on an axis of length [n]: numpy
    counts a negative code from the end. *)
Definition wrap_index (n : nat) (code : Z) : Z :=
  if decide (code < 0)%Z then (code + Z.of_nat n)%Z else code.

Definition index_ok (n : nat) (code : Z) : Prop :=
  (- Z.of_nat n ≤ code < Z.of_nat n)%Z.

(** The code of target [b] at time [t], when there is one. *)
Definition code_at (target_list : list (list Z)) (b t : nat) : option Z :=
  target_list !! b ≫= λ seq, seq !! t.

(** A target the loops of [target_list_to_one_hot] get through: it is
    empty, or it sits at a position inside the batch and all its codes
    are positions of the label axis. *)
Definition target_ok (size num_labels : nat) (item : nat * list Z) : Prop :=
  item.2 = [] ∨ (item.1 < size ∧ Forall (index_ok num_labels) item.2).

#[global] Instance index_ok_dec n code : Decision (index_ok n code) :=
  ltac:(unfold index_ok; apply _).
#[global] Instance target_ok_dec size n item : Decision (target_ok size n item) :=
  ltac:(unfold target_ok; apply _).

Section one_hot_inv.
Context {F : Type} (zero one : F).

(** The target matrix once the targets before [b] and the first [j]
    codes of target [b] are written. *)
Definition one_hot_inv (target_list : list (list Z)) (shape : nat * nat * nat)
    (b j : nat) (target_mat : ndarray3 F) : Prop :=
  shape3 target_mat = shape ∧ wf3 target_mat ∧
  ∀ t b' c, t < shape.1.1 → b' < shape.1.2 → c < shape.2 →
    get3 target_mat t b' c
    = Some (if decide (wrap_index shape.2 <$> code_at target_list b' t
                       = Some (Z.of_nat c)
                       ∧ (b' < b ∨ (b' = b ∧ t < j)))
            then one else zero).

(** The bodies of the two loops of [target_list_to_one_hot]. *)
Definition write_code (batch_i : nat) (target_mat : ndarray3 F) (item : nat * Z)
    : result (ndarray3 F) :=
  let '(time_pos, char_code) := item in
  setitem3 target_mat time_pos batch_i char_code one.

Definition write_target (target_mat : ndarray3 F) (item : nat * list Z)
    : result (ndarray3 F) :=
  let '(batch_i, seq) := item in
  for_each (enumerate seq) target_mat (write_code batch_i).

(** The state of the inner loop after [j] codes of target [b]. *)
Definition codes_inv (target_list : list (list Z)) (shape : nat * nat * nat)
    (b : nat) (seq : list Z) (j : nat) (target_mat : ndarray3 F) : Prop :=
  one_hot_inv target_list shape b j target_mat ∧
  Forall (index_ok shape.2) (take j seq) ∧
  (0 < j → b < shape.1.2).

(** The state of the outer loop after [b] targets. *)
Definition targets_inv (target_list : list (list Z)) (shape : nat * nat * nat)
    (b : nat) (target_mat : ndarray3 F) : Prop :=
  one_hot_inv target_list shape b 0 target_mat ∧
  Forall (target_ok shape.1.2 shape.2) (take b (enumerate target_list)).
End one_hot_inv.

(** ** Transcripts: what the constructors read *)

(** The utterance id and the words of a line of the transcript file. *)
Definition line_id (line : string) : option string := head (split " " line).
Definition line_words (line : string) : list string := drop 1 (split " " line).

(** The words of the last line that starts with an utterance id. *)
Definition utt_words (lines : list string) (utt_id : string) : option (list string) :=
  last (line_words <$> filter (λ line, line_id line = Some utt_id) lines).

(** The body of the loop of [BatchDispenser.__init__]. *)
Definition read_line {Tok} (normalize_targets : list string → result (list Tok))
    (text_dict : gmap string (list Tok)) (line : string)
    : result (gmap string (list Tok)) :=
  let tmp := split " " line in
  utt_id ← getitem tmp 0;
  targets ← normalize_targets (drop 1 tmp);
  Ok (<[utt_id := targets]> text_dict).

(** All the words of a transcript file, line after line. *)
Definition corpus_words (lines : list string) : list string :=
  lines ≫= line_words.

(** The order of [str], as [sort] uses it. *)
Definition string_le (a b : string) : Prop := Is_true (String.leb a b).

(** A character whose code is below the number of labels. *)
Definition code_in_range (c : ascii) : bool :=
  match UttTextDispenser.code_dict !! c with
  | Some code =>
      bool_decide (0 ≤ code < Z.of_nat UttTextDispenser.target_label_no)%Z
  | None => false
  end.

(** The two dictionaries built by [PhonemeTextDispenser.__init__]. *)
Definition vocab_of (lines : list string) : gmap string Z :=
  foldl (λ vocab_dict line,
           let tmp := split " " line in
           foldl PhonemeTextDispenser.count_word vocab_dict (drop 1 tmp))
        ∅ lines.

Definition phone_map_of (phones : list string) : gmap string Z :=
  foldl (λ phone_map '(no, phoneme), <[phoneme := Z.of_nat no]> phone_map)
        ∅ (enumerate phones).

(** ** Dispensing batches *)

(** [d[k]] of a dict *)
Definition dict_getitem `{Countable K} {V} (d : gmap K V) (k : K) : result V :=
  match d !! k with
  | Some v => Ok v
  | None => Raise KeyError
  end.

(** The feature reader is a collaborator. Its state is a [Reader];
    [get_utt] hands out the id and the matrix (time steps by features)
    of the next utterance, [nextId] and [prevId] move one utterance on
    or back, and each leaves the reader in a new state or raises. *)
Section dispensing.
Context {F : Type} (zero one : F).
Context {Reader : Type}.
Context (get_utt : Reader → result (string * ndarray2 F * Reader)).
Context (nextId prevId : Reader → result (string * Reader)).
Context {Tok : Type} (encode : list Tok → result (list Z)).

(** One round of the loop of [get_batch]. *)
Definition read_utt (self : BatchDispenser.t Tok)
    (st : Reader * list (ndarray2 F) * list (list Z)) (elmnt_cnt : nat)
    : result (Reader * list (ndarray2 F) * list (list Z)) :=
  let '(reader, input_list, target_list) := st in
  '(utt_id, utt_mat, reader) ← get_utt reader;
  transcription ← dict_getitem (BatchDispenser.text_dict self) utt_id;
  encoded_target ← encode transcription;
  Ok (reader, input_list ++ [transpose utt_mat], target_list ++ [encoded_target]).

(** [get_batch]: the batch and the reader after the reads. *)
Definition get_batch (self : BatchDispenser.t Tok) (reader : Reader)
    : result (ndarray3 F * BatchDispenser.target_data * list nat * Reader) :=
  st ← for_each (range 0 (BatchDispenser.size self)) (reader, [], [])
                (read_utt self);
  let '(reader, input_list, target_list) := st in
  batch ← BatchDispenser.data_lists_to_batch zero one self input_list target_list;
  Ok (batch, reader).

Definition skip_batch (self : BatchDispenser.t Tok) (reader : Reader)
    : result Reader :=
  for_each (range 0 (BatchDispenser.size self)) reader
           (λ reader elmnt_cnt, '(_, reader) ← nextId reader; Ok reader).

Definition return_batch (self : BatchDispenser.t Tok) (reader : Reader)
    : result Reader :=
  for_each (range 0 (BatchDispenser.size self)) reader
           (λ reader elmnt_cnt, '(_, reader) ← prevId reader; Ok reader).

(** The reader in state [reader] hands out the utterances [utts] one
    after the other and is then in state [reader']. *)
Fixpoint delivers (reader : Reader) (utts : list (string * ndarray2 F))
    (reader' : Reader) : Prop :=
  match utts with
  | [] => reader' = reader
  | utt :: utts =>
      ∃ next, get_utt reader = Ok (utt.1, utt.2, next) ∧
              delivers next utts reader'
  end.

End dispensing.

(** A reader over a list of utterances that are handed out in order,
    to run [get_batch] on examples: the utterances left are its state. *)
Definition list_get_utt {F} (reader : list (string * ndarray2 F))
    : result (string * ndarray2 F * list (string * ndarray2 F)) :=
  match reader with
  | utt :: reader => Ok (utt.1, utt.2, reader)
  | [] => Raise IndexError
  end.

(** ** State containers of the cell: [dtype] *)

(** [TypeError] joins the exceptions of the dispensers. *)
Inductive las_exn : Type :=
  | Builtin (e : exn)
  | TypeError (msg : string).

(** [StateTouple.dtype] and [RNNStateList.dtype] run the same loop over
    the entries of the container. [dtype] reads the attribute of an
    entry, which raises when the entry is itself a container that is
    not consistent; [str] prints a data type. *)
Section dtype.
Context {DType : Type} `{!EqDecision DType} (str : DType → string).
Context {A : Type} (dtype : A → las_exn + DType).

Definition inconsistent (a b : DType) : las_exn :=
  TypeError ("Inconsistent internal state: " ++ str a ++ " vs " ++ str b).

(** The body of the loop: [self[i-1].dtype != self[i].dtype] *)
Definition dtype_round (self : list A) (i : nat) : las_exn + unit :=
  match self !! (i - 1) with
  | None => inl (Builtin IndexError)
  | Some x =>
      match dtype x with
      | inl e => inl e
      | inr a =>
          match self !! i with
          | None => inl (Builtin IndexError)
          | Some y =>
              match dtype y with
              | inl e => inl e
              | inr b => if decide (a ≠ b) then inl (inconsistent a b) else inr tt
              end
          end
      end
  end.

Definition dtype_loop (self : list A) (items : list nat) : las_exn + unit :=
  foldl (λ acc i, match acc with
                  | inl e => inl e
                  | inr _ => dtype_round self i
                  end)
        (inr tt) items.

Definition dtype_of (self : list A) : las_exn + DType :=
  match dtype_loop self (range 1 (length self)) with
  | inl e => inl e
  | inr _ =>
      match self !! 0 with
      | Some x => dtype x
      | None => inl (Builtin IndexError)
      end
  end.
End dtype.

(** [StateTouple.dtype]: the four entries are the two lists of
    recurrent states, the label and the context vector. *)
Definition StateTouple_dtype {DType : Type} `{!EqDecision DType}
    (str : DType → string) {Elt Tensor : Type}
    (elt_dtype : Elt → las_exn + DType) (tensor_dtype : Tensor → DType)
    (pre_context_states post_context_states : list Elt)
    (one_hot_char context_vector : Tensor) : las_exn + DType :=
  dtype_of str id
           [dtype_of str elt_dtype pre_context_states;
            dtype_of str elt_dtype post_context_states;
            inr (tensor_dtype one_hot_char);
            inr (tensor_dtype context_vector)].

(** ** FeedForwardNetwork: the layers *)

Module FeedForwardNetwork.
Section net.
Context {Activation : Type}.

Record FFNetDimension := Dim {
  output_dim : nat;
  num_hidden_units : nat;
  num_hidden_layers : Z
}.

(** [FFLayer(output_dim, activation)]: a collaborator, kept as the
    record of its arguments. *)
Record FFLayer := Layer {
  layer_output_dim : nat;
  layer_activation : Activation
}.

Record t := Build {
  dimension : FFNetDimension;
  activation : Activation;
  name : string;
  reuse : option bool;
  layers : list (option FFLayer)
}.

(** [__init__]; [identity_activation] is [IdentityWrapper()]. *)
Definition init (identity_activation : Activation)
    (dimension : FFNetDimension) (activation : Activation) (name : string)
    : result t :=
  let layers := replicate (Z.to_nat (num_hidden_layers dimension + 1)) None in
  layers ← for_each (range 0 (length layers - 1)) layers
                    (λ layers k,
                       setitem1 layers k
                                (Some (Layer (num_hidden_units dimension) activation)));
  layers ← set_last layers (Some (Layer (output_dim dimension) identity_activation));
  Ok (Build dimension activation name None layers).
End net.
End FeedForwardNetwork.

(** ** Loops that append *)

Section loops.
Context {A B : Type}.

Lemma foldl_bind (f : list B → A → list B) (g : A → list B) (l : list A) init :
  (∀ acc x, f acc x = acc ++ g x) →
  foldl f init l = init ++ (l ≫= g).
Proof.
  intros Hf. revert init. induction l as [|x l IH]; intros init; simpl.
  - by rewrite app_nil_r.
  - rewrite IH, Hf. by rewrite <- app_assoc.
Qed.

(** A lookup loop in the error monad: it returns the values found, in
    order, or raises [KeyError] at the first key without a value. *)
Lemma foldl_lookup (f : A → option B) (l : list A) (init : list B) :
  foldl (λ acc x, ys ← acc;
                  match f x with
                  | Some y => Ok (ys ++ [y])
                  | None => Raise KeyError
                  end) (Ok init) l
  = match mapM f l with
    | Some ys => Ok (init ++ ys)
    | None => Raise KeyError
    end.
Proof.
  revert init. induction l as [|x l IH]; intros init; simpl.
  - by rewrite app_nil_r.
  - destruct (f x) as [y|] eqn:Hx; simpl.
    + rewrite IH. destruct (mapM f l); simpl; [|done].
      by rewrite <- app_assoc.
    + clear IH. induction l as [|x' l IH]; [done|]. simpl. apply IH.
Qed.
End loops.

(** Looking every key up and every value back up returns the keys. *)
Lemma mapM_round_trip {A B C} (f : A → option B) (h : B → C) (g : C → option A)
    (l : list A) :
  Forall (λ a, ∃ b, f a = Some b ∧ g (h b) = Some a) l →
  ∃ bs, mapM f l = Some bs ∧ mapM g (h <$> bs) = Some l.
Proof.
  induction 1 as [|a l (b & Hf & Hg) _ (bs & Hl & Hd)].
  - by exists [].
  - exists (b :: bs). rewrite fmap_cons. simpl. rewrite Hf, Hg. simpl.
    rewrite Hl. simpl. by rewrite Hd.
Qed.

(** ** The character encoder *)

Section character_encoder.
Import UttTextDispenser.

Lemma norm_step_snoc norm_lst any_chr :
  norm_step norm_lst any_chr = norm_lst ++ [norm_chr any_chr].
Proof.
  unfold norm_step, norm_chr.
  destruct (decide (lower any_chr ∉ allowed_chrs)) as [Hn|Hn];
    destruct (decide (lower any_chr ∈ allowed_chrs)) as [Hy|Hy]; done.
Qed.

Lemma check_unknowns_bind tmp_lst :
  check_unknowns tmp_lst
  = tmp_lst ≫= (λ word, norm_chr <$> list_ascii_of_string word).
Proof.
  unfold check_unknowns.
  rewrite (foldl_bind _ (λ word, norm_chr <$> list_ascii_of_string word)); [done|].
  intros acc word. generalize (list_ascii_of_string word) as cs.
  intros cs. revert acc. induction cs as [|c cs IH]; intros acc; simpl.
  - by rewrite app_nil_r.
  - rewrite IH, norm_step_snoc. by rewrite <- app_assoc.
Qed.

Lemma check_unknowns_app l1 l2 :
  check_unknowns (l1 ++ l2) = check_unknowns l1 ++ check_unknowns l2.
Proof. rewrite !check_unknowns_bind. apply bind_app. Qed.

Lemma tmp_step_snoc tmp_lst word :
  tmp_step tmp_lst word = tmp_lst ++ word_tokens word.
Proof.
  unfold tmp_step, word_tokens.
  repeat case_decide; try done. by rewrite <- app_assoc.
Qed.

Lemma tmp_loop target_list init :
  foldl tmp_step init target_list = init ++ (target_list ≫= word_tokens).
Proof. apply foldl_bind, tmp_step_snoc. Qed.

Lemma set_last_snoc {A} (l : list A) (x y : A) :
  set_last (l ++ [x]) y = Ok (l ++ [y]).
Proof.
  unfold set_last. destruct (l ++ [x]) eqn:E.
  - by destruct l.
  - rewrite <- E. f_equal. rewrite length_app. simpl.
    replace (pred (length l + 1)) with (length l + 0) by lia.
    by rewrite insert_app_r.
Qed.

(** [normalize_targets] never raises: the list it overwrites starts
    with the start marker. The entry that is overwritten is the last
    one, whatever it is. *)
Lemma normalize_targets_eq target_list :
  normalize_targets target_list
  = Ok (check_unknowns (removelast ("<" :: (target_list ≫= word_tokens)) ++ [">"])).
Proof.
  unfold normalize_targets. rewrite tmp_loop.
  change (["<"] ++ ?l) with ("<" :: l).
  destruct (exists_last (l:="<" :: (target_list ≫= word_tokens))) as (l' & x & E);
    [done|].
  rewrite E, set_last_snoc, removelast_last. done.
Qed.

Lemma norm_chr_allowed c : norm_chr c ∈ allowed_chrs.
Proof.
  unfold norm_chr. case_decide; [done|].
  apply (bool_decide_unpack _). vm_compute. exact I.
Qed.

Lemma check_unknowns_allowed tmp_lst :
  Forall (λ c, c ∈ allowed_chrs) (check_unknowns tmp_lst).
Proof.
  rewrite check_unknowns_bind. apply Forall_forall. intros c Hc.
  apply list_elem_of_bind in Hc as (w & Hc & _).
  apply list_elem_of_fmap in Hc as (c' & -> & _). apply norm_chr_allowed.
Qed.

Lemma allowed_round_trip c : c ∈ allowed_chrs → code_round_trip c = true.
Proof.
  assert (forallb code_round_trip allowed_chrs = true) as Hall
    by (vm_compute; reflexivity).
  intros Hc. apply list_elem_of_In in Hc.
  revert c Hc. by apply forallb_forall.
Qed.

Lemma encode_eq char_lst :
  encode char_lst
  = match mapM (λ c, code_dict !! c) char_lst with
    | Some codes => Ok (to_uint8 <$> codes)
    | None => Raise KeyError
    end.
Proof.
  unfold encode. rewrite foldl_lookup.
  by destruct (mapM _ char_lst).
Qed.

Lemma decode_eq char_lst :
  decode char_lst
  = match mapM (λ k, reverse_dict !! k) char_lst with
    | Some cs => Ok cs
    | None => Raise KeyError
    end.
Proof. unfold decode. by rewrite foldl_lookup. Qed.

Lemma allowed_codes char_lst :
  Forall (λ c, c ∈ allowed_chrs) char_lst →
  ∃ codes, mapM (λ c, code_dict !! c) char_lst = Some codes ∧
           mapM (λ k, reverse_dict !! k) (to_uint8 <$> codes) = Some char_lst.
Proof.
  intros Hall. apply mapM_round_trip.
  eapply Forall_impl; [exact Hall|]. intros c Hc.
  apply allowed_round_trip in Hc. unfold code_round_trip in Hc.
  destruct (code_dict !! c) as [k|]; [|done].
  apply andb_prop in Hc as [_ Hc].
  destruct (reverse_dict !! to_uint8 k) as [c'|] eqn:Hk; [|done].
  apply bool_decide_eq_true in Hc as ->. exists k. rewrite Hk. split; reflexivity.
Qed.

(** C1, as the code has it: normalizing the words THE ,COMMA CAT gives
    the tokens < t h e, a space, a comma, c a t and >. Every plain word
    is followed by a space and the comma marker appends the comma alone,
    so the space comes before the comma. *)
Theorem normalize_the_comma_cat :
  normalize_targets ["THE"; ",COMMA"; "CAT"]
  = Ok ["<"; "t"; "h"; "e"; " "; ","; "c"; "a"; "t"; ">"]%char.
Proof. vm_compute. reflexivity. Qed.

(** C1, as the specification words it: the token sequence with the
    comma before the space is not what [normalize_targets] returns. *)
Lemma normalize_the_comma_cat_not_spec :
  normalize_targets ["THE"; ",COMMA"; "CAT"]
  ≠ Ok ["<"; "t"; "h"; "e"; ","; " "; "c"; "a"; "t"; ">"]%char.
Proof. vm_compute. intros H. discriminate H. Qed.

(** C2, at the failing input: [range(ord("a"), ord("z"))] stops before
    "z", so the allowed characters are the seven punctuation tokens and
    the letters a to y. The second pass writes, for every character, its
    lower case when that is allowed and "?" otherwise; "z" is not allowed
    and the word ZOO is normalized to < ? o o >. *)
Theorem allowed_chrs_stop_before_z :
  allowed_chrs = punctuation_and_letters "a" "y" ∧
  (∀ tmp_lst,
     check_unknowns tmp_lst
     = tmp_lst ≫= (λ word, norm_chr <$> list_ascii_of_string word)) ∧
  ("z"%char ∉ allowed_chrs) ∧
  norm_chr "z" = "?"%char ∧
  normalize_targets ["ZOO"] = Ok ["<"; "?"; "o"; "o"; ">"]%char.
Proof.
  split_and!.
  - vm_compute. reflexivity.
  - apply check_unknowns_bind.
  - apply (bool_decide_unpack _). vm_compute. exact I.
  - vm_compute. reflexivity.
  - vm_compute. reflexivity.
Qed.

(** C8: for every word list, [normalize_targets] returns a token
    sequence, [encode] returns codes for it, and [decode] of these codes
    is the token sequence again. A string of allowed characters, split
    into words, is one such word list. *)
Theorem decode_encode_normalized (target_list : list string) :
  ∃ norm_lst codes,
    normalize_targets target_list = Ok norm_lst ∧
    encode norm_lst = Ok codes ∧
    decode codes = Ok norm_lst.
Proof.
  rewrite normalize_targets_eq. eexists. 
  destruct (allowed_codes _ (check_unknowns_allowed
    (removelast ("<" :: (target_list ≫= word_tokens)) ++ [">"])))
    as (codes & Hc & Hd).
  exists (to_uint8 <$> codes). split; [done|].
  rewrite encode_eq, Hc, decode_eq, Hd. done.
Qed.

(** C9: the last entry of the list built by the first pass is replaced
    by the end marker, whatever it is. For the empty word list that
    entry is the start marker and the result is > alone; when the last
    word is ,COMMA it is the comma, which is lost. *)
Theorem normalize_overwrites_last :
  (∀ target_list,
     normalize_targets target_list
     = Ok (check_unknowns
             (removelast ("<" :: (target_list ≫= word_tokens)) ++ [">"]))) ∧
  normalize_targets [] = Ok [">"%char] ∧
  (∀ target_list,
     normalize_targets (target_list ++ [",COMMA"])
     = Ok (check_unknowns ("<" :: (target_list ≫= word_tokens)) ++ [">"%char])) ∧
  normalize_targets ["THE"; ",COMMA"]
  = Ok ["<"; "t"; "h"; "e"; " "; ">"]%char.
Proof.
  split_and!.
  - apply normalize_targets_eq.
  - vm_compute. reflexivity.
  - intros target_list. rewrite normalize_targets_eq. f_equal.
    rewrite bind_app. cbn [mbind list_bind word_tokens].
    change (word_tokens ",COMMA" ++ []) with [","].
    change ("<" :: ?l ++ [","]) with (("<" :: l) ++ [","]).
    rewrite removelast_last. apply check_unknowns_app.
  - vm_compute. reflexivity.
Qed.
End character_encoder.

(** ** Label codes are stored in eight bits *)

Lemma phoneme_encode_eq (self : PhonemeTextDispenser.t) (phone_lst : list string) :
  PhonemeTextDispenser.encode self phone_lst
  = match mapM (λ phone, PhonemeTextDispenser.phone_map self !! phone) phone_lst with
    | Some codes => Ok ((λ code, code mod 256)%Z <$> codes)
    | None => Raise KeyError
    end.
Proof.
  unfold PhonemeTextDispenser.encode. rewrite foldl_lookup.
  by destruct (mapM _ phone_lst).
Qed.

(** C10: both encoders look every token up and keep the code modulo 256.
    A corpus with 257 phonemes is accepted by the constructor; its last
    phoneme has code 256 and is encoded as 0. *)
Theorem codes_wrap_modulo_256 :
  (∀ char_lst,
     UttTextDispenser.encode char_lst
     = match mapM (λ c, UttTextDispenser.code_dict !! c) char_lst with
       | Some codes => Ok ((λ code, code mod 256)%Z <$> codes)
       | None => Raise KeyError
       end) ∧
  (∀ self phone_lst,
     PhonemeTextDispenser.encode self phone_lst
     = match mapM (λ phone, PhonemeTextDispenser.phone_map self !! phone)
                  phone_lst with
       | Some codes => Ok ((λ code, code mod 256)%Z <$> codes)
       | None => Raise KeyError
       end) ∧
  match PhonemeTextDispenser.init 1 corpus257 257 None true with
  | Ok self =>
      PhonemeTextDispenser.phone_map self !! phone_name 256 = Some 256%Z ∧
      PhonemeTextDispenser.encode self [phone_name 256] = Ok [0%Z]
  | Raise _ => False
  end.
Proof.
  split_and!.
  - apply encode_eq.
  - apply phoneme_encode_eq.
  - vm_compute. split; reflexivity.
Qed.

(** ** Sparse targets *)

Section sparse.
Import BatchDispenser.

Lemma sparse_inner t_i target items indices vals lengths :
  foldl (sparse_step t_i target) (indices, vals, lengths) items
  = (indices ++ (index_of <$> (items ≫= λ '(seq_i, val),
                   if decide (val ≠ 0%Z) then [(t_i, seq_i, val)] else [])),
     vals ++ (value_of <$> (items ≫= λ '(seq_i, val),
                   if decide (val ≠ 0%Z) then [(t_i, seq_i, val)] else [])),
     lengths ++ replicate (length items) (length target)).
Proof.
  revert indices vals lengths.
  induction items as [|[seq_i val] items IH]; intros indices vals lengths.
  - simpl. by rewrite !app_nil_r.
  - cbn [foldl sparse_step]. destruct (decide (val ≠ 0%Z)) as [Hv|Hv].
    + rewrite IH. cbn [mbind list_bind length replicate].
      rewrite decide_True by done. cbn [app fmap list_fmap].
      rewrite <- !app_assoc. done.
    + rewrite IH. cbn [mbind list_bind length replicate].
      rewrite decide_False by done. cbn [app].
      rewrite <- !app_assoc. done.
Qed.

Lemma sparse_outer (l : list (nat * list Z)) indices vals lengths :
  foldl (λ st '(t_i, target), foldl (sparse_step t_i target) st (enumerate target))
        (indices, vals, lengths) l
  = (indices ++ (index_of <$> (l ≫= λ '(t_i, target), nonzero_in t_i target)),
     vals ++ (value_of <$> (l ≫= λ '(t_i, target), nonzero_in t_i target)),
     lengths ++ (l ≫= λ p, replicate (length p.2) (length p.2))).
Proof.
  revert indices vals lengths.
  induction l as [|[t_i target] l IH]; intros indices vals lengths.
  - simpl. by rewrite !app_nil_r.
  - cbn [foldl]. rewrite sparse_inner, IH.
    cbn [mbind list_bind snd]. rewrite !fmap_app, <- !app_assoc.
    unfold enumerate at 3. rewrite length_imap. done.
Qed.

Lemma bind_enumerate {A B} (g : A → list B) (l : list A) :
  enumerate l ≫= (λ p, g p.2) = l ≫= g.
Proof.
  unfold enumerate.
  change (imap (λ i x, (i, x)) l) with (imap (λ i x, ((λ i : nat, i) i, x)) l).
  generalize (λ i : nat, i) as h.
  induction l as [|x l IH]; intros h; [done|].
  cbn [imap mbind list_bind snd]. f_equal. apply (IH (h ∘ S)).
Qed.

Lemma sparse_loop_eq target_list :
  sparse_loop target_list
  = (index_of <$> nonzero_positions target_list,
     value_of <$> nonzero_positions target_list,
     position_lengths target_list).
Proof.
  unfold sparse_loop. rewrite sparse_outer. cbn [app].
  by rewrite (bind_enumerate (λ target : list Z,
                                replicate (length target) (length target))).
Qed.

Lemma sparse_tensor_eq target_list :
  target_list_to_sparse_tensor target_list
  = (max_len ← np_max (position_lengths target_list);
     Ok (index_of <$> nonzero_positions target_list,
         value_of <$> nonzero_positions target_list,
         [length target_list; max_len])).
Proof. unfold target_list_to_sparse_tensor. by rewrite sparse_loop_eq. Qed.

Lemma elem_of_nonzero_positions target_list t_i seq_i val :
  (t_i, seq_i, val) ∈ nonzero_positions target_list
  ↔ ∃ target, target_list !! t_i = Some target ∧
              target !! seq_i = Some val ∧ val ≠ 0%Z.
Proof.
  unfold nonzero_positions, nonzero_in, enumerate.
  rewrite list_elem_of_bind. split.
  - intros ([t target] & Hin & Hen).
    apply elem_of_lookup_imap in Hen as (i & x & [= -> ->] & Hx).
    apply list_elem_of_bind in Hin as ([s v] & Hin & Hen).
    apply elem_of_lookup_imap in Hen as (j & y & [= -> ->] & Hy).
    case_decide; [|by apply not_elem_of_nil in Hin].
    apply list_elem_of_singleton in Hin as [= -> -> ->]. eauto.
  - intros (target & Ht & Hs & Hv). exists (t_i, target). split.
    + apply list_elem_of_bind. exists (seq_i, val). split.
      * rewrite decide_True by done. by apply list_elem_of_singleton.
      * by apply (elem_of_lookup_imap_2 (λ i x, (i, x))).
    + by apply (elem_of_lookup_imap_2 (λ i x, (i, x))).
Qed.

Lemma foldl_max x l : foldl Nat.max x l = x `max` max_list l.
Proof.
  revert x. induction l as [|y l IH]; intros x; simpl; [lia|].
  rewrite IH. unfold id. lia.
Qed.

Lemma max_list_app l1 l2 : max_list (l1 ++ l2) = max_list l1 `max` max_list l2.
Proof. induction l1 as [|x l1 IH]; simpl; [done|]. rewrite IH. lia. Qed.

Lemma max_list_replicate n m : max_list (replicate n m) = if n is 0 then 0 else m.
Proof.
  induction n as [|n IH]; simpl; [done|]. rewrite IH. unfold id.
  destruct n; lia.
Qed.

Lemma max_position_lengths target_list :
  max_list (position_lengths target_list) = max_list_with length target_list.
Proof.
  unfold position_lengths.
  induction target_list as [|target tl IH]; [done|].
  rewrite bind_cons, max_list_app, IH, max_list_replicate. simpl.
  destruct target; simpl; lia.
Qed.

Lemma position_lengths_nil target_list :
  position_lengths target_list = [] ↔ Forall (λ target, target = []) target_list.
Proof.
  unfold position_lengths. induction target_list as [|target tl IH].
  - split; [constructor|done].
  - rewrite bind_cons, Forall_cons, <- IH. destruct target; simpl.
    + tauto.
    + split; [done|]. by intros [? _].
Qed.

(** The maximum is taken over the lengths recorded at the positions:
    it is refused when there is no position at all, and is the length
    of the longest target otherwise. *)
Lemma np_max_position_lengths target_list :
  np_max (position_lengths target_list)
  = if decide (Forall (λ target, target = []) target_list)
    then Raise empty_reduction
    else Ok (max_list_with length target_list).
Proof.
  case_decide as Hall.
  - apply position_lengths_nil in Hall. by rewrite Hall.
  - rewrite <- max_position_lengths.
    destruct (position_lengths target_list) as [|x l] eqn:E.
    + by apply position_lengths_nil in E.
    + simpl. by rewrite foldl_max.
Qed.

(** C4: the indices and values are those of the positions with a
    nonzero code, in reading order; the shape is the number of targets
    and the maximum of the lengths recorded at all positions, which is
    the length of the longest target. The target 0 3 0 5 gives indices
    (0,1) and (0,3), values 3 and 5 and shape (1,4). *)
Theorem sparse_tensor_of_nonzero_positions :
  (∀ target_list,
     target_list_to_sparse_tensor target_list
     = (max_len ← np_max (position_lengths target_list);
        Ok (index_of <$> nonzero_positions target_list,
            value_of <$> nonzero_positions target_list,
            [length target_list; max_len]))) ∧
  (∀ target_list t_i seq_i val,
     (t_i, seq_i, val) ∈ nonzero_positions target_list
     ↔ ∃ target, target_list !! t_i = Some target ∧
                 target !! seq_i = Some val ∧ val ≠ 0%Z) ∧
  (∀ target_list,
     np_max (position_lengths target_list)
     = if decide (Forall (λ target, target = []) target_list)
       then Raise empty_reduction
       else Ok (max_list_with length target_list)) ∧
  target_list_to_sparse_tensor [[0; 3; 0; 5]%Z]
  = Ok ([[0; 1]; [0; 3]], [3; 5]%Z, [1; 4]).
Proof.
  split_and!.
  - apply sparse_tensor_eq.
  - apply elem_of_nonzero_positions.
  - apply np_max_position_lengths.
  - vm_compute. reflexivity.
Qed.

(** C3, at the failing inputs: when every target is empty no length is
    recorded, and [np.max] of the empty list raises [ValueError]. *)
Theorem sparse_tensor_all_empty_raises (target_list : list (list Z)) :
  Forall (λ target, target = []) target_list →
  target_list_to_sparse_tensor target_list = Raise empty_reduction.
Proof.
  intros Hall. rewrite sparse_tensor_eq, np_max_position_lengths.
  by rewrite decide_True.
Qed.

(** The theorem at a batch of two empty targets. *)
Lemma sparse_tensor_all_empty_raises_witness :
  Forall (λ target : list Z, target = []) [[]; []] ∧
  target_list_to_sparse_tensor [[]; []] = Raise empty_reduction.
Proof.
  assert (Forall (λ target : list Z, target = []) [[]; []]) as Hall
    by (repeat constructor).
  split; [exact Hall|].
  exact (sparse_tensor_all_empty_raises [[]; []] Hall).
Defined.
End sparse.

(** ** The decoding cell *)

Section decoding_cell.
Context {Tensor RNNState : Type} `{!TensorOps Tensor} `{!Networks Tensor RNNState}.
Import AttendAndSpellCell.

Lemma pred_true rand_val : pred rand_val = true ↔ (net_out_prob < rand_val)%Q.
Proof.
  unfold pred, tf_greater.
  pose proof (Qgt_alt rand_val net_out_prob) as Hgt.
  destruct (rand_val ?= net_out_prob)%Q; split; intros H;
    try congruence; try (apply Hgt; congruence);
    apply Hgt in H; congruence.
Qed.

Lemma pred_false rand_val : pred rand_val = false ↔ (rand_val <= net_out_prob)%Q.
Proof.
  unfold pred, tf_greater.
  pose proof (Qle_alt rand_val net_out_prob) as Hle.
  destruct (rand_val ?= net_out_prob)%Q; split; intros H;
    try congruence; try (apply Hle; congruence).
  apply Hle in H. congruence.
Qed.

(** The draws of an even grid that are greater than 0.2 *)
Lemma pred_grid_draw (m k : nat) :
  pred (grid_draw (5 * S m) k) = true ↔ S m ≤ k.
Proof.
  rewrite pred_true. unfold Qlt, net_out_prob, grid_draw.
  cbn [Qnum Qden]. rewrite Z2Pos.id by lia. lia.
Qed.

Lemma count_from (a s n : nat) :
  length (filter (λ k, a ≤ k) (seq s n)) = s + n - Nat.max a s.
Proof.
  revert s. induction n as [|n IH]; intros s; [simpl; lia|].
  cbn [seq]. rewrite filter_cons. case_decide; cbn [length]; rewrite IH; lia.
Qed.

(** C6: the label that enters the first recurrent network in a step
    that returns. Without a ground-truth label it is the label of the
    state, which is the greedy decoding of the logits of the step
    before; with one, it is the ground truth exactly when the draw is
    greater than 0.2 and the label of the state exactly when the draw is
    at most 0.2. The draw is uniform between 0 and 1, so the first
    event, the draws between 0.2 and 1, has probability 0.8 and the
    second, the draws between 0 and 0.2, has probability 0.2; of any
    5 m draws spread evenly over the interval the step feeds the ground
    truth at exactly 4 m. *)
Theorem fed_back_label_selection
    (self : t Tensor) (cell_input : option Tensor)
    (state state' : StateTouple Tensor RNNState) (rand_val : Q)
    (logits : Tensor) :
  call self cell_input state rand_val = Ok (logits, state') →
  let fed :=
    match cell_input with
    | Some groundtruth_char =>
        if pred rand_val then groundtruth_char else one_hot_char state
    | None => one_hot_char state
    end in
  (∃ pre_context_out,
     pre_context_rnn (tf_concat 1 [fed; context_vector state])
                     (pre_context_states state)
     = (pre_context_out, pre_context_states state') ∧
     attention_context self pre_context_out = Ok (context_vector state')) ∧
  one_hot_char state' = tf_one_hot (tf_argmax logits 1) (target_label_no self) ∧
  fed_back_label cell_input state rand_val = fed ∧
  (pred rand_val = true ↔ (net_out_prob < rand_val)%Q) ∧
  (pred rand_val = false ↔ (rand_val <= net_out_prob)%Q) ∧
  (net_out_prob == 2 # 10)%Q ∧
  (uniform_prob minval maxval net_out_prob maxval == 8 # 10)%Q ∧
  (uniform_prob minval maxval minval net_out_prob == 2 # 10)%Q ∧
  ∀ m,
    Forall (λ k, (minval <= grid_draw (5 * S m) k)%Q ∧
                 (grid_draw (5 * S m) k < maxval)%Q) (seq 0 (5 * S m)) ∧
    length (filter (λ k, pred (grid_draw (5 * S m) k) = true) (seq 0 (5 * S m)))
    = 4 * S m ∧
    length (filter (λ k, pred (grid_draw (5 * S m) k) = false) (seq 0 (5 * S m)))
    = S m.
Proof.
  intros Hcall fed. split_and!.
  - unfold call in Hcall. destruct (psi self) as [p|] eqn:Hpsi; [|done].
    fold fed in Hcall. change (fed_back_label cell_input state rand_val) with fed in Hcall.
    destruct (pre_context_rnn _ _) as [pre_context_out pre_states] eqn:Hrnn.
    destruct (attention_context self pre_context_out) as [ctx|] eqn:Hctx; [|done].
    cbn [mbind result_bind] in Hcall. exists pre_context_out.
    destruct (type_two self).
    + destruct (post_context_rnn _ _). by injection Hcall as _ <-.
    + by injection Hcall as _ <-.
  - unfold call in Hcall. destruct (psi self) as [p|]; [|done].
    destruct (pre_context_rnn _ _) as [pre_context_out pre_states].
    destruct (attention_context self pre_context_out) as [ctx|]; [|done].
    cbn [mbind result_bind] in Hcall. unfold greedy_decoding in Hcall.
    destruct (type_two self).
    + destruct (post_context_rnn _ _). by injection Hcall as <- <-.
    + by injection Hcall as <- <-.
  - by destruct cell_input.
  - apply pred_true.
  - apply pred_false.
  - reflexivity.
  - reflexivity.
  - reflexivity.
  - intros m. split_and!.
    + apply Forall_forall. intros k Hk. apply elem_of_seq in Hk.
      unfold Qle, Qlt, minval, maxval, grid_draw. cbn [Qnum Qden].
      rewrite Z2Pos.id by lia. lia.
    + rewrite (list_filter_iff _ (λ k, S m ≤ k)) by apply pred_grid_draw.
      rewrite count_from. lia.
    + assert (∀ l : list nat,
                length (filter (λ k, pred (grid_draw (5 * S m) k) = false) l)
                + length (filter (λ k, pred (grid_draw (5 * S m) k) = true) l)
                = length l) as Hsplit.
      { induction l as [|k l IH]; [done|]. rewrite !filter_cons.
        destruct (pred (grid_draw (5 * S m) k)); repeat case_decide;
          try done; cbn [length]; lia. }
      specialize (Hsplit (seq 0 (5 * S m))).
      rewrite (list_filter_iff (λ k, pred (grid_draw (5 * S m) k) = true)
                 (λ k, S m ≤ k)) in Hsplit by apply pred_grid_draw.
      rewrite count_from, length_seq in Hsplit. lia.
Qed.

Lemma set_features_psi (self : t Tensor) high_lvl_features feature_seq_lengths self' :
  set_features self high_lvl_features feature_seq_lengths = (self', Ok tt) →
  is_Some (psi self') ∧ is_Some (AttendAndSpellCell.high_lvl_features self').
Proof.
  unfold set_features.
  destruct (getitem (get_shape high_lvl_features) 2); [|by intros [= _ ?]].
  destruct (getitem (get_shape high_lvl_features) 1); [|by intros [= _ ?]].
  intros [= <-]. split; by eexists.
Qed.

(** C7: a step of a cell whose features were never set raises the
    attribute error "Features must be set."; once [set_features] has
    returned, a step returns logits and a state, so it does not raise
    that error. *)
Theorem call_needs_features
    (self self' : t Tensor) (high_lvl_features feature_seq_lengths : Tensor)
    (cell_input : option Tensor) (state : StateTouple Tensor RNNState)
    (rand_val : Q) :
  psi self = None →
  set_features self high_lvl_features feature_seq_lengths = (self', Ok tt) →
  call self cell_input state rand_val
  = Raise (AttributeError "Features must be set.") ∧
  (∃ out, call self' cell_input state rand_val = Ok out) ∧
  call self' cell_input state rand_val
  ≠ Raise (AttributeError "Features must be set.").
Proof.
  intros Hnone Hset. split.
  - unfold call. by rewrite Hnone.
  - apply set_features_psi in Hset as [[p Hp] [f Hf]].
    assert (∃ out, call self' cell_input state rand_val = Ok out) as [out Hout].
    { unfold call, attention_context. rewrite Hp, Hf.
      destruct (pre_context_rnn _ _) as [pre_context_out pre_states].
      cbn [mbind result_bind].
      destruct (type_two self').
      - destruct (post_context_rnn _ _). by eexists.
      - by eexists. }
    split; [by exists out|]. by rewrite Hout.
Qed.
End decoding_cell.

(** The theorem at a cell over shape-only tensors: a step of the fresh
    cell raises, a step after [set_features] on features of shape
    (2, 5, 8) returns. *)
Lemma call_needs_features_witness :
  let self := AttendAndSpellCell.init (Tensor:=ShapeOnly.Tensor) 32 in
  let state := AttendAndSpellCell.State (RNNState:=unit) tt tt [2; 32] [2; 8] in
  let self' := (AttendAndSpellCell.set_features self [2; 5; 8] [2]).1 in
  AttendAndSpellCell.psi self = None ∧
  AttendAndSpellCell.set_features self [2; 5; 8] [2] = (self', Ok tt) ∧
  AttendAndSpellCell.call self None state (1 # 2)
  = Raise (AttributeError "Features must be set.") ∧
  (∃ out, AttendAndSpellCell.call self' None state (1 # 2) = Ok out) ∧
  AttendAndSpellCell.call self' None state (1 # 2)
  ≠ Raise (AttributeError "Features must be set.").
Proof.
  intros self state self'.
  assert (AttendAndSpellCell.psi self = None) as Hnone by reflexivity.
  assert (AttendAndSpellCell.set_features self [2; 5; 8] [2] = (self', Ok tt))
    as Hset by reflexivity.
  split; [exact Hnone|]. split; [exact Hset|].
  exact (call_needs_features self self' [2; 5; 8] [2] None state (1 # 2) Hnone Hset).
Defined.

(** The theorem at a step over traced tensors, with a ground truth and
    the draw 1/2: the step returns, and the first recurrent network has
    read the ground truth next to the context vector of the state. *)
Lemma fed_back_label_selection_witness :
  let self :=
    (AttendAndSpellCell.set_features
       (AttendAndSpellCell.init (Tensor:=Traced.Tensor) 32) "features" "lengths").1 in
  let state := AttendAndSpellCell.State (Tensor:=Traced.Tensor) "s0" "p0" "prev" "ctx" in
  ∃ logits state',
    AttendAndSpellCell.call self (Some "truth") state (1 # 2) = Ok (logits, state') ∧
    AttendAndSpellCell.pre_context_states state'
    = "pre_state(concat(truth,ctx),s0)".
Proof.
  intros self state.
  destruct (AttendAndSpellCell.call self (Some "truth") state (1 # 2))
    as [[logits state']|e] eqn:Hcall; [|discriminate Hcall].
  exists logits, state'. split; [reflexivity|].
  destruct (fed_back_label_selection self (Some "truth") state state' (1 # 2)
              logits Hcall) as [(pre_context_out & Hrnn & _) _].
  injection Hrnn as _ Hstate. symmetry. exact Hstate.
Defined.

(** ** Loops that may raise *)

Lemma for_each_snoc {A St} (items : list A) (x : A) (init : St) body :
  for_each (items ++ [x]) init body = (st ← for_each items init body; body st x).
Proof. unfold for_each. by rewrite foldl_snoc. Qed.

(** A loop returns when every round does, and an invariant indexed by the
    number of rounds done is carried to the end. *)
Lemma for_each_ind {A St} (P : nat → St → Prop) (body : St → A → result St)
    (items : list A) (init : St) :
  P 0 init →
  (∀ i x st, items !! i = Some x → P i st →
             ∃ st', body st x = Ok st' ∧ P (S i) st') →
  ∃ st, for_each items init body = Ok st ∧ P (length items) st.
Proof.
  induction items as [|x items IH] using rev_ind; intros H0 Hstep.
  - by exists init.
  - destruct IH as (st & Hst & HP); [done| |].
    { intros i y st' Hy. apply Hstep. by apply lookup_app_l_Some. }
    destruct (Hstep (length items) x st) as (st' & Hbody & HP'); [|done|].
    { by rewrite lookup_app_r, Nat.sub_diag. }
    exists st'. rewrite for_each_snoc, Hst, length_app. simpl.
    split; [done|]. by rewrite Nat.add_1_r.
Qed.

(** A loop that has returned has run every round, and an invariant kept
    by the rounds that return holds at the end. *)
Lemma for_each_inv {A St} (P : nat → St → Prop) (body : St → A → result St)
    (items : list A) (init st : St) :
  P 0 init →
  (∀ i x st st', items !! i = Some x → P i st →
                 body st x = Ok st' → P (S i) st') →
  for_each items init body = Ok st → P (length items) st.
Proof.
  revert st. induction items as [|x items IH] using rev_ind; intros st H0 Hstep.
  - by intros [= <-].
  - rewrite for_each_snoc, length_app. simpl. rewrite Nat.add_1_r.
    destruct (for_each items init body) as [st0|e] eqn:Hst0; [|done].
    cbn [mbind result_bind]. intros Hbody.
    apply (Hstep (length items) x st0).
    + by rewrite lookup_app_r, Nat.sub_diag.
    + apply IH; [done| |done].
      intros i y st1 st2 Hy. apply Hstep. by apply lookup_app_l_Some.
    + done.
Qed.

(** ** Assembling the inputs of a batch *)

Section batch_assembly.
Context {F : Type} (zero one : F).
Import BatchDispenser.

(** The two loops of [data_lists_to_batch] run over the pairs (i, i)
    for i below the batch size and the number of inputs. *)
Lemma batch_items n size :
  enumerate (slice (range 0 n) 0 size) = batch_items_of size n.
Proof.
  unfold enumerate, slice, range, batch_items_of.
  rewrite !Nat.sub_0_r, drop_0, take_seq.
  apply list_eq. intros i. rewrite list_lookup_imap, list_lookup_fmap.
  destruct (seq 0 (size `min` n) !! i) as [j|] eqn:E; [|done].
  apply lookup_seq in E as [-> _]. done.
Qed.

Lemma foldl_max_with {A} (f : A → nat) (l : list A) (m : nat) :
  foldl (λ acc x, Nat.max acc (f x)) m l = m `max` max_list_with f l.
Proof.
  revert m. induction l as [|x l IH]; intros m; simpl; [lia|].
  rewrite IH. lia.
Qed.

Lemma max_list_with_le {A} (f : A → nat) (l : list A) (x : A) :
  x ∈ l → f x ≤ max_list_with f l.
Proof.
  induction 1 as [|y z l _ IH]; simpl; lia.
Qed.

(** Column [t] of a well-formed matrix *)
Lemma omap_lookup_all {A B} (g : A → option B) (l : list A) :
  Forall (λ x, is_Some (g x)) l →
  length (omap g l) = length l ∧ ∀ f, omap g l !! f = l !! f ≫= g.
Proof.
  induction 1 as [|x l [y Hy] _ [IHlen IH]]; [done|].
  cbn [omap list_omap]. rewrite Hy. split.
  - simpl. by rewrite <- IHlen.
  - intros [|f]; simpl; [done|]. apply IH.
Qed.

Lemma transpose_wf (inp : ndarray2 F) :
  wf2 inp → wf2 (transpose inp) ∧
  ∀ t f, t < (shape2 inp).2 →
         data2 (transpose inp) !! t ≫= (λ row, row !! f)
         = data2 inp !! f ≫= (λ row, row !! t).
Proof.
  intros [Hlen Hrows]. unfold transpose, wf2. cbn [shape2 data2 fst snd].
  assert (∀ t, t < (shape2 inp).2 →
               Forall (λ row : list F, is_Some (row !! t)) (data2 inp)) as Hcol.
  { intros t Ht. eapply Forall_impl; [exact Hrows|]. intros row Hrow.
    apply lookup_lt_is_Some. by rewrite Hrow. }
  split_and!.
  - by rewrite length_fmap, length_seq.
  - apply Forall_fmap, Forall_forall. intros t Ht.
    apply elem_of_seq in Ht. simpl.
    destruct (omap_lookup_all (λ row : list F, row !! t) (data2 inp)) as [-> _];
      [apply Hcol; lia|done].
  - intros t f Ht. rewrite list_lookup_fmap, lookup_seq_lt by done. simpl.
    by destruct (omap_lookup_all (λ row : list F, row !! t) (data2 inp)
                   (Hcol t Ht)) as [_ ->].
Qed.

(** Padding a transposed input up to [max_steps] rows: the rows from
    the input's length on are zero, the rows before are its columns. *)
Lemma padded_rows (inp : ndarray2 F) (max_steps : nat) :
  wf2 inp → (shape2 inp).2 ≤ max_steps →
  ∃ padded,
    np_pad_rows zero (transpose inp)
                (Z.of_nat max_steps - Z.of_nat (shape2 inp).2) = Ok padded ∧
    shape2 padded = (max_steps, (shape2 inp).1) ∧
    wf2 padded ∧
    (∀ t f, t < (shape2 inp).2 →
            data2 padded !! t ≫= (λ row, row !! f)
            = data2 inp !! f ≫= (λ row, row !! t)) ∧
    (∀ t f x, (shape2 inp).2 ≤ t →
              data2 padded !! t ≫= (λ row, row !! f) = Some x → x = zero).
Proof.
  intros Hwf Hle. destruct (transpose_wf inp Hwf) as [[Hlen Hrows] Hcols].
  unfold np_pad_rows. rewrite decide_False by lia.
  eexists. split; [done|]. cbn [shape2 data2 fst snd].
  replace (Z.to_nat (Z.of_nat max_steps - Z.of_nat (shape2 inp).2))
    with (max_steps - (shape2 inp).2) by lia.
  change (shape2 (transpose inp)) with ((shape2 inp).2, (shape2 inp).1) in *.
  cbn [fst snd] in *. split_and!.
  - f_equal. lia.
  - split; cbn [shape2 data2 fst snd].
    + rewrite length_app, length_replicate. lia.
    + apply Forall_app. split; [done|].
      apply Forall_replicate. by rewrite length_replicate.
  - intros t f Ht. rewrite lookup_app_l by lia. by apply Hcols.
  - intros t f x Ht. rewrite lookup_app_r by lia.
    destruct (replicate _ _ !! _) as [row|] eqn:E; [|done].
    apply lookup_replicate in E as [-> _]. simpl.
    intros [-> _]%lookup_replicate. done.
Qed.

Lemma broadcast_axis_same {A} (n : nat) (l : list A) :
  broadcast_axis n n l = Ok l.
Proof. unfold broadcast_axis. by rewrite decide_True. Qed.

Lemma broadcast_rows (n : nat) (rows init : list (list F)) :
  for_each rows init (λ done row, row ← broadcast_axis n n row; Ok (done ++ [row]))
  = Ok (init ++ rows).
Proof.
  unfold for_each. revert init.
  induction rows as [|row rows IH]; intros init.
  - simpl. by rewrite app_nil_r.
  - cbn [foldl]. cbn [mbind result_bind].
    rewrite broadcast_axis_same. cbn [mbind result_bind].
    rewrite IH. by rewrite <- app_assoc.
Qed.

(** [a[:, j, :] = src] for a source of the shape of the slice: column
    [j] is replaced by the source, the rest stays. *)
Lemma setitem_col_spec (a : ndarray3 F) (j : nat) (src : ndarray2 F) :
  wf3 a → wf2 src →
  shape2 src = ((shape3 a).1.1, (shape3 a).2) →
  j < (shape3 a).1.2 →
  ∃ a', setitem_col a j src = Ok a' ∧
        shape3 a' = shape3 a ∧
        wf3 a' ∧
        ∀ t b f, get3 a' t b f
                 = if decide (b = j) then data2 src !! t ≫= (λ row, row !! f)
                   else get3 a t b f.
Proof.
  intros [Hlen Hplanes] [Hslen Hsrows] Hshape Hj.
  rewrite Hshape in Hslen, Hsrows. cbn [fst snd] in Hslen, Hsrows.
  unfold setitem_col. rewrite decide_False by lia.
  rewrite Hshape. cbn [fst snd].
  rewrite broadcast_axis_same.
  cbn [mbind result_bind]. rewrite broadcast_rows. cbn [mbind result_bind app].
  eexists. split; [done|]. cbn [shape3 data3]. split_and!.
  - done.
  - split; cbn [shape3 data3].
    + rewrite length_zip_with_l_eq; [done|]. by rewrite Hlen.
    + apply Forall_lookup. intros t plane' Hplane'.
      apply lookup_zip_with_Some in Hplane' as (plane & row & -> & Hp & Hr).
      apply (Forall_lookup_1 _ _ _ _ Hplanes) in Hp as [Hpl Hprows].
      apply (Forall_lookup_1 _ _ _ _ Hsrows) in Hr.
      split; [by rewrite length_insert|]. by apply Forall_insert.
  - intros t b f. unfold get3. cbn [data3].
    rewrite lookup_zip_with.
    destruct (data3 a !! t) as [plane|] eqn:Hp; cbn [mbind option_bind].
    + destruct (data2 src !! t) as [row|] eqn:Hr; cbn [mbind option_bind].
      * apply (Forall_lookup_1 _ _ _ _ Hplanes) in Hp as [Hpl _].
        rewrite list_lookup_insert. case_decide as Hb.
        -- destruct Hb as [-> _]. by rewrite decide_True.
        -- rewrite decide_False; [done|]. intros ->. apply Hb. split; [done|lia].
      * apply lookup_lt_Some in Hp. apply lookup_ge_None in Hr. lia.
    + case_decide; [|done].
      apply lookup_ge_None in Hp.
      rewrite (proj2 (lookup_ge_None (data2 src) t)); [done|lia].
Qed.

Lemma np_zeros3_wf (shape : nat * nat * nat) :
  wf3 (np_zeros3 zero shape) ∧
  ∀ t b f x, get3 (np_zeros3 zero shape) t b f = Some x → x = zero.
Proof.
  unfold np_zeros3. split.
  - split; cbn [shape3 data3].
    + by rewrite length_replicate.
    + apply Forall_replicate. split; [by rewrite length_replicate|].
      apply Forall_replicate. by rewrite length_replicate.
  - intros t b f x. unfold get3. cbn [data3].
    destruct (replicate _ _ !! t) as [plane|] eqn:Hp; [|done].
    apply lookup_replicate in Hp as [-> _]. cbn [mbind option_bind].
    destruct (replicate _ _ !! b) as [row|] eqn:Hr; [|done].
    apply lookup_replicate in Hr as [-> _]. cbn [mbind option_bind].
    by intros [-> _]%lookup_replicate.
Qed.

Section rounds.
Context (input_list : list (ndarray2 F)) (target_list : list (list Z)).
Context (size n_features max_steps : nat).
Hypothesis Hinputs :
  Forall (λ inp, wf2 inp ∧ (shape2 inp).1 = n_features) input_list.

Lemma items_lookup i x :
  batch_items_of size (length input_list) !! i = Some x →
  x = (i, i) ∧ i < size ∧ i < length input_list.
Proof.
  unfold batch_items_of. rewrite list_lookup_fmap.
  destruct (seq _ _ !! i) as [j|] eqn:E; [|done].
  apply lookup_seq in E as [-> ?]. intros [= <-]. split; [done|lia].
Qed.

Lemma items_length :
  length (batch_items_of size (length input_list)) = size `min` length input_list.
Proof. unfold batch_items_of. by rewrite length_fmap, length_seq. Qed.

Lemma length_step_progress i lens :
  lengths_inv input_list size i lens → i < size → i < length input_list →
  ∃ lens', length_step input_list lens (i, i) = Ok lens'.
Proof.
  intros [Hlen _] Hi Hn. unfold length_step, getitem, setitem1. cbn [fst snd].
  destruct (lookup_lt_is_Some_2 input_list i Hn) as [inp ->].
  cbn [mbind result_bind]. rewrite decide_False by lia. by eexists.
Qed.

Lemma length_step_preserves i lens lens' :
  lengths_inv input_list size i lens → i < size →
  length_step input_list lens (i, i) = Ok lens' →
  lengths_inv input_list size (S i) lens'.
Proof.
  intros [Hlen Hset] Hi. unfold length_step, getitem, setitem1. cbn [fst snd].
  destruct (input_list !! i) as [inp|] eqn:Hinp; [|done].
  cbn [mbind result_bind]. case_decide; [done|]. intros [= <-]. split.
  - by rewrite length_insert.
  - intros b Hb. destruct (decide (b = i)) as [->|Hne].
    + rewrite list_lookup_insert_eq by lia. by rewrite Hinp.
    + rewrite list_lookup_insert_ne by done. apply Hset. lia.
Qed.

Lemma pad_step_progress i st inp :
  inputs_inv zero input_list target_list size n_features max_steps i st → i < size →
  input_list !! i = Some inp → (shape2 inp).2 ≤ max_steps →
  i < length target_list →
  ∃ st', pad_step zero input_list target_list (Z.of_nat max_steps) st (i, i) = Ok st'.
Proof.
  intros (Hshape & Hwf & _) Hi Hinp Hle Htl.
  destruct (Forall_lookup_1 _ _ _ _ Hinputs Hinp) as [Hwfi Hnf].
  unfold pad_step, getitem. cbn [fst snd]. rewrite Hinp.
  cbn [mbind result_bind].
  destruct (padded_rows inp max_steps Hwfi Hle)
    as (padded & -> & Hps & Hpwf & _).
  cbn [mbind result_bind].
  destruct (setitem_col_spec st.1 i padded) as (a' & -> & _);
    [done|done|by rewrite Hps, Hshape, Hnf|by rewrite Hshape|].
  cbn [mbind result_bind].
  destruct (lookup_lt_is_Some_2 target_list i Htl) as [target ->].
  by eexists.
Qed.

Lemma pad_step_preserves i st st' :
  inputs_inv zero input_list target_list size n_features max_steps i st → i < size →
  pad_step zero input_list target_list (Z.of_nat max_steps) st (i, i) = Ok st' →
  inputs_inv zero input_list target_list size n_features max_steps (S i) st'.
Proof.
  intros (Hshape & Hwf & Htake & Hzero & Hdata) Hi.
  unfold pad_step, getitem. cbn [fst snd].
  destruct (input_list !! i) as [inp|] eqn:Hinp; [|done].
  destruct (Forall_lookup_1 _ _ _ _ Hinputs Hinp) as [Hwfi Hnf].
  cbn [mbind result_bind].
  destruct (decide ((shape2 inp).2 ≤ max_steps)) as [Hle|Hgt]; last first.
  { unfold np_pad_rows. rewrite decide_True by lia. done. }
  destruct (padded_rows inp max_steps Hwfi Hle)
    as (padded & -> & Hps & Hpwf & Hcols & Hpad).
  cbn [mbind result_bind].
  destruct (setitem_col_spec st.1 i padded) as (a' & -> & Hs' & Hwf' & Hget);
    [done|done|by rewrite Hps, Hshape, Hnf|by rewrite Hshape|].
  cbn [mbind result_bind].
  destruct (target_list !! i) as [target|] eqn:Htarget; [|done].
  intros [= <-]. unfold inputs_inv.
  cbn [fst snd]. split_and!.
  - by rewrite Hs'.
  - done.
  - rewrite Htake. symmetry. by apply take_S_r.
  - intros t b f x. rewrite Hget. case_decide as Hb.
    + subst b. intros Hx.
      destruct (decide (t < (shape2 inp).2)) as [Ht|Ht].
      * right. exists inp. split_and!; [lia|done|done].
      * left. apply (Hpad t f x); [lia|done].
    + intros Hx. destruct (Hzero t b f x Hx) as [->|(inp' & ? & ? & ?)].
      * by left.
      * right. exists inp'. split_and!; [lia|done|done].
  - intros t b f inp' Hb Hinp' Ht. rewrite Hget. case_decide as Hbi.
    + subst b. rewrite Hinp in Hinp'. injection Hinp' as <-. by apply Hcols.
    + apply Hdata; [lia|done|done].
Qed.
End rounds.

Lemma data_lists_to_batch_eq {Tok} (self : t Tok)
    (input_list : list (ndarray2 F)) (target_list : list (list Z)) :
  data_lists_to_batch zero one self input_list target_list
  = (_ ← py_assert (bool_decide (length input_list = length target_list));
     inp0 ← getitem input_list 0;
     let items := batch_items_of (size self) (length input_list) in
     let max_steps := max_steps_of self input_list in
     batch_seq_lengths ←
       for_each items (replicate (size self) 0) (length_step input_list);
     batch_inputs ←
       (if decide (max_steps < 0)%Z
        then Raise (ValueError "negative dimensions are not allowed")
        else Ok (np_zeros3 zero (Z.to_nat max_steps, size self, (shape2 inp0).1)));
     st ← for_each items (batch_inputs, [])
                   (pad_step zero input_list target_list max_steps);
     target_data ← encode_targets zero one self target_list st.2;
     Ok (st.1, target_data, batch_seq_lengths)).
Proof. rewrite <- batch_items. reflexivity. Qed.

Section whole_loops.
Context (input_list : list (ndarray2 F)) (target_list : list (list Z)).
Context (size n_features max_steps : nat).
Hypothesis Hinputs :
  Forall (λ inp, wf2 inp ∧ (shape2 inp).1 = n_features) input_list.

Lemma length_loop_returns :
  ∃ lens,
    for_each (batch_items_of size (length input_list)) (replicate size 0)
             (length_step input_list) = Ok lens ∧
    lengths_inv input_list size
                (length (batch_items_of size (length input_list))) lens.
Proof.
  apply for_each_ind.
  - split; [by rewrite length_replicate|]. intros b Hb. lia.
  - intros i x lens Hx Hinv.
    apply items_lookup in Hx as (-> & Hi & Hn).
    destruct (length_step_progress input_list size i lens) as [lens' Hl];
      [done..|].
    exists lens'. split; [done|].
    by apply (length_step_preserves input_list size i lens).
Qed.

Lemma inputs_inv_zeros :
  inputs_inv zero input_list target_list size n_features max_steps 0
             (np_zeros3 zero (max_steps, size, n_features), []).
Proof.
  destruct (np_zeros3_wf (max_steps, size, n_features)) as [Hwf Hz].
  unfold inputs_inv. cbn [fst snd]. split_and!; try done.
  - intros t b f x Hx. left. by apply (Hz t b f).
  - intros t b f inp Hb. lia.
Qed.

Lemma pad_loop_inv st :
  for_each (batch_items_of size (length input_list))
           (np_zeros3 zero (max_steps, size, n_features), [])
           (pad_step zero input_list target_list (Z.of_nat max_steps)) = Ok st →
  inputs_inv zero input_list target_list size n_features max_steps
             (length (batch_items_of size (length input_list))) st.
Proof.
  apply for_each_inv.
  - apply inputs_inv_zeros.
  - intros i x st0 st1 Hx Hinv.
    apply items_lookup in Hx as (-> & Hi & Hn).
    by apply pad_step_preserves.
Qed.

Lemma pad_loop_returns :
  Forall (λ inp, (shape2 inp).2 ≤ max_steps) input_list →
  length input_list ≤ length target_list →
  ∃ st, for_each (batch_items_of size (length input_list))
                 (np_zeros3 zero (max_steps, size, n_features), [])
                 (pad_step zero input_list target_list (Z.of_nat max_steps)) = Ok st.
Proof.
  intros Hcap Htl.
  destruct (for_each_ind
              (inputs_inv zero input_list target_list size n_features max_steps)
              (pad_step zero input_list target_list (Z.of_nat max_steps))
              (batch_items_of size (length input_list))
              (np_zeros3 zero (max_steps, size, n_features), []))
    as (st & Hst & _); [| |by exists st].
  - apply inputs_inv_zeros.
  - intros i x st Hx Hinv.
    apply items_lookup in Hx as (-> & Hi & Hn).
    destruct (lookup_lt_is_Some_2 input_list i Hn) as [inp Hinp].
    destruct (pad_step_progress input_list target_list size n_features
                max_steps Hinputs i st inp) as [st' Hst']; [done..| | |].
    + by apply (Forall_lookup_1 _ _ _ _ Hcap Hinp).
    + lia.
    + exists st'. split; [done|]. by eapply pad_step_preserves.
Qed.
End whole_loops.

Lemma max_steps_of_nat {Tok} (self : t Tok) (input_list : list (ndarray2 F)) :
  (0 ≤ max_steps_of self input_list)%Z →
  max_steps_of self input_list = Z.of_nat (expected_max_steps self input_list) ∧
  Z.to_nat (max_steps_of self input_list) = expected_max_steps self input_list.
Proof.
  unfold max_steps_of, expected_max_steps.
  destruct (max_time self) as [m|]; [lia|].
  rewrite foldl_max_with. intros _. split; lia.
Qed.

(** C5: a batch assembled from exactly [size] well-formed inputs with
    [n_features] rows each has inputs of shape (max_steps, size,
    n_features), where max_steps is the cap when one is set and the
    longest input otherwise; the sequence lengths are the lengths of the
    inputs; every entry at a time position from the sequence length on
    is zero, and the entries before are those of the input. The batch
    is assembled whenever the batch is not empty, there are as many
    targets as inputs, no input is longer than the cap and the targets
    can be encoded. *)
Theorem batch_inputs_shape_and_padding {Tok} (self : t Tok)
    (input_list : list (ndarray2 F)) (target_list : list (list Z))
    (n_features : nat) :
  length input_list = size self →
  Forall (λ inp, wf2 inp ∧ (shape2 inp).1 = n_features) input_list →
  (∀ inputs target_data sequence_lengths,
     data_lists_to_batch zero one self input_list target_list
     = Ok (inputs, target_data, sequence_lengths) →
     shape3 inputs = (expected_max_steps self input_list, size self, n_features) ∧
     wf3 inputs ∧
     sequence_lengths = (λ inp, (shape2 inp).2) <$> input_list ∧
     (∀ b len t f x,
        sequence_lengths !! b = Some len → len ≤ t →
        get3 inputs t b f = Some x → x = zero) ∧
     (∀ b inp t f,
        input_list !! b = Some inp → t < (shape2 inp).2 →
        get3 inputs t b f = data2 inp !! f ≫= (λ row, row !! t))) ∧
  (0 < size self →
   length target_list = size self →
   (∀ m, max_time self = Some m →
         Forall (λ inp, (Z.of_nat (shape2 inp).2 ≤ m)%Z) input_list) →
   ∀ target_data,
     encode_targets zero one self target_list target_list = Ok target_data →
     ∃ inputs sequence_lengths,
       data_lists_to_batch zero one self input_list target_list
       = Ok (inputs, target_data, sequence_lengths)).
Proof.
  intros Hsize Hinputs.
  assert (length (batch_items_of (size self) (length input_list)) = size self)
    as Hitems by (rewrite items_length; lia).
  split.
  - intros inputs target_data sequence_lengths.
    rewrite data_lists_to_batch_eq.
    destruct (py_assert _); [|done]. cbn [mbind result_bind].
    unfold getitem at 1.
    destruct (input_list !! 0) as [inp0|] eqn:Hinp0; [|done].
    cbn [mbind result_bind]. cbv zeta.
    destruct (Forall_lookup_1 _ _ _ _ Hinputs Hinp0) as [_ Hnf0].
    destruct (for_each _ _ (length_step input_list)) as [lens|] eqn:Hlens; [|done].
    cbn [mbind result_bind].
    case_decide as Hneg; [done|]. cbn [mbind result_bind].
    destruct (max_steps_of_nat self input_list) as [HZ Hnat]; [lia|].
    rewrite Hnat, Hnf0, HZ.
    destruct (for_each _ _ (pad_step _ _ _ _)) as [st|] eqn:Hst; [|done].
    cbn [mbind result_bind].
    destruct (encode_targets _ _ _ _ _); [|done]. cbn [mbind result_bind].
    intros [= <- _ <-].
    apply (pad_loop_inv _ _ _ _ _ Hinputs) in Hst.
    rewrite Hitems in Hst. destruct Hst as (Hshape & Hwf & _ & Hzero & Hdata).
    apply (for_each_inv (lengths_inv input_list (size self))) in Hlens.
    2:{ split; [by rewrite length_replicate|]. intros b Hb. lia. }
    2:{ intros i x l l' Hx Hinv.
        apply items_lookup in Hx as (-> & Hi & Hn).
        by apply length_step_preserves. }
    rewrite Hitems in Hlens. destruct Hlens as [Hlen Hset].
    assert (lens = (λ inp, (shape2 inp).2) <$> input_list) as ->.
    { apply list_eq. intros b. rewrite list_lookup_fmap.
      destruct (decide (b < size self)) as [Hb|Hb]; [by apply Hset|].
      rewrite (proj2 (lookup_ge_None lens b)) by lia.
      by rewrite (proj2 (lookup_ge_None input_list b)) by lia. }
    split_and!; [done..| |].
    + intros b len t f x Hb Ht Hx. rewrite list_lookup_fmap in Hb.
      destruct (input_list !! b) as [inp|] eqn:Hinp; [|done].
      injection Hb as <-.
      destruct (Hzero t b f x Hx) as [->|(inp' & _ & Hinp' & Ht')]; [done|].
      rewrite Hinp in Hinp'. injection Hinp' as <-. lia.
    + intros b inp t f Hinp Ht. apply Hdata; [|done..].
      apply lookup_lt_Some in Hinp. lia.
  - intros Hpos Htl Hcap target_data Htargets.
    rewrite data_lists_to_batch_eq.
    unfold py_assert. rewrite bool_decide_eq_true_2 by lia.
    cbn [mbind result_bind]. unfold getitem at 1.
    destruct (lookup_lt_is_Some_2 input_list 0) as [inp0 Hinp0]; [lia|].
    rewrite Hinp0. cbn [mbind result_bind]. cbv zeta.
    destruct (Forall_lookup_1 _ _ _ _ Hinputs Hinp0) as [_ Hnf0].
    destruct (length_loop_returns input_list (size self)) as (lens & -> & _).
    cbn [mbind result_bind].
    assert (0 ≤ max_steps_of self input_list)%Z as Hnonneg.
    { unfold max_steps_of. destruct (max_time self) as [m|] eqn:Hm; [|lia].
      specialize (Hcap m eq_refl).
      apply (Forall_lookup_1 _ _ _ _ Hcap) in Hinp0. lia. }
    rewrite decide_False by lia. cbn [mbind result_bind].
    destruct (max_steps_of_nat self input_list Hnonneg) as [HZ Hnat].
    rewrite Hnat, Hnf0, HZ.
    destruct (pad_loop_returns input_list target_list (size self) n_features
                (expected_max_steps self input_list) Hinputs) as [st Hst].
    { unfold expected_max_steps. destruct (max_time self) as [m|] eqn:Hm.
      - eapply Forall_impl; [exact (Hcap m eq_refl)|]. intros inp Hle.
        simpl in Hle. lia.
      - apply Forall_forall. intros inp Hin.
        by apply (max_list_with_le (λ inp, (shape2 inp).2)). }
    { lia. }
    rewrite Hst. cbn [mbind result_bind].
    apply (pad_loop_inv _ _ _ _ _ Hinputs) in Hst.
    rewrite Hitems in Hst. destruct Hst as (_ & _ & -> & _).
    rewrite take_ge by lia. rewrite Htargets. cbn [mbind result_bind].
    by eexists _, _.
Qed.
End batch_assembly.

(** The theorem at a batch of two utterances of lengths 5 and 3 with two
    features each and no cap: the inputs have 5 time steps and rows 3 and
    4 of the second utterance are zero. *)
Lemma batch_inputs_shape_and_padding_witness :
  let self := BatchDispenser.Build (Tok:=ascii) 3 [] ∅ 2 None false in
  let input_list := [Array2 (2, 5) [[1; 2; 3; 4; 5]; [6; 7; 8; 9; 10]]%Z;
                     Array2 (2, 3) [[11; 12; 13]; [14; 15; 16]]%Z] in
  let target_list := [[1; 0]%Z; [2]%Z] in
  length input_list = BatchDispenser.size self ∧
  Forall (λ inp, wf2 inp ∧ (shape2 inp).1 = 2) input_list ∧
  ∃ inputs target_data sequence_lengths,
    BatchDispenser.data_lists_to_batch 0%Z 1%Z self input_list target_list
    = Ok (inputs, target_data, sequence_lengths) ∧
    shape3 inputs = (5, 2, 2) ∧
    sequence_lengths = [5; 3] ∧
    ∀ b len t f x,
      sequence_lengths !! b = Some len → len ≤ t →
      get3 inputs t b f = Some x → x = 0%Z.
Proof.
  intros self input_list target_list.
  assert (length input_list = BatchDispenser.size self) as Hlen by reflexivity.
  assert (Forall (λ inp, wf2 inp ∧ (shape2 inp).1 = 2) input_list) as Hwf.
  { unfold wf2. repeat (constructor || split). }
  split; [exact Hlen|]. split; [exact Hwf|].
  destruct (batch_inputs_shape_and_padding 0%Z 1%Z self input_list target_list 2
              Hlen Hwf) as [Hassembled Hreturns].
  destruct (Hreturns ltac:(simpl; lia) eq_refl
              ltac:(intros m Hm; discriminate Hm)
              (BatchDispenser.Sparse ([[0; 0]; [1; 0]], [1; 2]%Z, [2; 2])) eq_refl)
    as (inputs & sequence_lengths & Hbatch).
  destruct (Hassembled inputs _ sequence_lengths Hbatch)
    as (Hshape & _ & Hlens & Hzero & _).
  exists inputs, (BatchDispenser.Sparse ([[0; 0]; [1; 0]], [1; 2]%Z, [2; 2])),
         sequence_lengths.
  split; [exact Hbatch|]. split; [exact Hshape|]. split; [exact Hlens|].
  exact Hzero.
Defined.

(** ** Dense and sparse matrices *)

(** A loop either returns, keeping an invariant, or raises the one
    exception its rounds can raise. *)
Lemma for_each_cases {A St} (P : nat → St → Prop) (body : St → A → result St)
    (items : list A) (init : St) (e : exn) :
  P 0 init →
  (∀ i x st, items !! i = Some x → P i st →
             (∃ st', body st x = Ok st' ∧ P (S i) st') ∨ body st x = Raise e) →
  (∃ st, for_each items init body = Ok st ∧ P (length items) st) ∨
  for_each items init body = Raise e.
Proof.
  induction items as [|x items IH] using rev_ind; intros H0 Hstep.
  - left. by exists init.
  - rewrite for_each_snoc. destruct IH as [(st & -> & HP) | ->]; [done| | |by right].
    { intros i y st' Hy. apply Hstep. by apply lookup_app_l_Some. }
    cbn [mbind result_bind].
    destruct (Hstep (length items) x st) as [(st' & -> & HP')| ->];
      [by rewrite lookup_app_r, Nat.sub_diag|done| |by right].
    left. exists st'. rewrite length_app. simpl. by rewrite Nat.add_1_r.
Qed.

Lemma enumerate_lookup {A} (l : list A) (i : nat) (p : nat * A) :
  enumerate l !! i = Some p ↔ p.1 = i ∧ l !! i = Some p.2.
Proof.
  unfold enumerate. rewrite list_lookup_imap. destruct p as [j x]. simpl.
  destruct (l !! i) as [y|]; simpl.
  - split; [by intros [= <- <-]|by intros [<- [= <-]]].
  - split; [done|by intros [_ ?]].
Qed.

Lemma enumerate_length {A} (l : list A) : length (enumerate l) = length l.
Proof. unfold enumerate. apply length_imap. Qed.

Section dense_sparse.
Context {F : Type} `{!EqDecision F} (zero : F).

Lemma np_zeros2_wf (shape : nat * nat) :
  wf2 (np_zeros2 zero shape) ∧
  ∀ r c, r < shape.1 → c < shape.2 → get2 (np_zeros2 zero shape) r c = Some zero.
Proof.
  unfold np_zeros2, wf2, get2. cbn [shape2 data2]. split_and!.
  - by rewrite length_replicate.
  - apply Forall_replicate. by rewrite length_replicate.
  - intros r c Hr Hc. rewrite lookup_replicate_2 by done. simpl.
    by rewrite lookup_replicate_2.
Qed.

Lemma get2_is_Some (a : ndarray2 F) r c :
  wf2 a → r < (shape2 a).1 → c < (shape2 a).2 → is_Some (get2 a r c).
Proof.
  intros [Hlen Hrows] Hr Hc. unfold get2.
  destruct (lookup_lt_is_Some_2 (data2 a) r) as [row Hrow]; [lia|].
  rewrite Hrow. simpl. apply lookup_lt_is_Some.
  by rewrite (Forall_lookup_1 _ _ _ _ Hrows Hrow).
Qed.

(** Two arrays of one shape with the same entries are the same array. *)
Lemma ndarray2_ext (a b : ndarray2 F) :
  wf2 a → wf2 b → shape2 a = shape2 b →
  (∀ r c, r < (shape2 a).1 → c < (shape2 a).2 → get2 a r c = get2 b r c) →
  a = b.
Proof.
  destruct a as [sa da], b as [sb db]. unfold wf2, get2. cbn [shape2 data2].
  intros [Hla Hra] [Hlb Hrb] <- Hget. f_equal.
  apply list_eq. intros r.
  destruct (decide (r < sa.1)) as [Hr|Hr]; last first.
  { rewrite !(proj2 (lookup_ge_None _ _)); [done|lia..]. }
  destruct (lookup_lt_is_Some_2 da r) as [ra Hrowa]; [lia|].
  destruct (lookup_lt_is_Some_2 db r) as [rb Hrowb]; [lia|].
  rewrite Hrowa, Hrowb. f_equal.
  pose proof (Forall_lookup_1 _ _ _ _ Hra Hrowa) as Hlena.
  pose proof (Forall_lookup_1 _ _ _ _ Hrb Hrowb) as Hlenb. simpl in *.
  apply list_eq. intros c.
  destruct (decide (c < sa.2)) as [Hc|Hc]; last first.
  { rewrite !(proj2 (lookup_ge_None _ _)); [done|lia..]. }
  specialize (Hget r c Hr Hc). by rewrite Hrowa, Hrowb in Hget.
Qed.

Lemma setitem2_spec (a : ndarray2 F) (i j : nat) (v : F) :
  wf2 a → i < (shape2 a).1 → j < (shape2 a).2 →
  ∃ a', setitem2 a i j v = Ok a' ∧ shape2 a' = shape2 a ∧ wf2 a' ∧
        ∀ r c, get2 a' r c = if decide (r = i ∧ c = j) then Some v else get2 a r c.
Proof.
  intros [Hlen Hrows] Hi Hj. unfold setitem2.
  rewrite !decide_False by lia. eexists. split; [done|].
  unfold wf2, get2. cbn [shape2 data2]. split_and!.
  - done.
  - by rewrite length_alter.
  - apply Forall_alter; [done|]. intros row _ Hrow. by rewrite length_insert.
  - intros r c. rewrite list_lookup_alter.
    destruct (lookup_lt_is_Some_2 (data2 a) i) as [row Hrow]; [lia|].
    pose proof (Forall_lookup_1 _ _ _ _ Hrows Hrow) as Hrlen. simpl in Hrlen.
    destruct (decide (i = r)) as [<-|Hne].
    + rewrite Hrow. simpl. rewrite list_lookup_insert.
      destruct (decide (c = j)) as [->|Hc].
      * rewrite (decide_True (P:=j = j ∧ j < length row)) by (split; [done|lia]).
        by rewrite decide_True.
      * rewrite (decide_False (P:=j = c ∧ j < length row)) by (intros [? _]; done).
        rewrite decide_False; [done|]. by intros [_ ?].
    + rewrite decide_False; [done|]. by intros [? _].
Qed.

Lemma setitem2_Ok (a a' : ndarray2 F) (i j : nat) (v : F) :
  setitem2 a i j v = Ok a' → i < (shape2 a).1 ∧ j < (shape2 a).2.
Proof. unfold setitem2. repeat case_decide; [done..|]. intros _. lia. Qed.

Lemma setitem2_raises (a : ndarray2 F) (i j : nat) (v : F) :
  (∃ a', setitem2 a i j v = Ok a') ∨ setitem2 a i j v = Raise IndexError.
Proof. unfold setitem2. repeat case_decide; eauto. Qed.

Lemma last_write_snoc (entries : list (list nat * F)) e row col :
  last_write zero (entries ++ [e]) row col
  = if decide (e.1 !! 0 = Some row ∧ e.1 !! 1 = Some col) then e.2
    else last_write zero entries row col.
Proof. unfold last_write. by rewrite foldl_snoc. Qed.

Lemma index_in_lookup shape index :
  index_in shape index ↔
  ∃ row col, index !! 0 = Some row ∧ index !! 1 = Some col ∧
             row < shape.1 ∧ col < shape.2.
Proof.
  unfold index_in. destruct index as [|row [|col rest]]; simpl.
  - split; [done|]. by intros (? & ? & ? & _).
  - split; [done|]. by intros (? & ? & _ & ? & _).
  - split.
    + intros [? ?]. by exists row, col.
    + by intros (? & ? & [= <-] & [= <-] & ? & ?).
Qed.

(** The state of [sparse_to_dense] after [k] rounds. *)
Lemma sparse_write_cases indices values shape k index (dense : ndarray2 F) :
  indices !! k = Some index →
  shape2 dense = shape → wf2 dense →
  (∀ r c, r < shape.1 → c < shape.2 →
          get2 dense r c = Some (last_write zero (take k (zip indices values)) r c)) →
  (k < length values ∧ index_in shape index ∧
   ∃ dense', sparse_write values dense (k, index) = Ok dense' ∧
             shape2 dense' = shape ∧ wf2 dense' ∧
             ∀ r c, r < shape.1 → c < shape.2 →
                    get2 dense' r c
                    = Some (last_write zero (take (S k) (zip indices values)) r c)) ∨
  (¬ (k < length values ∧ index_in shape index) ∧
   sparse_write values dense (k, index) = Raise IndexError).
Proof.
  intros Hindex Hshape Hwf Hget. unfold sparse_write, getitem. cbn [fst snd].
  destruct (values !! k) as [v|] eqn:Hv; cbn [mbind result_bind]; last first.
  { right. split; [|done]. apply lookup_ge_None in Hv. lia. }
  destruct (index !! 0) as [row|] eqn:Hrow; cbn [mbind result_bind]; last first.
  { right. split; [|done]. rewrite index_in_lookup.
    intros [_ (? & ? & ? & _)]. congruence. }
  destruct (index !! 1) as [col|] eqn:Hcol; cbn [mbind result_bind]; last first.
  { right. split; [|done]. rewrite index_in_lookup.
    intros [_ (? & ? & _ & ? & _)]. congruence. }
  destruct (decide (row < shape.1 ∧ col < shape.2)) as [[Hr Hc]|Hout]; last first.
  { right. split.
    - rewrite index_in_lookup. intros [_ (? & ? & ? & ? & ? & ?)].
      apply Hout. split; congruence.
    - destruct (setitem2_raises dense row col v) as [[d' Hd']|Hd']; [|done].
      apply setitem2_Ok in Hd'. rewrite Hshape in Hd'. tauto. }
  left. split; [by apply lookup_lt_Some in Hv|]. split.
  { apply index_in_lookup. by exists row, col. }
  destruct (setitem2_spec dense row col v) as (d' & -> & Hs' & Hwf' & Hget');
    [done|by rewrite Hshape..|].
  exists d'. split; [done|]. split; [congruence|]. split; [done|].
  intros r c Hr' Hc'. rewrite Hget'.
  assert (zip indices values !! k = Some (index, v)) as Hzip.
  { by rewrite lookup_zip_with, Hindex, Hv. }
  rewrite (take_S_r _ _ _ Hzip), last_write_snoc. cbn [fst snd].
  rewrite Hrow, Hcol.
  destruct (decide (r = row ∧ c = col)) as [[-> ->]|Hne].
  - by rewrite decide_True.
  - rewrite decide_False; [by apply Hget|].
    intros [[= ->] [= ->]]. by apply Hne.
Qed.

Lemma sparse_inv_zeros indices values shape :
  sparse_inv zero indices values shape 0 (np_zeros2 zero shape).
Proof.
  destruct (np_zeros2_wf shape) as [Hwf0 Hget0].
  unfold sparse_inv. split_and!; [lia|by rewrite take_0|done|done|done].
Qed.

Lemma sparse_inv_step indices values shape k index dense dense' :
  indices !! k = Some index →
  sparse_inv zero indices values shape k dense →
  k < length values → index_in shape index →
  shape2 dense' = shape → wf2 dense' →
  (∀ r c, r < shape.1 → c < shape.2 →
          get2 dense' r c
          = Some (last_write zero (take (S k) (zip indices values)) r c)) →
  sparse_inv zero indices values shape (S k) dense'.
Proof.
  intros Hindex (Hk & Hall & _) Hlt Hin Hs' Hwf' Hget'.
  unfold sparse_inv. split_and!; [lia| |done..].
  rewrite (take_S_r _ _ _ Hindex). apply Forall_app. split; [done|].
  by constructor.
Qed.

(** The loop of [sparse_to_dense] returns or raises [IndexError]. *)
Lemma sparse_to_dense_loop indices values shape :
  (∃ dense, sparse_to_dense zero indices values shape = Ok dense ∧
            sparse_inv zero indices values shape (length indices) dense) ∨
  sparse_to_dense zero indices values shape = Raise IndexError.
Proof.
  unfold sparse_to_dense. rewrite <- (enumerate_length indices).
  apply for_each_cases; [apply sparse_inv_zeros|].
  intros k [k' index] dense Hx Hinv.
  apply enumerate_lookup in Hx as [Hk' Hindex]. simpl in Hk', Hindex. subst k'.
  pose proof Hinv as (Hk & Hall & Hs & Hwf & Hget).
  destruct (sparse_write_cases indices values shape k index dense Hindex Hs Hwf Hget)
    as [(Hlt & Hin & d' & Hd' & Hs' & Hwf' & Hget')|[_ Hraise]]; [|by right].
  left. exists d'. split; [done|]. by eapply sparse_inv_step.
Qed.

Lemma sparse_to_dense_returns indices values shape :
  length indices ≤ length values → Forall (index_in shape) indices →
  ∃ dense, sparse_to_dense zero indices values shape = Ok dense ∧
           shape2 dense = shape ∧ wf2 dense ∧
           ∀ r c, r < shape.1 → c < shape.2 →
                  get2 dense r c = Some (last_write zero (zip indices values) r c).
Proof.
  intros Hlen Hall. unfold sparse_to_dense.
  destruct (for_each_ind (sparse_inv zero indices values shape)
              (sparse_write values) (enumerate indices) (np_zeros2 zero shape))
    as (dense & Hdense & HP); [apply sparse_inv_zeros| |].
  - intros k [k' index] dense Hx Hinv.
    apply enumerate_lookup in Hx as [Hk' Hindex]. simpl in Hk', Hindex. subst k'.
    pose proof Hinv as (Hk & HallK & Hs & Hwf & Hget).
    destruct (sparse_write_cases indices values shape k index dense Hindex Hs Hwf Hget)
      as [(Hlt & Hin & d' & Hd' & Hs' & Hwf' & Hget')|[Hnot _]].
    + exists d'. split; [done|]. by eapply sparse_inv_step.
    + exfalso. apply Hnot. split.
      * apply lookup_lt_Some in Hindex. lia.
      * by apply (Forall_lookup_1 _ _ _ _ Hall Hindex).
  - rewrite enumerate_length in HP. destruct HP as (_ & _ & Hs & Hwf & Hget).
    exists dense. split_and!; try done.
    intros r c Hr Hc. rewrite (Hget r c Hr Hc). do 2 f_equal.
    apply take_ge. rewrite length_zip_with. lia.
Qed.

(** [sparse_to_dense] returns exactly when there is a value for every
    index and every index lies inside the shape; it raises [IndexError]
    otherwise. The matrix returned has the shape asked for and holds, at
    every position, the value of the last index that names it, and zero
    where no index does. *)
Theorem sparse_to_dense_spec (indices : list (list nat)) (values : list F)
    (shape : nat * nat) :
  if decide (length indices ≤ length values ∧ Forall (index_in shape) indices)
  then ∃ dense,
         sparse_to_dense zero indices values shape = Ok dense ∧
         shape2 dense = shape ∧ wf2 dense ∧
         ∀ r c, r < shape.1 → c < shape.2 →
                get2 dense r c = Some (last_write zero (zip indices values) r c)
  else sparse_to_dense zero indices values shape = Raise IndexError.
Proof.
  case_decide as Hcond.
  - destruct Hcond as [Hlen Hall]. by apply sparse_to_dense_returns.
  - destruct (sparse_to_dense_loop indices values shape)
      as [(dense & _ & Hk & Hall & _)|Hraise]; [|done].
    exfalso. apply Hcond. split; [done|].
    by rewrite take_ge in Hall.
Qed.

Lemma range_lookup (n i x : nat) : range 0 n !! i = Some x ↔ x = i ∧ i < n.
Proof. unfold range. rewrite Nat.sub_0_r, lookup_seq. naive_solver. Qed.

Lemma range_length (n : nat) : length (range 0 n) = n.
Proof. unfold range. rewrite length_seq. lia. Qed.

Lemma elem_of_row_entries (row : nat) (r : list F) (p : nat * nat * F) :
  p ∈ row_entries zero row r ↔ p.1.1 = row ∧ r !! p.1.2 = Some p.2 ∧ p.2 ≠ zero.
Proof.
  unfold row_entries. rewrite list_elem_of_bind. split.
  - intros ([col x] & Hp & Hx).
    apply list_elem_of_lookup in Hx as [i Hx].
    apply enumerate_lookup in Hx as [Hi Hx]. simpl in Hi, Hx. subst i.
    case_decide; [|by apply not_elem_of_nil in Hp].
    apply list_elem_of_singleton in Hp as ->. done.
  - destruct p as [[row' col] x]. simpl. intros (-> & Hx & Hne).
    exists (col, x). split.
    + rewrite decide_True by done. by apply list_elem_of_singleton.
    + apply list_elem_of_lookup. exists col. by apply enumerate_lookup.
Qed.

(** An entry is listed exactly when the matrix holds it and it is not
    zero. *)
Lemma elem_of_nonzero_entries (a : ndarray2 F) (p : nat * nat * F) :
  p ∈ nonzero_entries zero a ↔ get2 a p.1.1 p.1.2 = Some p.2 ∧ p.2 ≠ zero.
Proof.
  unfold nonzero_entries, get2. rewrite list_elem_of_bind. split.
  - intros ([row r] & Hp & Hr).
    apply list_elem_of_lookup in Hr as [i Hr].
    apply enumerate_lookup in Hr as [Hi Hr]. simpl in Hi, Hr. subst i.
    apply elem_of_row_entries in Hp as (-> & Hx & Hne).
    rewrite Hr. done.
  - intros [Hget Hne]. destruct (data2 a !! p.1.1) as [r|] eqn:Hr; [|done].
    exists (p.1.1, r). split.
    + by apply elem_of_row_entries.
    + apply list_elem_of_lookup. exists p.1.1. by apply enumerate_lookup.
Qed.

Lemma scan_row (a : ndarray2 F) (row : nat) (r : list F) indices values :
  wf2 a → data2 a !! row = Some r →
  for_each (range 0 (shape2 a).2) (indices, values) (scan_cell zero a row)
  = Ok (indices ++ (entry_index <$> row_entries zero row r),
        values ++ (entry_value <$> row_entries zero row r)).
Proof.
  intros [Hlen Hrows] Hr.
  pose proof (Forall_lookup_1 _ _ _ _ Hrows Hr) as Hrlen. simpl in Hrlen.
  pose proof (lookup_lt_Some _ _ _ Hr) as Hrow.
  pose (g := λ p : nat * F,
          if decide (p.2 ≠ zero) then [(row, p.1, p.2)] else []).
  assert (∀ l, (l ≫= λ '(col, x), if decide (x ≠ zero) then [(row, col, x)] else [])
               = l ≫= g) as Hg.
  { intros l. apply list_bind_ext; [|done]. by intros [col x]. }
  unfold row_entries. rewrite Hg.
  destruct (for_each_ind
    (λ j st, st = (indices ++ (entry_index <$> (take j (enumerate r) ≫= g)),
                   values ++ (entry_value <$> (take j (enumerate r) ≫= g))))
    (scan_cell zero a row) (range 0 (shape2 a).2) (indices, values))
    as (st & -> & ->).
  - simpl. by rewrite !app_nil_r.
  - intros j col st Hcol ->. apply range_lookup in Hcol as [-> Hj].
    destruct (lookup_lt_is_Some_2 r j) as [x Hx]; [lia|].
    unfold scan_cell, getitem2, get2. cbn [fst snd].
    rewrite !decide_False by lia. rewrite Hr. cbn [mbind option_bind].
    rewrite Hx. cbn [mbind result_bind].
    assert (enumerate r !! j = Some (j, x)) as Hjx by by apply enumerate_lookup.
    rewrite (take_S_r _ _ _ Hjx), bind_app, !fmap_app, !app_assoc.
    rewrite bind_singleton.
    change (g (j, x)) with (if decide (x ≠ zero) then [(row, j, x)] else []).
    destruct (decide (x ≠ zero)); eexists; (split; [done|]).
    + done.
    + by rewrite !fmap_nil, !app_nil_r.
  - rewrite range_length, <- Hrlen, <- (enumerate_length r), take_ge by done.
    done.
Qed.

Lemma dense_to_sparse_eq (a : ndarray2 F) :
  wf2 a →
  dense_to_sparse zero a
  = Ok (entry_index <$> nonzero_entries zero a,
        entry_value <$> nonzero_entries zero a, shape2 a).
Proof.
  intros Hwf. pose proof Hwf as [Hlen Hrows].
  pose (G := λ p : nat * list F, row_entries zero p.1 p.2).
  assert (∀ l, (l ≫= λ '(row, r), row_entries zero row r) = l ≫= G) as HG.
  { intros l. apply list_bind_ext; [|done]. by intros [row r]. }
  unfold dense_to_sparse, nonzero_entries. rewrite HG.
  destruct (for_each_ind
    (λ i st, st = (entry_index <$> (take i (enumerate (data2 a)) ≫= G),
                   entry_value <$> (take i (enumerate (data2 a)) ≫= G)))
    (λ st row, for_each (range 0 (shape2 a).2) st (scan_cell zero a row))
    (range 0 (shape2 a).1) ([], [])) as (st & -> & ->).
  - done.
  - intros i row st Hrow ->. apply range_lookup in Hrow as [-> Hi].
    destruct (lookup_lt_is_Some_2 (data2 a) i) as [r Hr]; [lia|].
    rewrite (scan_row a i r _ _ Hwf Hr). eexists. split; [done|].
    assert (enumerate (data2 a) !! i = Some (i, r)) as Hir by by apply enumerate_lookup.
    rewrite (take_S_r _ _ _ Hir), bind_app, !fmap_app.
    by rewrite bind_singleton.
  - cbn [mbind result_bind fst snd].
    rewrite range_length, <- Hlen, <- (enumerate_length (data2 a)), take_ge by done.
    done.
Qed.

Lemma enumerate_snoc {A} (l : list A) (x : A) :
  enumerate (l ++ [x]) = enumerate l ++ [(length l, x)].
Proof.
  unfold enumerate. rewrite imap_app. simpl. by rewrite Nat.add_0_r.
Qed.

Lemma row_entries_snoc (row : nat) (r : list F) (x : F) :
  row_entries zero row (r ++ [x])
  = row_entries zero row r
    ++ (if decide (x ≠ zero) then [(row, length r, x)] else []).
Proof.
  unfold row_entries. by rewrite enumerate_snoc, bind_app, bind_singleton.
Qed.

Lemma row_entries_sorted (row : nat) (r : list F) :
  StronglySorted row_major_lt (row_entries zero row r).
Proof.
  induction r as [|x r IH] using rev_ind; [constructor|].
  rewrite row_entries_snoc. apply StronglySorted_app. split_and!; [|done|].
  - intros p q Hp Hq. apply elem_of_row_entries in Hp as (Hrow & Hcol & _).
    apply lookup_lt_Some in Hcol.
    case_decide; [|by apply not_elem_of_nil in Hq].
    apply list_elem_of_singleton in Hq as ->. right. simpl. split; [done|lia].
  - case_decide; repeat constructor.
Qed.

Lemma nonzero_entries_sorted (a : ndarray2 F) :
  StronglySorted row_major_lt (nonzero_entries zero a).
Proof.
  unfold nonzero_entries. generalize (data2 a) as data. intros data.
  induction data as [|r data IH] using rev_ind; [constructor|].
  rewrite enumerate_snoc, bind_app, bind_singleton.
  apply StronglySorted_app. split_and!; [|done|apply row_entries_sorted].
  intros p q Hp Hq.
  apply list_elem_of_bind in Hp as ([row' r'] & Hp & Hr').
  apply list_elem_of_lookup in Hr' as [i Hr'].
  apply enumerate_lookup in Hr' as [Hi Hr']. simpl in Hi, Hr'. subst i.
  apply lookup_lt_Some in Hr'.
  apply elem_of_row_entries in Hp as (Hp & _).
  apply elem_of_row_entries in Hq as (Hq & _).
  left. lia.
Qed.

(** The positions listed lie inside the shape. *)
Lemma nonzero_entries_in (a : ndarray2 F) :
  wf2 a → Forall (index_in (shape2 a)) (entry_index <$> nonzero_entries zero a).
Proof.
  intros [Hlen Hrows]. apply Forall_fmap, Forall_forall. intros p Hp.
  apply elem_of_nonzero_entries in Hp as [Hget _]. unfold get2 in Hget.
  destruct (data2 a !! p.1.1) as [r|] eqn:Hr; [|done]. simpl in Hget.
  pose proof (Forall_lookup_1 _ _ _ _ Hrows Hr) as Hrlen. simpl in Hrlen.
  apply lookup_lt_Some in Hr, Hget. simpl. lia.
Qed.

(** What the writes leave at a position: zero when no entry names it, the
    value of an entry that names it otherwise. *)
Lemma last_write_cases (entries : list (list nat * F)) (row col : nat) :
  (last_write zero entries row col = zero ∧
   ∀ e, e ∈ entries → ¬ (e.1 !! 0 = Some row ∧ e.1 !! 1 = Some col)) ∨
  (∃ e, e ∈ entries ∧ e.1 !! 0 = Some row ∧ e.1 !! 1 = Some col ∧
        last_write zero entries row col = e.2).
Proof.
  induction entries as [|e entries IH] using rev_ind.
  - left. split; [done|]. intros e He. by apply not_elem_of_nil in He.
  - rewrite last_write_snoc. case_decide as Hname.
    + right. exists e. destruct Hname. split_and!; try done.
      apply elem_of_app. right. by apply list_elem_of_singleton.
    + destruct IH as [[Hz Hno]|(e' & He' & H0 & H1 & Hw)].
      * left. split; [done|]. intros e' He'.
        apply elem_of_app in He' as [He'|He']; [by apply Hno|].
        by apply list_elem_of_singleton in He' as ->.
      * right. exists e'. split_and!; try done.
        apply elem_of_app. by left.
Qed.

Lemma zip_entries (entries : list (nat * nat * F)) :
  zip (entry_index <$> entries) (entry_value <$> entries)
  = (λ p, (entry_index p, entry_value p)) <$> entries.
Proof.
  induction entries as [|p entries IH]; [done|].
  rewrite !fmap_cons. cbn [zip_with]. f_equal. apply IH.
Qed.

(** [dense_to_sparse] lists exactly the entries of the matrix that are
    not zero, each once, in row-major order, and returns the shape of the
    matrix. *)
Theorem dense_to_sparse_lists_nonzero (a : ndarray2 F) :
  wf2 a →
  ∃ entries,
    dense_to_sparse zero a
    = Ok (entry_index <$> entries, entry_value <$> entries, shape2 a) ∧
    (∀ p, p ∈ entries ↔ get2 a p.1.1 p.1.2 = Some p.2 ∧ p.2 ≠ zero) ∧
    StronglySorted row_major_lt entries.
Proof.
  intros Hwf. exists (nonzero_entries zero a). split_and!.
  - by apply dense_to_sparse_eq.
  - apply elem_of_nonzero_entries.
  - apply nonzero_entries_sorted.
Qed.

(** Converting a matrix to its sparse form and back returns the matrix. *)
Theorem sparse_to_dense_of_dense_to_sparse (a : ndarray2 F) :
  wf2 a →
  ∃ indices values,
    dense_to_sparse zero a = Ok (indices, values, shape2 a) ∧
    sparse_to_dense zero indices values (shape2 a) = Ok a.
Proof.
  intros Hwf. eexists _, _. split; [by apply dense_to_sparse_eq|].
  destruct (sparse_to_dense_returns
              (entry_index <$> nonzero_entries zero a)
              (entry_value <$> nonzero_entries zero a) (shape2 a))
    as (dense & -> & Hs & Hwfd & Hget).
  { by rewrite !length_fmap. }
  { by apply nonzero_entries_in. }
  f_equal. apply ndarray2_ext; [done..|].
  intros r c Hr Hc. rewrite Hs in Hr, Hc. rewrite (Hget r c Hr Hc), zip_entries.
  destruct (get2_is_Some a r c Hwf Hr Hc) as [y Hy]. rewrite Hy. f_equal.
  destruct (last_write_cases
              ((λ p, (entry_index p, entry_value p)) <$> nonzero_entries zero a) r c)
    as [[-> Hno]|(e & He & H0 & H1 & ->)].
  - destruct (decide (y = zero)) as [->|Hy0]; [done|]. exfalso.
    apply (Hno (entry_index (r, c, y), entry_value (r, c, y))); [|done].
    apply list_elem_of_fmap. exists (r, c, y). split; [done|].
    by apply elem_of_nonzero_entries.
  - apply list_elem_of_fmap in He as ([[r' c'] x] & -> & Hp).
    apply elem_of_nonzero_entries in Hp as [Hx _]. simpl in *.
    injection H0 as ->. injection H1 as ->. congruence.
Qed.
End dense_sparse.

Lemma for_each_cons {A St} (x : A) (items : list A) (init : St) body :
  for_each (x :: items) init body
  = match body init x with
    | Ok st => for_each items st body
    | Raise e => Raise e
    end.
Proof.
  unfold for_each. cbn [foldl mbind result_bind].
  destruct (body init x) as [st|e]; [done|].
  induction items as [|y items IH]; [done|]. cbn [foldl mbind result_bind]. apply IH.
Qed.

Lemma for_each_app {A St} (l1 l2 : list A) (init : St) body :
  for_each (l1 ++ l2) init body
  = match for_each l1 init body with
    | Ok st => for_each l2 st body
    | Raise e => Raise e
    end.
Proof.
  revert init. induction l1 as [|x l1 IH]; intros init; [done|].
  rewrite <- app_comm_cons, !for_each_cons.
  destruct (body init x); [apply IH|done].
Qed.

Section dense_rows.
Context {F : Type} `{!EqDecision F} (zero : F).

Lemma setitem_row_prefix_spec (dense : ndarray2 F) (i : nat) (array : list F) :
  wf2 dense → i < (shape2 dense).1 → length array ≤ (shape2 dense).2 →
  ∃ dense', setitem_row_prefix dense i array = Ok dense' ∧
            shape2 dense' = shape2 dense ∧ wf2 dense' ∧
            ∀ r, data2 dense' !! r
                 = if decide (i = r)
                   then (λ row, array ++ drop (length array) row) <$> data2 dense !! i
                   else data2 dense !! r.
Proof.
  intros [Hlen Hrows] Hi Harr. unfold setitem_row_prefix.
  rewrite decide_False by lia. cbv zeta.
  rewrite Nat.min_l by done. rewrite broadcast_axis_same.
  cbn [mbind result_bind]. eexists. split; [done|].
  unfold wf2. cbn [shape2 data2]. split_and!.
  - done.
  - by rewrite length_alter.
  - apply Forall_alter; [done|]. intros row _ Hrow. simpl in *.
    rewrite length_app, length_drop. lia.
  - intros r. apply list_lookup_alter.
Qed.

Lemma rows_inv_zeros array_list shape :
  rows_inv zero array_list shape 0 (np_zeros2 zero shape).
Proof.
  destruct (np_zeros2_wf zero shape) as [Hwf _].
  unfold rows_inv. split_and!; [done..|].
  intros r Hr. unfold np_zeros2. cbn [data2]. by rewrite lookup_replicate_2.
Qed.

Lemma rows_inv_step array_list shape i array dense :
  array_list !! i = Some array → rows_inv zero array_list shape i dense →
  i < shape.1 → length array ≤ shape.2 →
  ∃ dense', setitem_row_prefix dense i array = Ok dense' ∧
            rows_inv zero array_list shape (S i) dense'.
Proof.
  intros Harr (Hs & Hwf & Hrows) Hi Hlen.
  destruct (setitem_row_prefix_spec dense i array) as (d' & Hd' & Hs' & Hwf' & Hget);
    [done|by rewrite Hs..|].
  exists d'. split; [done|]. unfold rows_inv. split_and!; [congruence|done|].
  intros r Hr. rewrite Hget. destruct (decide (i = r)) as [<-|Hne].
  - rewrite (Hrows i Hi), decide_False, decide_True by lia. simpl. f_equal.
    unfold padded_row. rewrite Harr. by rewrite drop_replicate.
  - rewrite (Hrows r Hr). f_equal.
    destruct (decide (r < i)); [by rewrite decide_True by lia|].
    by rewrite decide_False by lia.
Qed.

Lemma array_list_to_dense_returns (array_list : list (list F)) (shape : nat * nat) :
  length array_list ≤ shape.1 →
  Forall (λ array, length array ≤ shape.2) array_list →
  ∃ dense, array_list_to_dense zero array_list shape = Ok dense ∧
           rows_inv zero array_list shape (length array_list) dense.
Proof.
  intros Hlen Hfit. unfold array_list_to_dense.
  rewrite <- (enumerate_length array_list).
  apply for_each_ind; [apply rows_inv_zeros|].
  intros i [i' array] dense Hx Hinv.
  apply enumerate_lookup in Hx as [Hi Harr]. simpl in Hi, Harr. subst i'.
  cbn [fst snd]. apply rows_inv_step; [done..| |].
  - apply lookup_lt_Some in Harr. lia.
  - by apply (Forall_lookup_1 _ _ _ _ Hfit Harr).
Qed.

Lemma rows_inv_end array_list shape dense r :
  rows_inv zero array_list shape (length array_list) dense → r < shape.1 →
  data2 dense !! r = Some (padded_row zero array_list shape.2 r).
Proof.
  intros (_ & _ & Hrows) Hr. rewrite (Hrows r Hr). f_equal.
  case_decide as Hlt; [done|]. unfold padded_row.
  by rewrite (proj2 (lookup_ge_None array_list r)) by lia.
Qed.

(** [array_list_to_dense] with as many rows as there are arrays, or
    more, and no array longer than a row: every array fills the start of
    its row, the rest of the matrix is zero. *)
Theorem array_list_to_dense_rows (array_list : list (list F)) (shape : nat * nat) :
  length array_list ≤ shape.1 →
  Forall (λ array, length array ≤ shape.2) array_list →
  ∃ dense, array_list_to_dense zero array_list shape = Ok dense ∧
           shape2 dense = shape ∧ wf2 dense ∧
           ∀ r, r < shape.1 →
                data2 dense !! r = Some (padded_row zero array_list shape.2 r).
Proof.
  intros Hlen Hfit.
  destruct (array_list_to_dense_returns array_list shape Hlen Hfit)
    as (dense & Hdense & Hinv).
  exists dense. pose proof Hinv as (Hs & Hwf & _). split_and!; [done..|].
  intros r Hr. by apply rows_inv_end.
Qed.

(** [array_list_to_dense] raises [IndexError] when there are more arrays
    than rows, and [ValueError] at an array that is longer than a row,
    the arrays before fitting in both cases. *)
Theorem array_list_to_dense_raises (array_list : list (list F)) (shape : nat * nat)
    (k : nat) (array : list F) :
  array_list !! k = Some array →
  k ≤ shape.1 →
  Forall (λ array, length array ≤ shape.2) (take k array_list) →
  (k = shape.1 → array_list_to_dense zero array_list shape = Raise IndexError) ∧
  (k < shape.1 → shape.2 < length array → length array ≠ 1 →
   array_list_to_dense zero array_list shape
   = Raise (ValueError "could not broadcast")).
Proof.
  intros Harr Hk Hfit.
  pose proof (lookup_lt_Some _ _ _ Harr) as Hlt.
  destruct (array_list_to_dense_returns (take k array_list) shape)
    as (dense & Hdense & (Hs & Hwf & _)); [by rewrite length_take_le by lia|done|].
  assert (∀ e, setitem_row_prefix dense k array = Raise e →
               array_list_to_dense zero array_list shape = Raise e) as Hraise.
  { intros e He. unfold array_list_to_dense in *.
    rewrite <- (take_drop_middle _ _ _ Harr) at 1.
    unfold enumerate at 1. rewrite imap_app. fold (enumerate (take k array_list)).
    rewrite for_each_app, Hdense. cbn [imap]. rewrite for_each_cons.
    cbn [fst snd]. rewrite length_take_le by lia. rewrite Nat.add_0_r.
    by rewrite He. }
  split.
  - intros ->. apply Hraise. unfold setitem_row_prefix.
    by rewrite decide_True by (rewrite Hs; lia).
  - intros Hk' Hlong Hne1. apply Hraise. unfold setitem_row_prefix.
    rewrite decide_False by (rewrite Hs; lia). cbv zeta.
    rewrite Hs, Nat.min_r by lia. unfold broadcast_axis.
    rewrite decide_False by lia.
    destruct array as [|x [|y array]]; simpl in *; [done|lia|done].
Qed.
End dense_rows.

(** ** Sparse targets as matrices *)

Section targets_as_matrices.
Import BatchDispenser.

Lemma sparse_tensor_Ok target_list indices vals n m :
  target_list_to_sparse_tensor target_list = Ok (indices, vals, [n; m]) →
  indices = index_of <$> nonzero_positions target_list ∧
  vals = value_of <$> nonzero_positions target_list ∧
  n = length target_list ∧ m = max_list_with length target_list.
Proof.
  rewrite sparse_tensor_eq, np_max_position_lengths.
  case_decide; [done|]. cbn [mbind result_bind]. by intros [= <- <- <- <-].
Qed.

Lemma nonzero_positions_in target_list :
  Forall (index_in (length target_list, max_list_with length target_list))
         (index_of <$> nonzero_positions target_list).
Proof.
  apply Forall_fmap, Forall_forall. intros [[t_i seq_i] val] Hp.
  apply elem_of_nonzero_positions in Hp as (target & Ht & Hs & _).
  pose proof (max_list_with_le length target_list target) as Hmax.
  apply lookup_lt_Some in Hs. simpl. split.
  - by apply lookup_lt_Some in Ht.
  - apply list_elem_of_lookup_2 in Ht. specialize (Hmax Ht). lia.
Qed.

Lemma padded_row_lookup (target_list : list (list Z)) (m r c : nat) :
  r < length target_list → c < m →
  Forall (λ target, length target ≤ m) target_list →
  padded_row 0%Z target_list m r !! c
  = Some (default 0%Z (target_list !! r ≫= λ target, target !! c)).
Proof.
  intros Hr Hc Hfit. unfold padded_row.
  destruct (lookup_lt_is_Some_2 target_list r Hr) as [target Ht]. rewrite Ht.
  pose proof (Forall_lookup_1 _ _ _ _ Hfit Ht) as Hlen. simpl in *.
  destruct (decide (c < length target)) as [Hlt|Hge].
  - rewrite lookup_app_l by done.
    destruct (lookup_lt_is_Some_2 target c Hlt) as [v ->]. done.
  - rewrite lookup_app_r by lia. rewrite lookup_replicate_2 by lia.
    by rewrite (proj2 (lookup_ge_None target c)) by lia.
Qed.

(** The sparse tensor of a batch of targets, made dense, is the matrix
    with one row per target, each target at the start of its row and
    zeros after it; [array_list_to_dense] builds the same matrix from the
    targets and the shape of the tensor. *)
Theorem sparse_tensor_to_dense (target_list : list (list Z))
    (indices : list (list nat)) (vals : list Z) (n m : nat) :
  target_list_to_sparse_tensor target_list = Ok (indices, vals, [n; m]) →
  ∃ dense,
    sparse_to_dense 0%Z indices vals (n, m) = Ok dense ∧
    array_list_to_dense 0%Z target_list (n, m) = Ok dense ∧
    ∀ r, r < n → data2 dense !! r = Some (padded_row 0%Z target_list m r).
Proof.
  intros (-> & -> & -> & ->)%sparse_tensor_Ok.
  set (n := length target_list). set (m := max_list_with length target_list).
  assert (Forall (λ target : list Z, length target ≤ m) target_list) as Hfit.
  { apply Forall_forall. intros target Ht.
    by apply (max_list_with_le length). }
  destruct (array_list_to_dense_returns 0%Z target_list (n, m))
    as (dense & Hdense & Hinv); [done..|].
  pose proof Hinv as (Hs & Hwf & _).
  pose proof (λ r, rows_inv_end 0%Z target_list (n, m) dense r Hinv) as Hrows.
  cbn [fst snd] in Hrows.
  destruct (sparse_to_dense_returns 0%Z
              (index_of <$> nonzero_positions target_list)
              (value_of <$> nonzero_positions target_list) (n, m))
    as (dense' & Hdense' & Hs' & Hwf' & Hget').
  { by rewrite !length_fmap. }
  { apply nonzero_positions_in. }
  assert (dense' = dense) as ->; [|by exists dense].
  apply ndarray2_ext; [done|done|congruence|].
  rewrite Hs'. cbn [fst snd]. intros r c Hr Hc.
  rewrite (Hget' r c Hr Hc). unfold get2.
  rewrite (Hrows r Hr). cbn [mbind option_bind fst snd].
  rewrite padded_row_lookup by done. f_equal.
  change (index_of <$> ?l) with (entry_index <$> l).
  change (value_of <$> ?l) with (entry_value <$> l).
  rewrite zip_entries.
  destruct (last_write_cases 0%Z
              ((λ p, (entry_index p, entry_value p)) <$> nonzero_positions target_list)
              r c) as [[-> Hno]|(e & He & H0 & H1 & ->)].
  - destruct (target_list !! r) as [target|] eqn:Ht; [|done]. simpl.
    destruct (target !! c) as [v|] eqn:Hv; [|done]. simpl.
    destruct (decide (v = 0%Z)) as [->|Hv0]; [done|]. exfalso.
    apply (Hno (entry_index (r, c, v), entry_value (r, c, v))); [|done].
    apply list_elem_of_fmap. exists (r, c, v). split; [done|].
    apply elem_of_nonzero_positions. by exists target.
  - apply list_elem_of_fmap in He as ([[r' c'] v] & -> & Hp).
    apply elem_of_nonzero_positions in Hp as (target & Ht & Hv & _).
    simpl in *. injection H0 as ->. injection H1 as ->.
    by rewrite Ht; simpl; rewrite Hv.
Qed.

Lemma row_entries_zeros {F} `{!EqDecision F} (zero : F) (row : nat) (r : list F) k :
  row_entries zero row (r ++ replicate k zero) = row_entries zero row r.
Proof.
  induction k as [|k IH]; [by rewrite app_nil_r|].
  rewrite replicate_S_end, app_assoc, row_entries_snoc, IH.
  rewrite decide_False by (intros Hne; by apply Hne). by rewrite app_nil_r.
Qed.

Lemma enumerate_fmap_bind {A B C} (f : A → B) (g : nat * B → list C) (l : list A) :
  enumerate (f <$> l) ≫= g = enumerate l ≫= (λ p, g (p.1, f p.2)).
Proof.
  induction l as [|x l IH] using rev_ind; [done|].
  rewrite fmap_app. cbn [fmap list_fmap].
  rewrite !enumerate_snoc, !bind_app, !bind_singleton, IH, length_fmap. done.
Qed.

(** The dense matrix of a batch of targets, made sparse, is the sparse
    tensor of the batch. *)
Theorem dense_targets_to_sparse (target_list : list (list Z))
    (indices : list (list nat)) (vals : list Z) (n m : nat) :
  target_list_to_sparse_tensor target_list = Ok (indices, vals, [n; m]) →
  ∃ dense,
    array_list_to_dense 0%Z target_list (n, m) = Ok dense ∧
    dense_to_sparse 0%Z dense = Ok (indices, vals, (n, m)).
Proof.
  intros (-> & -> & -> & ->)%sparse_tensor_Ok.
  set (n := length target_list). set (m := max_list_with length target_list).
  assert (Forall (λ target : list Z, length target ≤ m) target_list) as Hfit.
  { apply Forall_forall. intros target Ht.
    by apply (max_list_with_le length). }
  destruct (array_list_to_dense_returns 0%Z target_list (n, m))
    as (dense & Hdense & Hinv); [done..|].
  pose proof Hinv as (Hs & [Hlen Hwf] & _).
  exists dense. split; [done|].
  rewrite dense_to_sparse_eq, Hs by done. do 2 f_equal.
  assert (data2 dense
          = (λ target, target ++ replicate (m - length target) 0%Z) <$> target_list)
    as Hdata.
  { apply list_eq. intros r. rewrite list_lookup_fmap.
    destruct (decide (r < n)) as [Hr|Hr].
    - rewrite (rows_inv_end 0%Z target_list (n, m) dense r Hinv Hr).
      unfold padded_row. cbn [fst snd].
      destruct (lookup_lt_is_Some_2 target_list r Hr) as [target ->]. done.
    - rewrite Hs in Hlen. cbn [fst] in Hlen.
      rewrite !(proj2 (lookup_ge_None _ _)); [done|fold n; lia|lia]. }
  assert (nonzero_entries 0%Z dense = nonzero_positions target_list) as ->; [|done].
  unfold nonzero_entries, nonzero_positions. rewrite Hdata.
  trans (enumerate ((λ target, target ++ replicate (m - length target) 0%Z)
                      <$> target_list)
         ≫= λ p : nat * list Z, row_entries 0%Z p.1 p.2).
  { apply list_bind_ext; [|done]. by intros [row r]. }
  rewrite enumerate_fmap_bind.
  apply list_bind_ext; [|done]. intros [t_i target]. cbn [fst snd].
  by rewrite row_entries_zeros.
Qed.
End targets_as_matrices.

(** ** One-hot targets *)

Lemma norm_index_cases (n : nat) (code : Z) :
  (index_ok n code ∧
   norm_index n code = Ok (Z.to_nat (wrap_index n code)) ∧
   Z.of_nat (Z.to_nat (wrap_index n code)) = wrap_index n code ∧
   Z.to_nat (wrap_index n code) < n) ∨
  (¬ index_ok n code ∧ norm_index n code = Raise IndexError).
Proof.
  unfold norm_index, index_ok, wrap_index.
  destruct (decide (0 ≤ code < Z.of_nat n)%Z) as [H1|H1].
  - left. rewrite decide_False by lia. split_and!; (done || lia).
  - destruct (decide (- Z.of_nat n ≤ code < 0)%Z) as [H2|H2].
    + left. rewrite decide_True by lia. split_and!; (done || lia).
    + right. split; [lia|done].
Qed.

Lemma if_decide_iff {A} (P Q : Prop) `{!Decision P, !Decision Q} (x y : A) :
  (P ↔ Q) → (if decide P then x else y) = (if decide Q then x else y).
Proof. intros HPQ. destruct (decide P), (decide Q); tauto. Qed.

Section one_hot.
Context {F : Type} (zero one : F).
Import BatchDispenser.

Lemma setitem3_spec (a : ndarray3 F) (i j : nat) (k : Z) (k' : nat) (v : F) :
  wf3 a → i < (shape3 a).1.1 → j < (shape3 a).1.2 →
  norm_index (shape3 a).2 k = Ok k' → k' < (shape3 a).2 →
  ∃ a', setitem3 a i j k v = Ok a' ∧ shape3 a' = shape3 a ∧ wf3 a' ∧
        ∀ t b c, get3 a' t b c
                 = if decide (t = i ∧ b = j ∧ c = k') then Some v else get3 a t b c.
Proof.
  intros [Hlen Hplanes] Hi Hj Hk Hk'. unfold setitem3.
  rewrite !decide_False by lia. rewrite Hk. cbn [mbind result_bind].
  eexists. split; [done|]. unfold wf3, get3. cbn [shape3 data3]. split_and!.
  - done.
  - by rewrite length_alter.
  - apply Forall_alter; [done|]. intros plane _ [Hpl Hrows]. split.
    + by rewrite length_alter.
    + apply Forall_alter; [done|]. intros row _ Hrow. by rewrite length_insert.
  - intros t b c. rewrite list_lookup_alter.
    destruct (decide (i = t)) as [<-|Hti]; last first.
    { rewrite decide_False; [done|]. by intros [? _]. }
    destruct (lookup_lt_is_Some_2 (data3 a) i) as [plane Hplane]; [lia|].
    destruct (Forall_lookup_1 _ _ _ _ Hplanes Hplane) as [Hpl Hrows].
    rewrite Hplane. cbn [fmap option_fmap option_map mbind option_bind].
    rewrite list_lookup_alter.
    destruct (decide (j = b)) as [<-|Hbj]; last first.
    { rewrite decide_False; [done|]. by intros (_ & ? & _). }
    destruct (lookup_lt_is_Some_2 plane j) as [row Hrow]; [lia|].
    pose proof (Forall_lookup_1 _ _ _ _ Hrows Hrow) as Hrl. simpl in Hrl.
    rewrite Hrow. cbn [fmap option_fmap option_map mbind option_bind].
    rewrite list_lookup_insert.
    destruct (decide (k' = c)) as [<-|Hck].
    + rewrite decide_True by (split; [done|lia]). by rewrite decide_True.
    + rewrite decide_False by (by intros [? _]).
      rewrite decide_False; [done|]. by intros (_ & _ & ?).
Qed.

Lemma setitem3_raises (a : ndarray3 F) (i j : nat) (k : Z) (v : F) :
  ¬ (j < (shape3 a).1.2 ∧ index_ok (shape3 a).2 k) →
  setitem3 a i j k v = Raise IndexError.
Proof.
  intros Hnot. unfold setitem3. repeat case_decide; try done.
  destruct (norm_index_cases (shape3 a).2 k) as [(Hok & _)|[_ ->]]; [|done].
  exfalso. apply Hnot. split; [lia|done].
Qed.

Lemma target_list_to_one_hot_eq {Tok} (self : t Tok) (target_list : list (list Z)) :
  target_list_to_one_hot zero one self target_list
  = for_each (enumerate target_list)
             (np_zeros3 zero (max_list_with length target_list, size self,
                              num_labels self))
             (write_target one).
Proof.
  unfold target_list_to_one_hot. by rewrite foldl_max_with.
Qed.

(** One round of the inner loop. *)
Lemma one_hot_write target_list shape b j seq code (target_mat : ndarray3 F) :
  target_list !! b = Some seq → seq !! j = Some code → length seq ≤ shape.1.1 →
  one_hot_inv zero one target_list shape b j target_mat →
  (b < shape.1.2 ∧ index_ok shape.2 code ∧
   ∃ target_mat', setitem3 target_mat j b code one = Ok target_mat' ∧
                  one_hot_inv zero one target_list shape b (S j) target_mat') ∨
  (¬ (b < shape.1.2 ∧ index_ok shape.2 code) ∧
   setitem3 target_mat j b code one = Raise IndexError).
Proof.
  intros Hseq Hcode Hlen (Hs & Hwf & Hget).
  destruct (decide (b < shape.1.2 ∧ index_ok shape.2 code)) as [[Hb Hok]|Hnot];
    last first.
  { right. split; [done|]. apply setitem3_raises. by rewrite Hs. }
  left. split; [done|]. split; [done|].
  destruct (norm_index_cases shape.2 code) as [(_ & Hnorm & HZ & Hlt)|[Hno _]];
    [|done].
  pose proof (lookup_lt_Some _ _ _ Hcode) as Hj.
  destruct (setitem3_spec target_mat j b code
              (Z.to_nat (wrap_index shape.2 code)) one)
    as (T' & HT' & Hs' & Hwf' & Hget');
    [done|rewrite Hs; simpl; lia|by rewrite Hs|by rewrite Hs|by rewrite Hs|].
  exists T'. split; [done|]. split; [congruence|]. split; [done|].
  intros t b' c Ht Hb' Hc. rewrite Hget'.
  destruct (decide (t = j ∧ b' = b ∧ c = Z.to_nat (wrap_index shape.2 code)))
    as [(-> & -> & ->)|Hne].
  - rewrite decide_True; [done|]. split; [|right; split; [done|lia]].
    unfold code_at. rewrite Hseq. simpl. rewrite Hcode. simpl. by rewrite HZ.
  - rewrite (Hget t b' c Ht Hb' Hc). f_equal. apply if_decide_iff.
    split; intros [Hhot Hpos]; (split; [done|]).
    + destruct Hpos as [?|[-> ?]]; [by left|right; split; [done|lia]].
    + destruct Hpos as [?|[-> Htj]]; [by left|].
      right. split; [done|]. destruct (decide (t = j)) as [->|]; [|lia].
      exfalso. apply Hne. split_and!; try done.
      unfold code_at in Hhot. rewrite Hseq in Hhot. simpl in Hhot.
      rewrite Hcode in Hhot. simpl in Hhot. injection Hhot as Hhot. lia.
Qed.

Lemma codes_inv_step target_list shape b seq j code target_mat :
  target_list !! b = Some seq → seq !! j = Some code → length seq ≤ shape.1.1 →
  codes_inv zero one target_list shape b seq j target_mat →
  (b < shape.1.2 ∧ index_ok shape.2 code ∧
   ∃ target_mat', write_code one b target_mat (j, code) = Ok target_mat' ∧
                  codes_inv zero one target_list shape b seq (S j) target_mat') ∨
  (¬ (b < shape.1.2 ∧ index_ok shape.2 code) ∧
   write_code one b target_mat (j, code) = Raise IndexError).
Proof.
  intros Hseq Hcode Hlen (Hinv & Hall & _). cbn [write_code].
  destruct (one_hot_write target_list shape b j seq code target_mat Hseq Hcode Hlen Hinv)
    as [(Hb & Hok & T' & HT' & Hinv')|[Hnot Hraise]]; [|by right].
  left. split; [done|]. split; [done|]. exists T'. split; [done|].
  unfold codes_inv. split_and!; [done| |done].
  rewrite (take_S_r _ _ _ Hcode). apply Forall_app. split; [done|]. by constructor.
Qed.

(** When the inner loop has run over a target, the target is written. *)
Lemma codes_inv_end target_list shape b seq target_mat :
  target_list !! b = Some seq →
  codes_inv zero one target_list shape b seq (length seq) target_mat →
  one_hot_inv zero one target_list shape (S b) 0 target_mat ∧
  target_ok shape.1.2 shape.2 (b, seq).
Proof.
  intros Hseq ((Hs & Hwf & Hget) & Hall & Hb). split.
  - split; [done|]. split; [done|]. intros t b' c Ht Hb' Hc.
    rewrite (Hget t b' c Ht Hb' Hc). f_equal. apply if_decide_iff.
    split; intros [Hhot Hpos]; (split; [done|]).
    + destruct Hpos as [?|[-> ?]]; left; lia.
    + destruct Hpos as [Hlt|[_ ?]]; [|lia].
      destruct (decide (b' = b)) as [->|]; [|left; lia].
      right. split; [done|]. unfold code_at in Hhot. rewrite Hseq in Hhot.
      simpl in Hhot. destruct (seq !! t) eqn:Hst; [|done].
      by apply lookup_lt_Some in Hst.
  - unfold target_ok. cbn [fst snd]. destruct seq as [|code seq]; [by left|].
    right. rewrite take_ge in Hall by done. split; [|done]. apply Hb. simpl. lia.
Qed.

Lemma codes_inv_start target_list shape b seq target_mat :
  one_hot_inv zero one target_list shape b 0 target_mat →
  codes_inv zero one target_list shape b seq 0 target_mat.
Proof. intros Hinv. split; [done|]. split; [by rewrite take_0|lia]. Qed.

Lemma write_target_returns target_list shape b seq target_mat :
  target_list !! b = Some seq → length seq ≤ shape.1.1 →
  one_hot_inv zero one target_list shape b 0 target_mat →
  target_ok shape.1.2 shape.2 (b, seq) →
  ∃ target_mat', write_target one target_mat (b, seq) = Ok target_mat' ∧
                 one_hot_inv zero one target_list shape (S b) 0 target_mat'.
Proof.
  intros Hseq Hlen Hinv Hok. cbn [write_target].
  destruct (for_each_ind (codes_inv zero one target_list shape b seq)
              (write_code one b) (enumerate seq) target_mat)
    as (T' & HT' & Hend); [by apply codes_inv_start| |].
  - intros j [j' code] T Hx HP.
    apply enumerate_lookup in Hx as [Hj Hcode]. simpl in Hj, Hcode. subst j'.
    destruct (codes_inv_step target_list shape b seq j code T Hseq Hcode Hlen HP)
      as [(_ & _ & T'' & HT'' & HP')|[Hnot _]]; [by exists T''|].
    exfalso. apply Hnot. unfold target_ok in Hok. cbn [fst snd] in Hok.
    destruct Hok as [->|[Hb Hall]]; [done|].
    split; [done|]. by apply (Forall_lookup_1 _ _ _ _ Hall Hcode).
  - rewrite enumerate_length in Hend. exists T'. split; [done|].
    by apply (codes_inv_end target_list shape b seq).
Qed.

Lemma write_target_cases target_list shape b seq target_mat :
  target_list !! b = Some seq → length seq ≤ shape.1.1 →
  one_hot_inv zero one target_list shape b 0 target_mat →
  (target_ok shape.1.2 shape.2 (b, seq) ∧
   ∃ target_mat', write_target one target_mat (b, seq) = Ok target_mat' ∧
                  one_hot_inv zero one target_list shape (S b) 0 target_mat') ∨
  (¬ target_ok shape.1.2 shape.2 (b, seq) ∧
   write_target one target_mat (b, seq) = Raise IndexError).
Proof.
  intros Hseq Hlen Hinv.
  destruct (decide (target_ok shape.1.2 shape.2 (b, seq))) as [Hok|Hnot].
  { left. split; [done|]. by apply write_target_returns. }
  right. split; [done|]. cbn [write_target].
  destruct (for_each_cases (codes_inv zero one target_list shape b seq)
              (write_code one b) (enumerate seq) target_mat IndexError)
    as [(T' & _ & Hend)|Hraise]; [by apply codes_inv_start| | |done].
  - intros j [j' code] T Hx HP.
    apply enumerate_lookup in Hx as [Hj Hcode]. simpl in Hj, Hcode. subst j'.
    destruct (codes_inv_step target_list shape b seq j code T Hseq Hcode Hlen HP)
      as [(_ & _ & T'' & HT'' & HP')|[_ Hraise]]; [left; by exists T''|by right].
  - rewrite enumerate_length in Hend.
    by apply (codes_inv_end target_list shape b seq) in Hend as [_ Hok].
Qed.

Lemma get3_is_Some (a : ndarray3 F) t b c :
  wf3 a → t < (shape3 a).1.1 → b < (shape3 a).1.2 → c < (shape3 a).2 →
  is_Some (get3 a t b c).
Proof.
  intros [Hlen Hplanes] Ht Hb Hc. unfold get3.
  destruct (lookup_lt_is_Some_2 (data3 a) t) as [plane Hplane]; [lia|].
  destruct (Forall_lookup_1 _ _ _ _ Hplanes Hplane) as [Hpl Hrows].
  destruct (lookup_lt_is_Some_2 plane b) as [row Hrow]; [lia|].
  pose proof (Forall_lookup_1 _ _ _ _ Hrows Hrow) as Hrl. simpl in Hrl.
  rewrite Hplane. simpl. rewrite Hrow. simpl. apply lookup_lt_is_Some. lia.
Qed.

Lemma targets_inv_zeros target_list shape :
  targets_inv zero one target_list shape 0 (np_zeros3 zero shape).
Proof.
  destruct (np_zeros3_wf zero shape) as [Hwf Hzero].
  split; [|by rewrite take_0]. split; [done|]. split; [done|].
  intros t b c Ht Hb Hc.
  destruct (get3_is_Some (np_zeros3 zero shape) t b c Hwf Ht Hb Hc) as [x Hx].
  rewrite Hx, (Hzero t b c x Hx). f_equal.
  rewrite decide_False; [done|]. intros [_ [?|[_ ?]]]; lia.
Qed.

Lemma targets_inv_step target_list shape b seq target_mat :
  shape.1.1 = max_list_with length target_list →
  target_list !! b = Some seq →
  targets_inv zero one target_list shape b target_mat →
  (target_ok shape.1.2 shape.2 (b, seq) ∧
   ∃ target_mat', write_target one target_mat (b, seq) = Ok target_mat' ∧
                  targets_inv zero one target_list shape (S b) target_mat') ∨
  (¬ target_ok shape.1.2 shape.2 (b, seq) ∧
   write_target one target_mat (b, seq) = Raise IndexError).
Proof.
  intros Hmax Hseq [Hinv Hall].
  assert (length seq ≤ shape.1.1) as Hlen.
  { rewrite Hmax. apply (max_list_with_le length).
    by apply list_elem_of_lookup_2 in Hseq. }
  destruct (write_target_cases target_list shape b seq target_mat Hseq Hlen Hinv)
    as [(Hok & T' & HT' & Hinv')|[Hnot Hraise]]; [|by right].
  left. split; [done|]. exists T'. split; [done|]. split; [done|].
  assert (enumerate target_list !! b = Some (b, seq)) as Hb
    by by apply enumerate_lookup.
  rewrite (take_S_r _ _ _ Hb). apply Forall_app. split; [done|]. by constructor.
Qed.

(** The loops get through when every target can be written. *)
Lemma target_list_to_one_hot_returns {Tok} (self : t Tok)
    (target_list : list (list Z)) :
  Forall (target_ok (size self) (num_labels self)) (enumerate target_list) →
  ∃ target_mat,
    target_list_to_one_hot zero one self target_list = Ok target_mat ∧
    shape3 target_mat
    = (max_list_with length target_list, size self, num_labels self) ∧
    wf3 target_mat ∧
    ∀ t b c,
      t < max_list_with length target_list → b < size self →
      c < num_labels self →
      get3 target_mat t b c
      = Some (if decide (wrap_index (num_labels self)
                           <$> code_at target_list b t = Some (Z.of_nat c))
              then one else zero).
Proof.
  intros Hcond. rewrite target_list_to_one_hot_eq.
  set (shape := (max_list_with length target_list, size self, num_labels self)).
  destruct (for_each_ind (targets_inv zero one target_list shape)
              (write_target one) (enumerate target_list) (np_zeros3 zero shape))
    as (T & HT & [(Hs & Hwf & Hget) _]); [apply targets_inv_zeros| |].
  - intros b [b' seq] T Hx HP. pose proof Hx as Hx'.
    apply enumerate_lookup in Hx' as [Hb Hseq]. simpl in Hb, Hseq. subst b'.
    destruct (targets_inv_step target_list shape b seq T eq_refl Hseq HP)
      as [(_ & T' & HT' & HP')|[Hnot _]]; [by exists T'|].
    exfalso. apply Hnot. by apply (Forall_lookup_1 _ _ _ _ Hcond Hx).
  - exists T. split; [done|]. split; [done|]. split; [done|].
    intros t b c Ht Hb Hc. rewrite (Hget t b c Ht Hb Hc). f_equal.
    apply if_decide_iff. cbn [fst snd]. split; [by intros [? _]|].
    intros Hhot. split; [done|]. left. rewrite enumerate_length.
    unfold code_at in Hhot. destruct (target_list !! b) eqn:Hb'; [|done].
    by apply lookup_lt_Some in Hb'.
Qed.

(** [target_list_to_one_hot] returns exactly when every target that is
    not empty sits at a position inside the batch and has only codes that
    are positions of the label axis; it raises [IndexError] otherwise.
    The matrix returned has shape (length of the longest target, batch
    size, number of labels); it holds a one at time [t], batch position
    [b] and label [c] exactly when [c] is the code of target [b] at time
    [t], and zero everywhere else. *)
Theorem target_list_to_one_hot_spec {Tok} (self : t Tok)
    (target_list : list (list Z)) :
  if decide (Forall (target_ok (size self) (num_labels self))
                    (enumerate target_list))
  then ∃ target_mat,
         target_list_to_one_hot zero one self target_list = Ok target_mat ∧
         shape3 target_mat
         = (max_list_with length target_list, size self, num_labels self) ∧
         wf3 target_mat ∧
         ∀ t b c,
           t < max_list_with length target_list → b < size self →
           c < num_labels self →
           get3 target_mat t b c
           = Some (if decide (wrap_index (num_labels self)
                                <$> code_at target_list b t = Some (Z.of_nat c))
                   then one else zero)
  else target_list_to_one_hot zero one self target_list = Raise IndexError.
Proof.
  case_decide as Hcond; [by apply target_list_to_one_hot_returns|].
  rewrite target_list_to_one_hot_eq.
  set (shape := (max_list_with length target_list, size self, num_labels self)).
  destruct (for_each_cases (targets_inv zero one target_list shape)
              (write_target one) (enumerate target_list) (np_zeros3 zero shape)
              IndexError) as [(T & _ & [_ Hall])|Hraise];
    [apply targets_inv_zeros| | |done].
  - intros b [b' seq] T Hx HP.
    apply enumerate_lookup in Hx as [Hb Hseq]. simpl in Hb, Hseq. subst b'.
    destruct (targets_inv_step target_list shape b seq T eq_refl Hseq HP)
      as [(_ & T' & HT' & HP')|[_ Hraise]]; [left; by exists T'|by right].
  - exfalso. apply Hcond. by rewrite take_ge in Hall.
Qed.
End one_hot.

(** ** The transcripts read by the constructors *)

Lemma split_cons (sep : ascii) (s : string) : ∃ w ws, split sep s = w :: ws.
Proof.
  induction s as [|c s (w & ws & IH)]; simpl; [by eexists _, _|].
  case_decide; [by eexists _, _|]. rewrite IH. by eexists _, _.
Qed.

Lemma utt_words_snoc (lines : list string) (line utt_id : string) :
  utt_words (lines ++ [line]) utt_id
  = if decide (line_id line = Some utt_id) then Some (line_words line)
    else utt_words lines utt_id.
Proof.
  unfold utt_words. rewrite filter_app, fmap_app.
  rewrite filter_cons, filter_nil. case_decide.
  - simpl. by rewrite last_snoc.
  - simpl. by rewrite app_nil_r.
Qed.

Section base_init.
Context {Tok : Type} (normalize_targets : list string → result (list Tok)).

Lemma init_eq size lines num_labels max_time one_hot_encoding :
  BatchDispenser.init normalize_targets size lines num_labels max_time
                      one_hot_encoding
  = (text_dict ← for_each lines ∅ (read_line normalize_targets);
     Ok (BatchDispenser.Build num_labels lines text_dict size max_time
                              one_hot_encoding)).
Proof. reflexivity. Qed.

Lemma read_line_Ok text_dict line text_dict' :
  read_line normalize_targets text_dict line = Ok text_dict' →
  ∃ utt_id targets,
    line_id line = Some utt_id ∧
    normalize_targets (line_words line) = Ok targets ∧
    text_dict' = <[utt_id := targets]> text_dict.
Proof.
  unfold read_line, line_id, line_words, getitem.
  destruct (split_cons " " line) as (w & ws & ->). simpl. rewrite drop_0.
  destruct (normalize_targets ws) as [targets|]; [|done].
  intros [= <-]. by exists w, targets.
Qed.

(** What the dictionary holds once the lines are read. *)
Lemma read_lines_lookup lines text_dict :
  for_each lines ∅ (read_line normalize_targets) = Ok text_dict →
  ∀ utt_id targets,
    text_dict !! utt_id = Some targets
    ↔ ∃ words, utt_words lines utt_id = Some words ∧
               normalize_targets words = Ok targets.
Proof.
  revert text_dict. induction lines as [|line lines IH] using rev_ind;
    intros text_dict.
  - intros [= <-] utt_id targets. rewrite lookup_empty. split; [done|].
    by intros (? & ? & _).
  - rewrite for_each_snoc.
    destruct (for_each lines ∅ (read_line normalize_targets)) as [d|] eqn:Hd;
      [|done].
    cbn [mbind result_bind]. intros Hline utt_id targets.
    apply read_line_Ok in Hline as (id & t & Hid & Ht & ->).
    rewrite utt_words_snoc, Hid. destruct (decide (id = utt_id)) as [->|Hne].
    + rewrite lookup_insert_eq, decide_True by done. split.
      * intros [= <-]. by eexists.
      * intros (words & [= <-] & Hn). congruence.
    + rewrite lookup_insert_ne by done.
      rewrite decide_False by congruence. by apply IH.
Qed.

Lemma read_lines_returns lines :
  (∀ line, line ∈ lines → ∃ targets, normalize_targets (line_words line) = Ok targets) →
  ∃ text_dict, for_each lines ∅ (read_line normalize_targets) = Ok text_dict.
Proof.
  intros Hnorm.
  destruct (for_each_ind (λ _ _, True) (read_line normalize_targets) lines ∅)
    as (d & Hd & _); [done| |by exists d].
  intros i line d Hline _. apply list_elem_of_lookup_2 in Hline.
  destruct (Hnorm line Hline) as [targets Ht].
  unfold read_line, getitem. unfold line_words in Ht.
  destruct (split_cons " " line) as (w & ws & Hs). rewrite Hs in *. simpl in *.
  rewrite drop_0 in *. rewrite Ht. by eexists.
Qed.
End base_init.

(** ** The character dispenser and its transcripts *)

Lemma target_label_no_eq : UttTextDispenser.target_label_no = 32.
Proof. vm_compute. reflexivity. Qed.

Lemma allowed_code_in_range c :
  c ∈ UttTextDispenser.allowed_chrs →
  ∃ code, UttTextDispenser.code_dict !! c = Some code ∧
          (0 ≤ code < Z.of_nat UttTextDispenser.target_label_no)%Z.
Proof.
  assert (forallb code_in_range UttTextDispenser.allowed_chrs = true) as Hall
    by (vm_compute; reflexivity).
  intros Hc. apply list_elem_of_In in Hc.
  pose proof (proj1 (forallb_forall _ _) Hall c Hc) as Hr.
  unfold code_in_range in Hr.
  destruct (UttTextDispenser.code_dict !! c) as [code|]; [|done].
  apply bool_decide_eq_true in Hr. exists code. split; [reflexivity|exact Hr].
Qed.

Lemma allowed_codes_in_range char_lst :
  Forall (λ c, c ∈ UttTextDispenser.allowed_chrs) char_lst →
  ∃ codes, UttTextDispenser.encode char_lst = Ok codes ∧
           length codes = length char_lst ∧
           Forall (λ code, 0 ≤ code < Z.of_nat UttTextDispenser.target_label_no)%Z
                  codes.
Proof.
  intros Hall.
  assert (∃ codes, mapM (λ c, UttTextDispenser.code_dict !! c) char_lst = Some codes
                   ∧ length codes = length char_lst
                   ∧ Forall (λ code, 0 ≤ code
                               < Z.of_nat UttTextDispenser.target_label_no)%Z codes)
    as (codes & Hm & Hlen & Hr).
  { induction Hall as [|c l Hc _ (codes & Hm & Hlen & Hr)].
    - by exists [].
    - destruct (allowed_code_in_range c Hc) as (code & Hcode & Hin).
      exists (code :: codes). cbn. rewrite Hcode. cbn. rewrite Hm. cbn.
      split; [done|]. split; [by rewrite Hlen|]. by constructor. }
  exists (to_uint8 <$> codes). rewrite encode_eq, Hm. split; [done|].
  split; [by rewrite length_fmap|].
  apply Forall_fmap. eapply Forall_impl; [exact Hr|]. intros code Hc.
  cbv beta in Hc. pose proof target_label_no_eq as Hno.
  unfold compose, to_uint8. rewrite Z.mod_small; lia.
Qed.

(** The constructor of the character dispenser returns for every list of
    lines. An utterance id that starts a line is stored with the
    normalized words of the last such line; the stored transcription can
    be encoded and all its codes are labels below [target_label_no]. An
    id that starts no line is not a key of the dictionary. *)
Theorem utt_dispenser_transcripts (size : nat) (lines : list string)
    (num_labels : nat) (max_time : option Z) (one_hot_encoding : bool) :
  ∃ text_dict,
    UttTextDispenser_init size lines num_labels max_time one_hot_encoding
    = Ok (BatchDispenser.Build num_labels lines text_dict size max_time
                               one_hot_encoding) ∧
    ∀ utt_id,
      match utt_words lines utt_id with
      | Some words =>
          ∃ targets codes,
            text_dict !! utt_id = Some targets ∧
            UttTextDispenser.normalize_targets words = Ok targets ∧
            UttTextDispenser.encode targets = Ok codes ∧
            length codes = length targets ∧
            Forall (λ code, 0 ≤ code
                      < Z.of_nat UttTextDispenser.target_label_no)%Z codes
      | None => text_dict !! utt_id = None
      end.
Proof.
  unfold UttTextDispenser_init. rewrite init_eq.
  destruct (read_lines_returns UttTextDispenser.normalize_targets lines)
    as [text_dict Hd].
  { intros line _. rewrite normalize_targets_eq. by eexists. }
  exists text_dict. rewrite Hd. split; [done|]. intros utt_id.
  pose proof (read_lines_lookup _ _ _ Hd utt_id) as Hlook.
  destruct (utt_words lines utt_id) as [words|].
  - pose proof (normalize_targets_eq words) as Hn.
    set (targets := UttTextDispenser.check_unknowns _) in Hn.
    destruct (allowed_codes_in_range targets) as (codes & Hc & Hlen & Hr);
      [apply check_unknowns_allowed|].
    exists targets, codes. split; [|done]. apply Hlook. by exists words.
  - apply eq_None_not_Some. intros [targets E].
    apply Hlook in E as (? & ? & _). done.
Qed.

(** ** Dicts filled from lists *)

Section code_maps.
Context `{Countable K}.

(** A dict filled from [enumerate] of a list without repetitions maps
    every entry to its position. *)
Lemma enumerate_dict_lookup (l : list K) :
  NoDup l →
  ∀ k code,
    foldl (λ (m : gmap K Z) '(i, k), <[k := Z.of_nat i]> m) ∅ (enumerate l) !! k
    = Some code
    ↔ ∃ i, l !! i = Some k ∧ code = Z.of_nat i.
Proof.
  induction l as [|q l IH] using rev_ind; intros Hnd k code.
  - simpl. rewrite lookup_empty. split; [done|]. by intros (i & ? & _).
  - apply NoDup_app in Hnd as (Hnd & Hq & _).
    rewrite enumerate_snoc, foldl_snoc.
    destruct (decide (q = k)) as [->|Hne].
    + rewrite lookup_insert_eq. split.
      * intros [= <-]. exists (length l).
        by rewrite lookup_app_r, Nat.sub_diag by lia.
      * intros (i & Hi & ->). f_equal. f_equal.
        destruct (decide (i < length l)) as [Hlt|Hge].
        -- rewrite lookup_app_l in Hi by done.
           apply list_elem_of_lookup_2 in Hi. exfalso.
           apply (Hq k); [done|]. by apply list_elem_of_singleton.
        -- apply lookup_lt_Some in Hi. rewrite length_app in Hi. simpl in Hi. lia.
    + rewrite lookup_insert_ne by done. rewrite (IH Hnd). split.
      * intros (i & Hi & ->). exists i. split; [|done].
        apply lookup_app_l_Some. done.
      * intros (i & Hi & ->). exists i. split; [|done].
        apply lookup_app_Some in Hi as [Hi|[_ Hi]]; [done|].
        destruct (i - length l) as [|n]; simpl in Hi; [congruence|].
        by rewrite lookup_nil in Hi.
Qed.

(** Turning a list of pairs with distinct second entries around. *)
Lemma reversed_pairs_lookup `{Countable V} (l : list (K * V)) :
  NoDup l.*2 →
  ∀ v k,
    foldl (λ (rev : gmap V K) '(k, v), <[v := k]> rev) ∅ l !! v = Some k
    ↔ (k, v) ∈ l.
Proof.
  induction l as [|[k' v'] l IH] using rev_ind; intros Hnd v k.
  - simpl. rewrite lookup_empty, elem_of_nil. done.
  - rewrite fmap_app in Hnd. apply NoDup_app in Hnd as (Hnd & Hv & _).
    rewrite foldl_snoc, elem_of_app, list_elem_of_singleton.
    destruct (decide (v' = v)) as [->|Hne].
    + rewrite lookup_insert_eq. split.
      * intros [= ->]. by right.
      * intros [Hin|Heq]; [|by simplify_eq]. exfalso. apply (Hv v).
        -- apply list_elem_of_fmap. by exists (k, v).
        -- simpl. by apply list_elem_of_singleton.
    + rewrite lookup_insert_ne by done. rewrite (IH Hnd). split; [by left|].
      intros [?|Heq]; [done|by simplify_eq].
Qed.
End code_maps.

(** ** The phoneme dispenser and its code map *)

Lemma string_le_cases (a b : string) :
  string_le a b ↔ OrderedTypeEx.String_as_OT.lt a b ∨ a = b.
Proof.
  unfold string_le, String.leb.
  destruct (String.compare a b) eqn:E.
  - apply String.compare_eq_iff in E. split; [by right|done].
  - apply OrderedTypeEx.String_as_OT.cmp_lt in E. split; [by left|done].
  - split; [done|]. intros [Hlt| ->].
    + apply OrderedTypeEx.String_as_OT.cmp_lt in Hlt.
      unfold OrderedTypeEx.String_as_OT.cmp in Hlt. congruence.
    + exfalso. destruct (OrderedTypeEx.String_as_OT.lt_not_eq b b); [|done].
      rewrite String.compare_antisym in E.
      destruct (String.compare b b) eqn:E'; try done.
      by apply OrderedTypeEx.String_as_OT.cmp_lt.
Qed.

Lemma string_le_trans (a b c : string) :
  string_le a b → string_le b c → string_le a c.
Proof.
  rewrite !string_le_cases. intros [Hab| ->] [Hbc| ->]; auto.
  left. by apply (OrderedTypeEx.String_as_OT.lt_trans a b c).
Qed.

Lemma string_le_total (a b : string) : string_le a b ∨ string_le b a.
Proof.
  unfold string_le. destruct (String.leb_total a b) as [-> | ->]; auto.
Qed.

Lemma sort_spec (l : list string) :
  StronglySorted string_le (PhonemeTextDispenser.sort l) ∧
  PhonemeTextDispenser.sort l ≡ₚ l.
Proof.
  unfold PhonemeTextDispenser.sort. split; [|apply merge_sort_Permutation].
  apply Sorted_StronglySorted; [exact string_le_trans|].
  apply (@Sorted_merge_sort _ (λ a b, Is_true (String.leb a b)) _ string_le_total).
Qed.

Lemma count_word_lookup (vocab_dict : gmap string Z) (wrd p : string) :
  is_Some (PhonemeTextDispenser.count_word vocab_dict wrd !! p)
  ↔ is_Some (vocab_dict !! p) ∨ p = wrd.
Proof.
  unfold PhonemeTextDispenser.count_word.
  destruct (decide (p = wrd)) as [->|Hne].
  - destruct (vocab_dict !! wrd); rewrite lookup_insert_eq; split; eauto.
  - destruct (vocab_dict !! wrd); rewrite lookup_insert_ne by done;
      split; auto; by intros [?|?].
Qed.

Lemma count_words_lookup (wrds : list string) (vocab_dict : gmap string Z) p :
  is_Some (foldl PhonemeTextDispenser.count_word vocab_dict wrds !! p)
  ↔ is_Some (vocab_dict !! p) ∨ p ∈ wrds.
Proof.
  revert vocab_dict. induction wrds as [|w wrds IH]; intros vocab_dict; simpl.
  - rewrite elem_of_nil. tauto.
  - rewrite IH, count_word_lookup, elem_of_cons. tauto.
Qed.

Lemma vocab_of_lookup (lines : list string) (p : string) :
  is_Some (vocab_of lines !! p) ↔ p ∈ corpus_words lines.
Proof.
  unfold vocab_of, corpus_words.
  induction lines as [|line lines IH] using rev_ind.
  - simpl. rewrite lookup_empty, elem_of_nil. split; [by intros [? ?]|done].
  - rewrite foldl_snoc, bind_app, bind_singleton, elem_of_app.
    cbv zeta. rewrite count_words_lookup, IH. done.
Qed.

Lemma phone_map_of_snoc (phones : list string) (p : string) :
  phone_map_of (phones ++ [p])
  = <[p := Z.of_nat (length phones)]> (phone_map_of phones).
Proof. unfold phone_map_of. by rewrite enumerate_snoc, foldl_snoc. Qed.

Lemma phone_map_of_lookup (phones : list string) :
  NoDup phones →
  ∀ p code, phone_map_of phones !! p = Some code
            ↔ ∃ i, phones !! i = Some p ∧ code = Z.of_nat i.
Proof. apply enumerate_dict_lookup. Qed.

Lemma phone_map_of_len (phones : list string) :
  NoDup phones → dict_len (phone_map_of phones) = length phones.
Proof.
  unfold dict_len.
  induction phones as [|q phones IH] using rev_ind; intros Hnd.
  - unfold phone_map_of. simpl. apply map_size_empty.
  - pose proof Hnd as Hnd'. apply NoDup_app in Hnd' as (Hnd' & Hq & _).
    rewrite phone_map_of_snoc, length_app. rewrite map_size_insert_None.
    + rewrite (IH Hnd'). simpl. lia.
    + apply eq_None_not_Some. intros [code Hc].
      apply (phone_map_of_lookup _ Hnd') in Hc as (i & Hi & _).
      apply list_elem_of_lookup_2 in Hi.
      apply (Hq q); [done|]. by apply list_elem_of_singleton.
Qed.

Lemma phoneme_init_eq size lines num_labels max_time one_hot_encoding :
  PhonemeTextDispenser.init size lines num_labels max_time one_hot_encoding
  = (base ← BatchDispenser.init PhonemeTextDispenser.normalize_targets
               size lines num_labels max_time one_hot_encoding;
     let phones :=
       PhonemeTextDispenser.sort
         (map_to_list (vocab_of (BatchDispenser.text_lines base))).*1 in
     _ ← py_assert (bool_decide (num_labels = dict_len (phone_map_of phones)));
     Ok (PhonemeTextDispenser.Build base (phone_map_of phones))).
Proof. reflexivity. Qed.

Lemma phones_spec (lines : list string) :
  let phones := PhonemeTextDispenser.sort (map_to_list (vocab_of lines)).*1 in
  StronglySorted string_le phones ∧ NoDup phones ∧
  (∀ p, p ∈ phones ↔ p ∈ corpus_words lines) ∧
  length phones = length (remove_dups (corpus_words lines)).
Proof.
  intros phones. destruct (sort_spec (map_to_list (vocab_of lines)).*1)
    as [Hs Hp]. fold phones in Hs, Hp.
  assert (NoDup phones) as Hnd.
  { rewrite Hp. apply NoDup_fst_map_to_list. }
  assert (∀ p, p ∈ phones ↔ p ∈ corpus_words lines) as Hin.
  { intros p. rewrite Hp, <- vocab_of_lookup.
    rewrite list_elem_of_fmap. split.
    - intros ([p' code] & -> & Hx). apply elem_of_map_to_list in Hx.
      simpl. by exists code.
    - intros [code Hx]. exists (p, code). split; [done|].
      by apply elem_of_map_to_list. }
  split; [done|]. split; [done|]. split; [done|].
  apply Permutation_length. apply NoDup_Permutation; [done|apply NoDup_remove_dups|].
  intros p. rewrite Hin. by rewrite elem_of_remove_dups.
Qed.

(** The constructor of the phoneme dispenser returns exactly when
    [num_labels] is the number of distinct words after the utterance ids
    of the transcript file, and raises [AssertionError] otherwise. The
    code map then numbers these words 0, 1, 2, ... in the order of [str]:
    it does not depend on the order of the lines. Every line is stored
    unchanged under its id, the last line of an id winning. *)
Theorem phoneme_dispenser_code_map (size : nat) (lines : list string)
    (num_labels : nat) (max_time : option Z) (one_hot_encoding : bool) :
  if decide (num_labels = length (remove_dups (corpus_words lines)))
  then ∃ self phones,
         PhonemeTextDispenser.init size lines num_labels max_time
                                   one_hot_encoding = Ok self ∧
         StronglySorted string_le phones ∧ NoDup phones ∧
         length phones = num_labels ∧
         (∀ p, p ∈ phones ↔ p ∈ corpus_words lines) ∧
         (∀ p code, PhonemeTextDispenser.phone_map self !! p = Some code
                    ↔ ∃ i, phones !! i = Some p ∧ code = Z.of_nat i) ∧
         (∀ utt_id, BatchDispenser.text_dict (PhonemeTextDispenser.base self)
                      !! utt_id = utt_words lines utt_id)
  else PhonemeTextDispenser.init size lines num_labels max_time one_hot_encoding
       = Raise AssertionError.
Proof.
  rewrite phoneme_init_eq, init_eq.
  destruct (read_lines_returns PhonemeTextDispenser.normalize_targets lines)
    as [text_dict Hd]; [intros line _; by eexists|].
  rewrite Hd. cbn [mbind result_bind mret result_ret BatchDispenser.text_lines].
  destruct (phones_spec lines) as (Hs & Hnd & Hin & Hlen).
  set (phones := PhonemeTextDispenser.sort _) in *.
  rewrite (phone_map_of_len _ Hnd), Hlen.
  case_decide as Hn.
  - rewrite bool_decide_eq_true_2 by done. cbn.
    eexists _, phones. split; [done|]. split; [done|]. split; [done|].
    split; [congruence|]. split; [done|]. split.
    + apply phone_map_of_lookup. done.
    + intros utt_id. cbn. pose proof (read_lines_lookup _ _ _ Hd utt_id) as Hl.
      apply option_eq. intros targets. rewrite Hl. split.
      * by intros (words & Hw & [= <-]).
      * intros Hw. by exists targets.
  - rewrite bool_decide_eq_false_2 by done. done.
Qed.

(** The constructor, the sorted phonemes and the codes of a stored
    transcription. *)
Lemma phoneme_init_encodes (size : nat) (lines : list string)
    (num_labels : nat) (max_time : option Z) (one_hot_encoding : bool)
    (utt_id : string) (targets : list string) :
  num_labels = length (remove_dups (corpus_words lines)) →
  utt_words lines utt_id = Some targets →
  ∃ self phones codes,
    PhonemeTextDispenser.init size lines num_labels max_time one_hot_encoding
    = Ok self ∧
    StronglySorted string_le phones ∧ NoDup phones ∧
    (∀ p, p ∈ phones ↔ p ∈ corpus_words lines) ∧
    length phones = num_labels ∧
    BatchDispenser.text_dict (PhonemeTextDispenser.base self) !! utt_id
    = Some targets ∧
    PhonemeTextDispenser.encode self targets = Ok codes ∧
    length codes = length targets ∧
    ∀ i code, codes !! i = Some code →
      ∃ p rank, targets !! i = Some p ∧ phones !! rank = Some p ∧
                PhonemeTextDispenser.phone_map self !! p = Some (Z.of_nat rank) ∧
                code = (Z.of_nat rank mod 256)%Z.
Proof.
  intros Hn Hw. rewrite phoneme_init_eq, init_eq.
  destruct (read_lines_returns PhonemeTextDispenser.normalize_targets lines)
    as [text_dict Hd]; [intros line _; by eexists|].
  rewrite Hd. cbn [mbind result_bind mret result_ret BatchDispenser.text_lines].
  destruct (phones_spec lines) as (Hs & Hnd & Hin & Hlen).
  set (phones := PhonemeTextDispenser.sort _) in *.
  rewrite (phone_map_of_len _ Hnd).
  rewrite bool_decide_eq_true_2 by congruence. cbn.
  assert (text_dict !! utt_id = Some targets) as Ht
    by (apply (read_lines_lookup _ _ _ Hd); by exists targets).
  assert (∀ p, p ∈ targets → p ∈ corpus_words lines) as Hsub.
  { intros p Hp. unfold utt_words in Hw. apply last_Some in Hw as [l' Hw].
    assert (targets ∈ line_words <$> filter (λ line, line_id line = Some utt_id) lines)
      as Hel by (rewrite Hw; apply elem_of_app; right; by apply list_elem_of_singleton).
    apply list_elem_of_fmap in Hel as (line & -> & Hline).
    apply list_elem_of_filter in Hline as [_ Hline].
    unfold corpus_words. apply list_elem_of_bind. by exists line. }
  assert (∃ codes, mapM (λ phone, phone_map_of phones !! phone) targets = Some codes
            ∧ length codes = length targets
            ∧ ∀ i code, codes !! i = Some code →
                ∃ p rank, targets !! i = Some p ∧ phones !! rank = Some p ∧
                  phone_map_of phones !! p = Some (Z.of_nat rank) ∧
                  code = Z.of_nat rank)
    as (codes & Hm & Hl & Hc).
  { clear Hw Ht. induction targets as [|p targets IH].
    - exists []. split; [done|]. split; [done|]. intros i code. by rewrite lookup_nil.
    - destruct IH as (codes & Hm & Hl & Hc).
      { intros q Hq. apply Hsub. by right. }
      assert (p ∈ phones) as Hp by (apply Hin, Hsub; by left).
      apply list_elem_of_lookup in Hp as [rank Hrank].
      assert (phone_map_of phones !! p = Some (Z.of_nat rank)) as Hcode
        by (apply (phone_map_of_lookup _ Hnd); by exists rank).
      exists (Z.of_nat rank :: codes). cbn. rewrite Hcode. cbn. rewrite Hm. cbn.
      split; [done|]. split; [by rewrite Hl|].
      intros [|i] code; cbn.
      + intros [= <-]. by exists p, rank.
      + apply Hc. }
  eexists _, phones, ((λ code, code mod 256)%Z <$> codes).
  split; [reflexivity|]. split; [done|]. split; [done|]. split; [done|].
  split; [congruence|].
  cbn [PhonemeTextDispenser.base BatchDispenser.text_dict].
  split; [done|]. rewrite phoneme_encode_eq.
  cbn [PhonemeTextDispenser.phone_map]. rewrite Hm. split; [done|].
  split; [by rewrite length_fmap|].
  intros i code. rewrite list_lookup_fmap.
  destruct (codes !! i) as [c|] eqn:Hi; [|done]. cbn. intros [= <-].
  destruct (Hc i c Hi) as (p & rank & ? & ? & ? & ->). by exists p, rank.
Qed.

(** A phoneme dispenser built with the right number of labels encodes
    every transcription of its file: no word of a line is missing from
    the code map, and a word is encoded as its rank among the distinct
    words of the file, modulo 256. *)
Theorem phoneme_dispenser_encodes_stored (size : nat) (lines : list string)
    (num_labels : nat) (max_time : option Z) (one_hot_encoding : bool)
    (utt_id : string) (targets : list string) :
  num_labels = length (remove_dups (corpus_words lines)) →
  utt_words lines utt_id = Some targets →
  ∃ self codes,
    PhonemeTextDispenser.init size lines num_labels max_time one_hot_encoding
    = Ok self ∧
    BatchDispenser.text_dict (PhonemeTextDispenser.base self) !! utt_id
    = Some targets ∧
    PhonemeTextDispenser.encode self targets = Ok codes ∧
    length codes = length targets ∧
    ∀ i code, codes !! i = Some code →
      ∃ p rank, targets !! i = Some p ∧
                PhonemeTextDispenser.phone_map self !! p = Some (Z.of_nat rank) ∧
                rank < num_labels ∧
                code = (Z.of_nat rank mod 256)%Z.
Proof.
  intros Hn Hw.
  destruct (phoneme_init_encodes size lines num_labels max_time one_hot_encoding
              utt_id targets Hn Hw)
    as (self & phones & codes & Hinit & _ & _ & _ & Hlen & Ht & Henc & Hl & Hc).
  exists self, codes. split; [done|]. split; [done|]. split; [done|].
  split; [done|]. intros i code Hi.
  destruct (Hc i code Hi) as (p & rank & Hp & Hrank & Hmap & ->).
  exists p, rank. split; [done|]. split; [done|]. split; [|done].
  apply lookup_lt_Some in Hrank. lia.
Qed.

(** Sparse targets cannot hold the label 0, and the phoneme dispenser
    gives that label to the first phoneme in the order of [str]: where a
    transcription has this phoneme its code is 0, and the sparse tensor
    of any batch with the transcription lists no entry at that
    position. *)
Theorem sparse_targets_lose_first_phoneme (size : nat) (lines : list string)
    (num_labels : nat) (max_time : option Z)
    (utt_id : string) (targets : list string) (t : nat) (p : string) :
  num_labels = length (remove_dups (corpus_words lines)) →
  utt_words lines utt_id = Some targets →
  targets !! t = Some p →
  (∀ q, q ∈ corpus_words lines → string_le p q) →
  ∃ self codes,
    PhonemeTextDispenser.init size lines num_labels max_time false = Ok self ∧
    PhonemeTextDispenser.encode self targets = Ok codes ∧
    codes !! t = Some 0%Z ∧
    ∀ target_list b indices vals shape,
      target_list !! b = Some codes →
      BatchDispenser.target_list_to_sparse_tensor target_list
      = Ok (indices, vals, shape) →
      [b; t] ∉ indices.
Proof.
  intros Hn Hw Hp Hleast.
  destruct (phoneme_init_encodes size lines num_labels max_time false
              utt_id targets Hn Hw)
    as (self & phones & codes & Hinit & Hs & Hnd & Hin & _ & _ & Henc & Hl & Hc).
  exists self, codes. split; [done|]. split; [done|].
  assert (codes !! t = Some 0%Z) as Hzero.
  { destruct (lookup_lt_is_Some_2 codes t) as [code Hcode];
      [rewrite Hl; by eapply lookup_lt_Some|].
    destruct (Hc t code Hcode) as (p' & rank & Hp' & Hrank & _ & ->).
    rewrite Hp in Hp'. injection Hp' as <-. rewrite Hcode. f_equal.
    destruct rank as [|rank]; [done|]. exfalso.
    destruct phones as [|q0 rest]; [done|]. cbn in Hrank.
    apply StronglySorted_inv in Hs as [_ Hq0].
    apply NoDup_cons in Hnd as [Hnotin _].
    assert (string_le q0 p) as Hle1
      by (apply (Forall_lookup_1 _ _ _ _ Hq0 Hrank)).
    assert (string_le p q0) as Hle2 by (apply Hleast, Hin; by left).
    apply Hnotin. apply list_elem_of_lookup_2 in Hrank.
    replace q0 with p; [done|].
    apply String.leb_antisym; by apply Is_true_true. }
  split; [done|].
  intros target_list b indices vals shape Hb. rewrite sparse_tensor_eq.
  destruct (np_max _) as [max_len|]; [|done]. cbn [mbind result_bind].
  intros [= <- _ _] Hel.
  apply list_elem_of_fmap in Hel as ([[t_i seq_i] val] & [= <- <-] & Hel).
  apply elem_of_nonzero_positions in Hel as (target & Htarget & Hval & Hne).
  rewrite Hb in Htarget. injection Htarget as <-. congruence.
Qed.

(** ** Batches that are refused *)

Section batch_errors.
Context {F : Type} (zero one : F).
Import BatchDispenser.

(** A batch of exactly [size] well-formed inputs is assembled, and the
    two loops end in their invariants. *)
Lemma data_lists_to_batch_returns {Tok} (self : t Tok)
    (input_list : list (ndarray2 F)) (target_list : list (list Z))
    (n_features : nat) (target_data : target_data) :
  length input_list = size self →
  Forall (λ inp, wf2 inp ∧ (shape2 inp).1 = n_features) input_list →
  0 < size self →
  length target_list = size self →
  (∀ m, max_time self = Some m →
        Forall (λ inp, (Z.of_nat (shape2 inp).2 ≤ m)%Z) input_list) →
  encode_targets zero one self target_list target_list = Ok target_data →
  ∃ inputs sequence_lengths,
    data_lists_to_batch zero one self input_list target_list
    = Ok (inputs, target_data, sequence_lengths) ∧
    inputs_inv zero input_list target_list (size self) n_features
               (expected_max_steps self input_list) (size self)
               (inputs, target_list) ∧
    lengths_inv input_list (size self) (size self) sequence_lengths.
Proof.
  intros Hsize Hinputs Hpos Htl Hcap Htargets.
  assert (length (batch_items_of (size self) (length input_list)) = size self)
    as Hitems by (rewrite items_length; lia).
  rewrite data_lists_to_batch_eq.
  unfold py_assert. rewrite bool_decide_eq_true_2 by lia.
  cbn [mbind result_bind]. unfold getitem at 1.
  destruct (lookup_lt_is_Some_2 input_list 0) as [inp0 Hinp0]; [lia|].
  rewrite Hinp0. cbn [mbind result_bind]. cbv zeta.
  destruct (Forall_lookup_1 _ _ _ _ Hinputs Hinp0) as [_ Hnf0].
  destruct (length_loop_returns input_list (size self)) as (lens & Hlens & Hlinv).
  rewrite Hlens. cbn [mbind result_bind].
  assert (0 ≤ max_steps_of self input_list)%Z as Hnonneg.
  { unfold max_steps_of. destruct (max_time self) as [m|] eqn:Hm; [|lia].
    specialize (Hcap m eq_refl).
    apply (Forall_lookup_1 _ _ _ _ Hcap) in Hinp0. lia. }
  rewrite decide_False by lia. cbn [mbind result_bind].
  destruct (max_steps_of_nat self input_list Hnonneg) as [HZ Hnat].
  rewrite Hnat, Hnf0, HZ.
  destruct (pad_loop_returns zero input_list target_list (size self) n_features
              (expected_max_steps self input_list) Hinputs) as [st Hst].
  { unfold expected_max_steps. destruct (max_time self) as [m|] eqn:Hm.
    - eapply Forall_impl; [exact (Hcap m eq_refl)|]. intros inp Hle.
      simpl in Hle. lia.
    - apply Forall_forall. intros inp Hin.
      by apply (max_list_with_le (λ inp, (shape2 inp).2)). }
  { lia. }
  rewrite Hst. cbn [mbind result_bind].
  apply (pad_loop_inv zero _ _ _ _ _ Hinputs) in Hst.
  rewrite Hitems in Hst, Hlinv. pose proof Hst as (_ & _ & Hst2 & _).
  rewrite take_ge in Hst2 by lia.
  rewrite Hst2, Htargets. cbn [mbind result_bind].
  exists st.1, lens. split; [done|]. split; [|done].
  destruct st as [inputs tl]. cbn [fst snd] in *. by subst tl.
Qed.

(** [data_lists_to_batch] refuses lists of different lengths with
    [AssertionError], two empty lists with [IndexError], and a negative
    cap on the time steps with [ValueError]: none of them is a batch. *)
Theorem data_lists_to_batch_refuses {Tok} (self : t Tok)
    (input_list : list (ndarray2 F)) (target_list : list (list Z)) :
  if decide (length input_list = length target_list)
  then match input_list, max_time self with
       | [], _ =>
           data_lists_to_batch zero one self input_list target_list
           = Raise IndexError
       | _ :: _, Some m =>
           if decide (m < 0)%Z
           then data_lists_to_batch zero one self input_list target_list
                = Raise (ValueError "negative dimensions are not allowed")
           else True
       | _ :: _, None => True
       end
  else data_lists_to_batch zero one self input_list target_list
       = Raise AssertionError.
Proof.
  rewrite data_lists_to_batch_eq. unfold py_assert. case_decide as Hlen.
  - rewrite bool_decide_eq_true_2 by done. cbn [mbind result_bind].
    destruct input_list as [|inp0 input_list]; [done|].
    destruct (max_time self) as [m|] eqn:Hm; [|done].
    case_decide as Hneg; [|done].
    unfold getitem at 1. cbn [lookup list_lookup mbind result_bind]. cbv zeta.
    destruct (length_loop_returns (inp0 :: input_list) (size self))
      as (lens & -> & _).
    cbn [mbind result_bind]. unfold max_steps_of. rewrite Hm.
    by rewrite decide_True by done.
  - by rewrite bool_decide_eq_false_2 by done.
Qed.

(** An input of the batch that is longer than the cap on the time steps
    is refused: [np.pad] is asked for a negative pad and raises
    [ValueError]. *)
Theorem data_lists_to_batch_over_cap {Tok} (self : t Tok)
    (input_list : list (ndarray2 F)) (target_list : list (list Z))
    (n_features : nat) (m : Z) (b : nat) (inp : ndarray2 F) :
  length input_list = length target_list →
  Forall (λ inp, wf2 inp ∧ (shape2 inp).1 = n_features) input_list →
  max_time self = Some m → (0 ≤ m)%Z →
  input_list !! b = Some inp → b < size self →
  (m < Z.of_nat (shape2 inp).2)%Z →
  data_lists_to_batch zero one self input_list target_list
  = Raise (ValueError "index can't contain negative values").
Proof.
  intros Hlen Hinputs Hm Hnonneg Hb Hsize Hover.
  rewrite data_lists_to_batch_eq. unfold py_assert.
  rewrite bool_decide_eq_true_2 by done. cbn [mbind result_bind].
  unfold getitem at 1.
  destruct (lookup_lt_is_Some_2 input_list 0) as [inp0 Hinp0];
    [apply lookup_lt_Some in Hb; lia|].
  rewrite Hinp0. cbn [mbind result_bind]. cbv zeta.
  destruct (Forall_lookup_1 _ _ _ _ Hinputs Hinp0) as [_ Hnf0].
  destruct (length_loop_returns input_list (size self)) as (lens & -> & _).
  cbn [mbind result_bind].
  assert (max_steps_of self input_list = Z.of_nat (Z.to_nat m)) as ->
    by (unfold max_steps_of; rewrite Hm; lia).
  rewrite decide_False by lia. cbn [mbind result_bind].
  rewrite Nat2Z.id, Hnf0.
  destruct (for_each_cases
              (λ i st, inputs_inv zero input_list target_list (size self)
                                  n_features (Z.to_nat m) i st ∧
                       ∀ j inp', j < i → input_list !! j = Some inp' →
                                 (shape2 inp').2 ≤ Z.to_nat m)
              (pad_step zero input_list target_list (Z.of_nat (Z.to_nat m)))
              (batch_items_of (size self) (length input_list))
              (np_zeros3 zero (Z.to_nat m, size self, n_features), [])
              (ValueError "index can't contain negative values"))
    as [(st & _ & _ & Hall)| ->]; [| | |done].
  - split; [apply inputs_inv_zeros|]. intros j inp' Hj. lia.
  - intros i x st Hx [Hinv Hbefore].
    apply items_lookup in Hx as (-> & Hi & Hn).
    destruct (lookup_lt_is_Some_2 input_list i Hn) as [inp' Hinp'].
    destruct (decide ((shape2 inp').2 ≤ Z.to_nat m)) as [Hle|Hgt].
    + left.
      destruct (pad_step_progress zero input_list target_list (size self)
                  n_features (Z.to_nat m) Hinputs i st inp')
        as [st' Hst']; [done..|lia|].
      exists st'. split; [done|]. split.
      * by eapply pad_step_preserves.
      * intros j inp'' Hj Hinp''. destruct (decide (j = i)) as [->|Hne].
        -- congruence.
        -- apply (Hbefore j); [lia|done].
    + right. unfold pad_step, getitem. cbn [fst snd]. rewrite Hinp'.
      cbn [mbind result_bind]. unfold np_pad_rows.
      by rewrite decide_True by lia.
  - exfalso. rewrite items_length in Hall.
    pose proof (lookup_lt_Some _ _ _ Hb) as Hb'.
    specialize (Hall b inp ltac:(lia) Hb). lia.
Qed.
End batch_errors.

(** ** Dispensing batches *)

Section get_batch.
Context {F : Type} (zero one : F).
Context {Reader : Type}.
Context (get_utt : Reader → result (string * ndarray2 F * Reader)).
Context {Tok : Type} (encode : list Tok → result (list Z)).
Import BatchDispenser.

Lemma read_utt_eq (self : t Tok) reader input_list target_list elmnt_cnt :
  read_utt get_utt encode self (reader, input_list, target_list) elmnt_cnt
  = (x ← get_utt reader;
     transcription ← dict_getitem (text_dict self) x.1.1;
     encoded_target ← encode transcription;
     Ok (x.2, input_list ++ [transpose x.1.2], target_list ++ [encoded_target])).
Proof.
  unfold read_utt. destruct (get_utt reader) as [[[utt_id utt_mat] next]|]; done.
Qed.

(** The reads of [get_batch] while every utterance has a transcription
    that can be encoded. *)
Lemma read_loop (self : t Tok) (utts : list (string * ndarray2 F)) :
  ∀ (items : list nat) reader reader' targets input_list target_list,
    length items = length utts →
    delivers get_utt reader utts reader' →
    Forall2 (λ utt codes, ∃ transcription,
               text_dict self !! utt.1 = Some transcription ∧
               encode transcription = Ok codes) utts targets →
    for_each items (reader, input_list, target_list)
             (read_utt get_utt encode self)
    = Ok (reader', input_list ++ ((λ utt, transpose utt.2) <$> utts),
          target_list ++ targets).
Proof.
  induction utts as [|utt utts IH];
    intros items reader reader' targets input_list target_list Hlen Hd Hall.
  - destruct items; [|done]. apply Forall2_nil_inv_l in Hall as ->.
    simpl in Hd. subst reader'. by rewrite !app_nil_r.
  - destruct items as [|item items]; [done|].
    apply Forall2_cons_inv_l in Hall
      as (codes & targets' & (tr & Htr & Hcodes) & Hall & ->).
    destruct Hd as (next & Hget & Hd).
    rewrite for_each_cons, read_utt_eq, Hget.
    cbn [mbind result_bind fst snd]. unfold dict_getitem. rewrite Htr.
    cbn [mbind result_bind]. rewrite Hcodes. cbn [mbind result_bind].
    rewrite (IH items next reader' targets'); [|by injection Hlen|done|done].
    by rewrite <- !app_assoc.
Qed.

(** The reads stop at the first utterance without a transcription. *)
Lemma read_loop_missing (self : t Tok) (utts : list (string * ndarray2 F))
    (utt : string * ndarray2 F) :
  ∀ (items : list nat) reader reader' targets input_list target_list,
    length utts < length items →
    delivers get_utt reader (utts ++ [utt]) reader' →
    Forall2 (λ utt codes, ∃ transcription,
               text_dict self !! utt.1 = Some transcription ∧
               encode transcription = Ok codes) utts targets →
    text_dict self !! utt.1 = None →
    for_each items (reader, input_list, target_list)
             (read_utt get_utt encode self)
    = Raise KeyError.
Proof.
  induction utts as [|utt' utts IH];
    intros items reader reader' targets input_list target_list Hlen Hd Hall Hmiss.
  - destruct items as [|item items]; [simpl in Hlen; lia|].
    destruct Hd as (next & Hget & _).
    rewrite for_each_cons, read_utt_eq, Hget.
    cbn [mbind result_bind fst snd]. unfold dict_getitem. by rewrite Hmiss.
  - destruct items as [|item items]; [simpl in Hlen; lia|].
    apply Forall2_cons_inv_l in Hall
      as (codes & targets' & (tr & Htr & Hcodes) & Hall & ->).
    destruct Hd as (next & Hget & Hd).
    rewrite for_each_cons, read_utt_eq, Hget.
    cbn [mbind result_bind fst snd]. unfold dict_getitem. rewrite Htr.
    cbn [mbind result_bind]. rewrite Hcodes. cbn [mbind result_bind].
    apply (IH items next reader' targets'); [simpl in Hlen; lia|done..].
Qed.

(** [get_batch] raises [KeyError] when one of the [size] utterances it
    reads has an id that starts no line of the transcript file, the
    utterances before it having transcriptions that can be encoded. *)
Theorem get_batch_missing_transcription (self : t Tok)
    (utts : list (string * ndarray2 F)) (utt : string * ndarray2 F)
    (targets : list (list Z)) (reader reader' : Reader) :
  length utts < size self →
  delivers get_utt reader (utts ++ [utt]) reader' →
  Forall2 (λ utt codes, ∃ transcription,
             text_dict self !! utt.1 = Some transcription ∧
             encode transcription = Ok codes) utts targets →
  text_dict self !! utt.1 = None →
  get_batch zero one get_utt encode self reader = Raise KeyError.
Proof.
  intros Hlen Hd Hall Hmiss. unfold get_batch.
  rewrite (read_loop_missing self utts utt _ reader reader' targets); [done| |done..].
  by rewrite range_length.
Qed.

(** When all [size] utterances have transcriptions that can be encoded,
    [get_batch] is [data_lists_to_batch] on the transposed matrices and
    the encoded transcriptions, and the reader has moved [size]
    utterances on. *)
Lemma get_batch_eq (self : t Tok) (utts : list (string * ndarray2 F))
    (targets : list (list Z)) (reader reader' : Reader) :
  length utts = size self →
  delivers get_utt reader utts reader' →
  Forall2 (λ utt codes, ∃ transcription,
             text_dict self !! utt.1 = Some transcription ∧
             encode transcription = Ok codes) utts targets →
  get_batch zero one get_utt encode self reader
  = (batch ← data_lists_to_batch zero one self
               ((λ utt, transpose utt.2) <$> utts) targets;
     Ok (batch, reader')).
Proof.
  intros Hlen Hd Hall. unfold get_batch.
  rewrite (read_loop self utts _ reader reader' targets); [done| |done..].
  by rewrite range_length.
Qed.
End get_batch.

(** Moving back undoes moving on: with a reader whose [prevId] undoes
    its [nextId], [return_batch] after [skip_batch] leaves the reader
    where it was. *)
Theorem return_batch_after_skip_batch {Reader Tok : Type}
    (nextId prevId : Reader → result (string * Reader))
    (self : BatchDispenser.t Tok) (reader reader' : Reader) :
  (∀ r r' utt_id, nextId r = Ok (utt_id, r') → ∃ utt_id', prevId r' = Ok (utt_id', r)) →
  skip_batch nextId self reader = Ok reader' →
  return_batch prevId self reader' = Ok reader.
Proof.
  intros Hundo. unfold skip_batch, return_batch.
  generalize (range 0 (BatchDispenser.size self)). intros items.
  assert (∀ (items' : list nat) r r',
            length items' = length items →
            for_each items r
              (λ reader _, '(_, reader) ← nextId reader; Ok reader) = Ok r' →
            for_each items' r'
              (λ reader _, '(_, reader) ← prevId reader; Ok reader) = Ok r) as Hgen.
  { induction items as [|item items IH] using rev_ind; intros items' r r' Hlen.
    - destruct items'; [|done]. by intros [= ->].
    - rewrite for_each_snoc.
      destruct (for_each items r _) as [mid|] eqn:Hmid; [|done].
      cbn [mbind result_bind].
      destruct (nextId mid) as [[utt_id next]|] eqn:Hnext; [|done].
      cbn [mbind result_bind]. intros [= ->].
      destruct items' as [|item' items'];
        [rewrite length_app in Hlen; simpl in Hlen; lia|].
      rewrite for_each_cons.
      destruct (Hundo _ _ _ Hnext) as [utt_id' ->]. cbn [mbind result_bind].
      apply IH; [|done]. rewrite length_app in Hlen. simpl in *. lia. }
  by apply Hgen.
Qed.

(** ** A batch of the character dispenser, from the file to the arrays *)

Lemma Forall_exists_Forall2 {A B} (R : A → B → Prop) (l : list A) :
  Forall (λ x, ∃ y, R x y) l → ∃ k, Forall2 R l k.
Proof.
  induction 1 as [|x l [y Hy] _ [k Hk]]; [by exists []|].
  exists (y :: k). by constructor.
Qed.

Lemma max_list_with_fmap {A B} (f : B → nat) (g : A → B) (l : list A) :
  max_list_with f (g <$> l) = max_list_with (λ x, f (g x)) l.
Proof.
  induction l as [|x l IH]; [done|].
  rewrite fmap_cons. cbn [max_list_with]. by rewrite IH.
Qed.

Section character_batch.
Context {F : Type} (zero one : F).
Context {Reader : Type}.
Context (get_utt : Reader → result (string * ndarray2 F * Reader)).
Import BatchDispenser.

(** A character dispenser with one-hot targets and at least
    [target_label_no] labels always dispenses: when the reader hands out
    [size] well-formed matrices (time steps by [n_features]) whose ids
    start a line of the transcript file, and none is longer than the cap,
    [get_batch] returns. The inputs have shape (max_steps, size,
    n_features) and hold utterance [b] in column [b], followed by zeros;
    the sequence lengths are the numbers of time steps; the targets have
    shape (longest transcription, size, num_labels) and hold a one at
    time [t], column [b] and label [c] exactly when [c] is the code of
    token [t] of the normalized transcription of utterance [b]. The
    reader has moved [size] utterances on. *)
Theorem utt_dispenser_get_batch (size : nat) (lines : list string)
    (num_labels : nat) (max_time : option Z) (n_features : nat)
    (utts : list (string * ndarray2 F)) (reader reader' : Reader) :
  0 < size → length utts = size →
  UttTextDispenser.target_label_no ≤ num_labels →
  delivers get_utt reader utts reader' →
  Forall (λ utt, is_Some (utt_words lines utt.1) ∧
                 wf2 utt.2 ∧ (shape2 utt.2).2 = n_features) utts →
  (∀ m, max_time = Some m →
        Forall (λ utt, (Z.of_nat (shape2 utt.2).1 ≤ m)%Z) utts) →
  ∃ self inputs target_mat codes,
    UttTextDispenser_init size lines num_labels max_time true = Ok self ∧
    get_batch zero one get_utt UttTextDispenser.encode self reader
    = Ok (inputs, OneHot target_mat, (λ utt, (shape2 utt.2).1) <$> utts, reader') ∧
    shape3 inputs
    = (match max_time with
       | Some m => Z.to_nat m
       | None => max_list_with (λ utt, (shape2 utt.2).1) utts
       end, size, n_features) ∧
    (∀ b utt t f x,
       utts !! b = Some utt → get3 inputs t b f = Some x →
       if decide (t < (shape2 utt.2).1) then get2 utt.2 t f = Some x
       else x = zero) ∧
    Forall2 (λ utt cs, ∃ words targets,
               utt_words lines utt.1 = Some words ∧
               UttTextDispenser.normalize_targets words = Ok targets ∧
               UttTextDispenser.encode targets = Ok cs) utts codes ∧
    shape3 target_mat = (max_list_with length codes, size, num_labels) ∧
    ∀ t b c,
      t < max_list_with length codes → b < size → c < num_labels →
      get3 target_mat t b c
      = Some (if decide (code_at codes b t = Some (Z.of_nat c))
              then one else zero).
Proof.
  intros Hpos Hlen Hlabels Hd Hutts Hcap.
  unfold UttTextDispenser_init. rewrite init_eq.
  destruct (read_lines_returns UttTextDispenser.normalize_targets lines)
    as [text_dict Hdict].
  { intros line _. rewrite normalize_targets_eq. by eexists. }
  rewrite Hdict. cbn [mbind result_bind].
  set (self := Build num_labels lines text_dict size max_time true).
  exists self.
  (* the transcriptions and their codes *)
  destruct (Forall_exists_Forall2
              (λ (utt : string * ndarray2 F) cs,
                 (∃ words targets,
                    utt_words lines utt.1 = Some words ∧
                    UttTextDispenser.normalize_targets words = Ok targets ∧
                    UttTextDispenser.encode targets = Ok cs) ∧
                 (∃ transcription,
                    text_dict !! utt.1 = Some transcription ∧
                    UttTextDispenser.encode transcription = Ok cs) ∧
                 Forall (λ code, 0 ≤ code
                           < Z.of_nat UttTextDispenser.target_label_no)%Z cs)
              utts) as [codes Hcodes].
  { eapply Forall_impl; [exact Hutts|]. intros utt ([words Hwords] & _).
    pose proof (normalize_targets_eq words) as Hn.
    set (targets := UttTextDispenser.check_unknowns _) in Hn.
    destruct (allowed_codes_in_range targets) as (cs & Hc & _ & Hr);
      [apply check_unknowns_allowed|].
    exists cs. split; [by exists words, targets|]. split; [|done].
    exists targets. split; [|done].
    apply (read_lines_lookup _ _ _ Hdict). by exists words. }
  assert (length codes = size) as Hclen
    by (rewrite <- Hlen; symmetry; by eapply Forall2_length).
  (* the reads *)
  pose proof (get_batch_eq zero one get_utt UttTextDispenser.encode self utts
                codes reader reader' Hlen Hd) as Hget.
  rewrite Hget; last first.
  { eapply Forall2_impl; [exact Hcodes|]. by intros utt cs (_ & ? & _). }
  clear Hget.
  (* the targets *)
  destruct (target_list_to_one_hot_returns zero one self codes)
    as (target_mat & Hmat & Hmshape & _ & Hmget).
  { apply Forall_forall. intros [b cs] Hx.
    apply list_elem_of_lookup in Hx as [i Hx].
    apply enumerate_lookup in Hx as [Hb Hcs]. cbn [fst snd] in Hb, Hcs. subst i.
    right. cbn [fst snd]. split; [apply lookup_lt_Some in Hcs; simpl; lia|].
    destruct (Forall2_lookup_r _ _ _ _ _ Hcodes Hcs) as (utt & _ & _ & _ & Hr).
    eapply Forall_impl; [exact Hr|]. intros code Hcode.
    unfold index_ok. cbn [BatchDispenser.num_labels self]. cbv beta in Hcode. lia. }
  (* the inputs *)
  set (input_list := (λ utt : string * ndarray2 F, transpose utt.2) <$> utts).
  destruct (data_lists_to_batch_returns zero one self input_list codes n_features
              (OneHot target_mat))
    as (inputs & lens & Hbatch & (Hshape & _ & _ & Hzero & Hdata) & Hlinv & Hlset).
  { unfold input_list. by rewrite length_fmap. }
  { unfold input_list. apply Forall_fmap.
    eapply Forall_impl; [exact Hutts|]. intros utt (_ & Hwf & Hnf).
    cbn. split; [by apply transpose_wf|done]. }
  { done. }
  { done. }
  { intros m Hm. unfold input_list. apply Forall_fmap.
    eapply Forall_impl; [exact (Hcap m Hm)|]. by intros utt Hle. }
  { unfold encode_targets. cbn [one_hot_encoding self]. fold self.
    by rewrite Hmat. }
  rewrite Hbatch. cbn [mbind result_bind].
  cbn [fst snd] in Hshape, Hzero, Hdata.
  assert (lens = (λ utt : string * ndarray2 F, (shape2 utt.2).1) <$> utts) as ->.
  { apply list_eq. intros b. rewrite list_lookup_fmap.
    destruct (decide (b < size)) as [Hb|Hb].
    - rewrite (Hlset b Hb). unfold input_list. rewrite list_lookup_fmap.
      by destruct (utts !! b).
    - cbn [BatchDispenser.size self] in Hlinv.
      rewrite (proj2 (lookup_ge_None lens b)) by lia.
      by rewrite (proj2 (lookup_ge_None utts b)) by lia. }
  exists inputs, target_mat, codes.
  split; [done|]. split; [done|]. split.
  { rewrite Hshape. unfold expected_max_steps. cbn [BatchDispenser.max_time self].
    destruct max_time; [done|].
    unfold input_list. by rewrite max_list_with_fmap. }
  split.
  { intros b utt t f x Hutt Hx.
    assert (input_list !! b = Some (transpose utt.2)) as Hinp
      by (unfold input_list; by rewrite list_lookup_fmap, Hutt).
    destruct (Forall_lookup_1 _ _ _ _ Hutts Hutt) as (_ & Hwf & Hnf).
    assert (b < BatchDispenser.size self) as Hb
      by (apply lookup_lt_Some in Hutt; cbn [BatchDispenser.size self]; lia).
    case_decide as Ht.
    - rewrite <- Hx.
      rewrite (Hdata t b f (transpose utt.2)); [|done..].
      assert (f < n_features) as Hf.
      { destruct (decide (f < n_features)) as [|Hge]; [done|]. exfalso.
        rewrite (Hdata t b f (transpose utt.2)) in Hx; [|done..].
        destruct (transpose_wf utt.2 Hwf) as [[Hl _] _].
        cbn [transpose shape2 fst snd] in Hl.
        rewrite (proj2 (lookup_ge_None _ f)) in Hx by lia. done. }
      destruct (transpose_wf utt.2 Hwf) as [_ Htr].
      rewrite (Htr f t) by lia. done.
    - destruct (Hzero t b f x Hx) as [->|(inp & _ & Hinp' & Ht')]; [done|].
      rewrite Hinp in Hinp'. injection Hinp' as <-.
      cbn [transpose shape2 fst snd] in Ht'. lia. }
  split.
  { eapply Forall2_impl; [exact Hcodes|]. by intros utt cs (? & _). }
  split; [done|].
  intros t b c Ht Hb Hc. rewrite (Hmget t b c Ht Hb Hc). f_equal.
  apply if_decide_iff. cbn [BatchDispenser.num_labels self].
  destruct (code_at codes b t) as [code|] eqn:Hcode; [|done].
  cbn. unfold wrap_index. case_decide as Hneg; [|done].
  exfalso. unfold code_at in Hcode.
  destruct (codes !! b) as [cs|] eqn:Hcs; [|done]. cbn in Hcode.
  destruct (Forall2_lookup_r _ _ _ _ _ Hcodes Hcs) as (utt & _ & _ & _ & Hr).
  apply (Forall_lookup_1 _ _ _ _ Hr) in Hcode. lia.
Qed.
End character_batch.

(** ** The layers of a feed-forward network *)

Lemma range_snoc (n : nat) : range 0 (S n) = range 0 n ++ [n].
Proof. unfold range. rewrite !Nat.sub_0_r. by rewrite seq_S. Qed.

Section feed_forward.
Context {Activation : Type} (identity_activation : Activation).
Import FeedForwardNetwork.

Lemma hidden_layers_loop (layer : option (FFLayer (Activation:=Activation)))
    (k j : nat) :
  j ≤ k →
  for_each (range 0 j) (replicate (S k) None)
           (λ layers i, setitem1 layers i layer)
  = Ok (replicate j layer ++ replicate (S k - j) None).
Proof.
  induction j as [|j IH]; intros Hj.
  - by rewrite Nat.sub_0_r.
  - rewrite range_snoc, for_each_snoc, IH by lia. cbn [mbind result_bind].
    unfold setitem1. rewrite decide_False
      by (rewrite length_app, !length_replicate; lia).
    f_equal. replace (S k - j) with (S (k - j)) by lia.
    replace (S k - S j) with (k - j) by lia.
    rewrite (replicate_S_end j layer), <- app_assoc.
    rewrite insert_app_r_alt by (rewrite length_replicate; lia).
    rewrite length_replicate, Nat.sub_diag. done.
Qed.

(** A network built for a number of hidden layers that is not negative
    has that many hidden layers, each with [num_hidden_units] units and
    the given activation, followed by one output layer with
    [output_dim] units and the identity activation; nothing has been
    called yet, so [reuse] is [None]. A negative number of hidden layers
    leaves no slot for the output layer and raises [IndexError]. *)
Theorem feed_forward_network_layers (dimension : FFNetDimension)
    (activation : Activation) (name : string) :
  if decide (0 ≤ num_hidden_layers dimension)%Z
  then init identity_activation dimension activation name
       = Ok (Build dimension activation name None
               (replicate (Z.to_nat (num_hidden_layers dimension))
                          (Some (Layer (num_hidden_units dimension) activation))
                ++ [Some (Layer (output_dim dimension) identity_activation)]))
  else init identity_activation dimension activation name = Raise IndexError.
Proof.
  unfold init. case_decide as Hn.
  - replace (Z.to_nat (num_hidden_layers dimension + 1))
      with (S (Z.to_nat (num_hidden_layers dimension))) by lia.
    set (k := Z.to_nat (num_hidden_layers dimension)).
    rewrite length_replicate. cbn [Nat.sub]. rewrite Nat.sub_0_r.
    rewrite hidden_layers_loop by done. cbn [mbind result_bind].
    replace (S k - k) with 1 by lia. cbn [replicate].
    by rewrite set_last_snoc.
  - replace (Z.to_nat (num_hidden_layers dimension + 1)) with 0 by lia.
    done.
Qed.
End feed_forward.

(** ** The data type of a state container *)

Section dtype_loops.
Context {DType : Type} `{!EqDecision DType} (str : DType → string).
Context {A : Type} (dtype : A → las_exn + DType).

Lemma dtype_loop_snoc (self : list A) (items : list nat) (i : nat) :
  dtype_loop str dtype self (items ++ [i])
  = match dtype_loop str dtype self items with
    | inl e => inl e
    | inr _ => dtype_round str dtype self i
    end.
Proof. unfold dtype_loop. by rewrite foldl_snoc. Qed.

(** A round passes exactly when the two entries it reads have the same
    data type. *)
Lemma dtype_round_passes (self : list A) (i : nat) :
  dtype_round str dtype self i = inr tt
  ↔ ∃ x y d, self !! (i - 1) = Some x ∧ self !! i = Some y ∧
             dtype x = inr d ∧ dtype y = inr d.
Proof.
  unfold dtype_round. split.
  - destruct (self !! (i - 1)) as [x|]; [|done].
    destruct (dtype x) as [|a] eqn:Ha; [done|].
    destruct (self !! i) as [y|]; [|done].
    destruct (dtype y) as [|b] eqn:Hb; [done|].
    case_decide as Hab; [done|]. intros _.
    exists x, y, a. split_and!; try done. rewrite Hb. f_equal.
    destruct (decide (a = b)); [done|]. by destruct Hab.
  - intros (x & y & d & -> & -> & -> & ->). by rewrite decide_False by auto.
Qed.

Lemma dtype_loop_passes (self : list A) (m : nat) :
  dtype_loop str dtype self (seq 1 m) = inr tt
  ↔ ∀ i, 1 ≤ i ≤ m → dtype_round str dtype self i = inr tt.
Proof.
  induction m as [|m IH].
  - split; [intros _ i Hi; lia|done].
  - rewrite seq_S, dtype_loop_snoc. cbn [Nat.add].
    destruct (dtype_loop str dtype self (seq 1 m)) as [e|[]] eqn:Hloop.
    + split; [done|]. intros Hall.
      assert (@inl las_exn unit e = inr tt) as Habs; [|done].
      apply IH. intros i Hi. apply Hall. lia.
    + split.
      * intros Hm i Hi. destruct (decide (i = S m)) as [->|Hne]; [done|].
        apply (proj1 IH eq_refl). lia.
      * intros Hall. apply Hall. lia.
Qed.

(** The container has a data type exactly when it is not empty and all
    its entries have that data type. *)
Lemma dtype_of_returns (self : list A) (d : DType) :
  dtype_of str dtype self = inr d
  ↔ self ≠ [] ∧ Forall (λ x, dtype x = inr d) self.
Proof.
  unfold dtype_of, range.
  destruct self as [|x self]; [by split; [|intros [? _]]|].
  cbn [length lookup list_lookup]. rewrite Nat.sub_succ, Nat.sub_0_r.
  destruct (dtype_loop str dtype (x :: self) (seq 1 (length self))) as [e|[]] eqn:Hloop.
  - split; [done|]. intros [_ Hall]. exfalso.
    assert (@inl las_exn unit e = inr tt) as Habs; [|done].
    rewrite <- Hloop. apply dtype_loop_passes. intros i Hi.
    apply dtype_round_passes.
    destruct (lookup_lt_is_Some_2 (x :: self) (i - 1)) as [a Ha]; [simpl; lia|].
    destruct (lookup_lt_is_Some_2 (x :: self) i) as [b Hb]; [simpl; lia|].
    exists a, b, d. split_and!; try done.
    + by apply (Forall_lookup_1 _ _ _ _ Hall Ha).
    + by apply (Forall_lookup_1 _ _ _ _ Hall Hb).
  - pose proof (proj1 (dtype_loop_passes _ _) Hloop) as Hall. split.
    + intros Hx. split; [done|]. apply Forall_lookup. intros i.
      induction i as [|i IHi]; intros a Ha.
      * injection Ha as <-. done.
      * assert (S i ≤ length self) as Hi
          by (apply lookup_lt_Some in Ha; simpl in Ha; lia).
        destruct (proj1 (dtype_round_passes _ _) (Hall (S i) ltac:(lia)))
          as (u & v & d' & Hu & Hv & Hdu & Hdv).
        cbn [Nat.sub] in Hu. rewrite Nat.sub_0_r in Hu.
        rewrite Ha in Hv. injection Hv as <-.
        specialize (IHi u Hu). cbv beta in IHi. congruence.
    + intros [_ Hforall]. by apply Forall_cons in Hforall as [? _].
Qed.
End dtype_loops.

Section dtype_total.
Context {DType : Type} `{!EqDecision DType} (str : DType → string).
Context {A : Type} (dt : A → DType).

(** [RNNStateList.dtype] over entries that have a data type: the list
    has the data type of its entries when they all agree; an empty list
    raises [IndexError]; otherwise the first two neighbours that differ
    raise the [TypeError] that names their data types. *)
Theorem state_list_dtype (self : list A) :
  match dtype_of str (λ x, inr (dt x)) self with
  | inr d => self ≠ [] ∧ Forall (λ x, dt x = d) self
  | inl e =>
      (self = [] ∧ e = Builtin IndexError) ∨
      ∃ i a b, self !! i = Some a ∧ self !! S i = Some b ∧
               dt a ≠ dt b ∧
               Forall (λ x, dt x = dt a) (take (S i) self) ∧
               e = inconsistent str (dt a) (dt b)
  end.
Proof.
  destruct (dtype_of str (λ x, inr (dt x)) self) as [e|d] eqn:Hd.
  - destruct self as [|x self]; [left; split; [done|]|right].
    { unfold dtype_of in Hd. simpl in Hd. by injection Hd as <-. }
    unfold dtype_of, range in Hd. cbn [length lookup list_lookup] in Hd.
    rewrite Nat.sub_succ, Nat.sub_0_r in Hd.
    assert (∀ m, m ≤ length self →
              (dtype_loop str (λ x, inr (dt x)) (x :: self) (seq 1 m) = inr tt ∧
               Forall (λ y, dt y = dt x) (take (S m) (x :: self))) ∨
              ∃ i a b, (x :: self) !! i = Some a ∧ (x :: self) !! S i = Some b ∧
                       dt a ≠ dt b ∧
                       Forall (λ y, dt y = dt a) (take (S i) (x :: self)) ∧
                       dtype_loop str (λ x, inr (dt x)) (x :: self) (seq 1 m)
                       = inl (inconsistent str (dt a) (dt b))) as Hgen.
    { induction m as [|m IH]; intros Hm.
      - left. split; [done|]. cbn. by repeat constructor.
      - rewrite seq_S, dtype_loop_snoc. cbn [Nat.add].
        destruct IH as [[-> Hall]|(i & a & b & Ha & Hb & Hab & Hall & ->)]; [lia| |].
        + destruct (lookup_lt_is_Some_2 (x :: self) m) as [a Ha]; [simpl; lia|].
          destruct (lookup_lt_is_Some_2 (x :: self) (S m)) as [b Hb]; [simpl; lia|].
          unfold dtype_round. cbn [Nat.sub]. rewrite Nat.sub_0_r, Ha, Hb.
          assert (dt a = dt x) as Hax.
          { apply (Forall_lookup_1 _ _ m a Hall).
            rewrite lookup_take_lt by lia. done. }
          case_decide as Hab.
          * right. exists m, a, b. split_and!; try done.
            eapply Forall_impl; [exact Hall|]. intros y Hy. cbv beta in *. congruence.
          * left. split; [done|]. rewrite (take_S_r _ _ _ Hb).
            apply Forall_app. split; [done|]. constructor; [|done].
            destruct (decide (dt a = dt b)); [congruence|]. by destruct Hab.
        + right. by exists i, a, b. }
    destruct (Hgen (length self) ltac:(lia))
      as [[Hloop _]|(i & a & b & Ha & Hb & Hab & Hall & Hloop)].
    + by rewrite Hloop in Hd.
    + rewrite Hloop in Hd. injection Hd as <-. by exists i, a, b.
  - apply dtype_of_returns in Hd as [Hne Hall]. split; [done|].
    eapply Forall_impl; [exact Hall|]. by intros x [= ->].
Qed.

(** [StateTouple.dtype]: the state of the cell has a data type exactly
    when both lists of recurrent states are not empty and every
    recurrent state, the label and the context vector have that data
    type. *)
Theorem state_touple_dtype {Tensor : Type} (tensor_dtype : Tensor → DType)
    (pre_context_states post_context_states : list A)
    (one_hot_char context_vector : Tensor) (d : DType) :
  StateTouple_dtype str (λ x, inr (dt x)) tensor_dtype
                    pre_context_states post_context_states
                    one_hot_char context_vector = inr d
  ↔ pre_context_states ≠ [] ∧ post_context_states ≠ [] ∧
    Forall (λ x, dt x = d) pre_context_states ∧
    Forall (λ x, dt x = d) post_context_states ∧
    tensor_dtype one_hot_char = d ∧ tensor_dtype context_vector = d.
Proof.
  unfold StateTouple_dtype. rewrite dtype_of_returns.
  rewrite !Forall_cons, Forall_nil. unfold id.
  rewrite !dtype_of_returns.
  assert (∀ l : list A, Forall (λ x, @inr las_exn _ (dt x) = inr d) l
                        ↔ Forall (λ x, dt x = d) l) as Hinj.
  { intros l. apply Forall_proper; [|done]. intros x. split; [by intros [= ->]|by intros ->]. }
  rewrite !Hinj. split.
  - intros (_ & (? & ?) & (? & ?) & [= ?] & [= ?] & _). done.
  - intros (? & ? & ? & ? & -> & <-). done.
Qed.
End dtype_total.

(** ** The cell from construction to a step *)

Section cell_steps.
Context {Tensor RNNState : Type} `{!TensorOps Tensor} `{!Networks Tensor RNNState}.
Import AttendAndSpellCell.

(** [set_features] stores the features first and [psi] last, and
    leaves [type_two] as [__init__] set it. *)
Lemma set_features_outcome (target_label_no : nat)
    (high_lvl_features feature_seq_lengths : Tensor) :
  let set := set_features (init target_label_no)
                          high_lvl_features feature_seq_lengths in
  type_two set.1 = false ∧
  AttendAndSpellCell.target_label_no set.1 = target_label_no ∧
  AttendAndSpellCell.high_lvl_features set.1 = Some high_lvl_features ∧
  (set.2 = Ok tt ∨ (set.2 = Raise IndexError ∧ psi set.1 = None)) ∧
  (length (get_shape high_lvl_features) < 3 → set.2 = Raise IndexError).
Proof.
  intros set. subst set. unfold set_features, getitem.
  destruct (get_shape high_lvl_features !! 2) as [dim|] eqn:Hdim.
  - destruct (get_shape high_lvl_features !! 1) as [time|] eqn:Htime.
    + cbn. split_and!; try done; [by left|].
      intros Hrank. apply lookup_lt_Some in Hdim. lia.
    + apply lookup_lt_Some in Hdim. apply lookup_ge_None in Htime. lia.
  - cbn. split_and!; try done. by right.
Qed.

(** The life of a cell built by [__init__], over tensors of known
    shape. Features with fewer than three dimensions are refused by
    [set_features] with [IndexError]; the features are stored by then,
    [psi] is not. Whenever [set_features] has not returned, every step
    raises the attribute error. A step of the cell that returns shows
    that [set_features] had returned; it leaves the states of the second
    recurrent network as they were, because [type_two] is [False]: the
    logits are what [char_net] makes of the output of the first
    recurrent network, run on the fed-back label and the context vector
    of the state, and of the new context vector; the new label is the
    greedy decoding of these logits. *)
Theorem constructed_cell_steps (target_label_no : nat)
    (high_lvl_features feature_seq_lengths : Tensor) :
  let set := set_features (init target_label_no)
                          high_lvl_features feature_seq_lengths in
  (length (get_shape high_lvl_features) < 3 →
   set.2 = Raise IndexError ∧ psi set.1 = None ∧
   AttendAndSpellCell.high_lvl_features set.1 = Some high_lvl_features) ∧
  (∀ cell_input state rand_val,
     set.2 ≠ Ok tt →
     call set.1 cell_input state rand_val
     = Raise (AttributeError "Features must be set.")) ∧
  (∀ cell_input state rand_val logits state',
     call set.1 cell_input state rand_val = Ok (logits, state') →
     set.2 = Ok tt ∧
     post_context_states state' = post_context_states state ∧
     ∃ pre_context_out,
       pre_context_rnn
         (tf_concat 1 [fed_back_label cell_input state rand_val;
                       context_vector state])
         (pre_context_states state)
       = (pre_context_out, pre_context_states state') ∧
       attention_context set.1 pre_context_out = Ok (context_vector state') ∧
       logits = char_net (tf_concat 1 [pre_context_out; context_vector state']) ∧
       one_hot_char state' = tf_one_hot (tf_argmax logits 1) target_label_no).
Proof.
  intros set.
  destruct (set_features_outcome target_label_no high_lvl_features
              feature_seq_lengths) as (Htwo & Hno & Hfeat & Hout & Hrank).
  fold set in Htwo, Hno, Hfeat, Hout, Hrank. split_and!.
  - intros Hlt. specialize (Hrank Hlt).
    destruct Hout as [Hok|[_ Hpsi]]; [congruence|done].
  - intros cell_input state rand_val Hnot.
    destruct Hout as [Hok|[_ Hpsi]]; [done|].
    unfold call. by rewrite Hpsi.
  - intros cell_input state rand_val logits state' Hcall.
    unfold call in Hcall. rewrite Htwo in Hcall.
    destruct (psi set.1) as [p|] eqn:Hpsi; [|done].
    split; [by destruct Hout as [Hok|[_ Hnone]]|].
    destruct (pre_context_rnn _ _) as [pre_context_out pre_states] eqn:Hrnn.
    destruct (attention_context set.1 pre_context_out) as [ctx|] eqn:Hctx; [|done].
    cbn [mbind result_bind] in Hcall. unfold greedy_decoding in Hcall.
    rewrite Hno in Hcall. injection Hcall as <- <-.
    cbn [post_context_states pre_context_states context_vector one_hot_char].
    split; [done|]. by exists pre_context_out.
Qed.
End cell_steps.

(** ** The codes of the characters *)


Lemma allowed_chrs_NoDup : NoDup UttTextDispenser.allowed_chrs.
Proof. apply (bool_decide_unpack _). vm_compute. exact I. Qed.

(** A character has a code exactly when it is allowed, and its code is
    its position in the list of allowed characters. *)
Lemma code_dict_lookup (c : ascii) (code : Z) :
  UttTextDispenser.code_dict !! c = Some code
  ↔ ∃ i, UttTextDispenser.allowed_chrs !! i = Some c ∧ code = Z.of_nat i.
Proof. apply enumerate_dict_lookup, allowed_chrs_NoDup. Qed.

(** [reverse_dict] is [code_dict] turned around. *)
Lemma reverse_dict_lookup (code : Z) (c : ascii) :
  UttTextDispenser.reverse_dict !! code = Some c
  ↔ UttTextDispenser.code_dict !! c = Some code.
Proof.
  unfold UttTextDispenser.reverse_dict.
  rewrite reversed_pairs_lookup; [apply elem_of_map_to_list|].
  apply NoDup_fmap_2_strong; [|apply NoDup_map_to_list].
  intros [c1 k1] [c2 k2] H1 H2. simpl. intros <-.
  apply elem_of_map_to_list in H1, H2.
  apply code_dict_lookup in H1 as (i1 & H1 & Hk1), H2 as (i2 & H2 & Hk2).
  assert (i1 = i2) as -> by lia. congruence.
Qed.

(** [encode] returns exactly when every character is one of the allowed
    characters, and raises [KeyError] otherwise (also for a capital or
    for z); every code it returns is the position of the character in
    the list of allowed characters. *)
Theorem utt_encode_spec (char_lst : list ascii) :
  if decide (Forall (λ c, c ∈ UttTextDispenser.allowed_chrs) char_lst)
  then ∃ codes,
         UttTextDispenser.encode char_lst = Ok codes ∧
         Forall2 (λ c code, ∃ i, UttTextDispenser.allowed_chrs !! i = Some c ∧
                                 code = Z.of_nat i) char_lst codes
  else UttTextDispenser.encode char_lst = Raise KeyError.
Proof.
  rewrite encode_eq. case_decide as Hall.
  - induction Hall as [|c l Hc _ IH].
    + exists []. split; [done|constructor].
    + destruct IH as (codes & Hm & Hcodes).
      apply list_elem_of_lookup in Hc as [i Hi].
      assert (UttTextDispenser.code_dict !! c = Some (Z.of_nat i)) as Hcode
        by (apply code_dict_lookup; by exists i).
      destruct (mapM _ l) as [ks|] eqn:Hks; [|discriminate Hm]. injection Hm as <-.
      exists (to_uint8 (Z.of_nat i) :: (to_uint8 <$> ks)).
      cbn. rewrite Hcode. cbn. rewrite Hks. cbn. split; [done|].
      constructor; [|done]. exists i. split; [done|].
      apply lookup_lt_Some in Hi. pose proof target_label_no_eq as Hno.
      unfold UttTextDispenser.target_label_no in Hno.
      unfold to_uint8. rewrite Z.mod_small; lia.
  - destruct (mapM _ char_lst) as [ks|] eqn:Hks; [|done].
    exfalso. apply Hall. apply mapM_Some in Hks.
    apply Forall_forall. intros c Hc.
    apply list_elem_of_lookup in Hc as [j Hj].
    destruct (Forall2_lookup_l _ _ _ _ _ Hks Hj) as (k & _ & Hk).
    apply code_dict_lookup in Hk as (i & Hi & _).
    by apply list_elem_of_lookup_2 in Hi.
Qed.

(** [decode] returns exactly when every code is the position of an
    allowed character, that is a number from 0 to [target_label_no] - 1,
    and raises [KeyError] otherwise; it returns the characters at these
    positions. *)
Theorem utt_decode_spec (codes : list Z) :
  if decide (Forall (λ code, 0 ≤ code
                      < Z.of_nat UttTextDispenser.target_label_no)%Z codes)
  then ∃ char_lst,
         UttTextDispenser.decode codes = Ok char_lst ∧
         Forall2 (λ code c,
                    UttTextDispenser.allowed_chrs !! Z.to_nat code = Some c)
                 codes char_lst
  else UttTextDispenser.decode codes = Raise KeyError.
Proof.
  rewrite decode_eq. case_decide as Hall.
  - induction Hall as [|code l Hc _ IH].
    + exists []. split; [done|constructor].
    + destruct IH as (chars & Hm & Hchars).
      destruct (lookup_lt_is_Some_2 UttTextDispenser.allowed_chrs (Z.to_nat code))
        as [c Hi]; [unfold UttTextDispenser.target_label_no in Hc; lia|].
      assert (UttTextDispenser.reverse_dict !! code = Some c) as Hrev.
      { apply reverse_dict_lookup, code_dict_lookup.
        exists (Z.to_nat code). split; [done|lia]. }
      destruct (mapM _ l) as [cs|] eqn:Hcs; [|discriminate Hm]. injection Hm as <-.
      exists (c :: cs). cbn. rewrite Hrev. cbn. rewrite Hcs. cbn.
      split; [done|]. by constructor.
  - destruct (mapM _ codes) as [cs|] eqn:Hcs; [|done].
    exfalso. apply Hall. apply mapM_Some in Hcs.
    apply Forall_forall. intros code Hc.
    apply list_elem_of_lookup in Hc as [j Hj].
    destruct (Forall2_lookup_l _ _ _ _ _ Hcs Hj) as (c & _ & Hk).
    apply reverse_dict_lookup, code_dict_lookup in Hk as (i & Hi & ->).
    apply lookup_lt_Some in Hi. unfold UttTextDispenser.target_label_no. lia.
Qed.

(** ** The properties at concrete inputs *)

(** The matrix with rows 0 3 0 and 5 0 7: its sparse form lists 3, 5
    and 7 with their positions. *)
Lemma dense_to_sparse_lists_nonzero_witness :
  let a := Array2 (2, 3) [[0; 3; 0]; [5; 0; 7]]%Z in
  wf2 a ∧
  ∃ entries,
    dense_to_sparse 0%Z a
    = Ok (entry_index <$> entries, entry_value <$> entries, shape2 a) ∧
    (∀ p, p ∈ entries ↔ get2 a p.1.1 p.1.2 = Some p.2 ∧ p.2 ≠ 0%Z) ∧
    StronglySorted row_major_lt entries.
Proof.
  intros a.
  assert (wf2 a) as Hwf by (unfold wf2; repeat (constructor || split)).
  split; [exact Hwf|]. exact (dense_to_sparse_lists_nonzero 0%Z a Hwf).
Defined.

(** The same matrix goes to its sparse form and back. *)
Lemma sparse_to_dense_of_dense_to_sparse_witness :
  let a := Array2 (2, 3) [[0; 3; 0]; [5; 0; 7]]%Z in
  wf2 a ∧
  ∃ indices values,
    dense_to_sparse 0%Z a = Ok (indices, values, shape2 a) ∧
    sparse_to_dense 0%Z indices values (shape2 a) = Ok a.
Proof.
  intros a.
  assert (wf2 a) as Hwf by (unfold wf2; repeat (constructor || split)).
  split; [exact Hwf|]. exact (sparse_to_dense_of_dense_to_sparse 0%Z a Hwf).
Defined.

(** Two arrays of lengths 2 and 1 in a matrix of 3 rows and 4 columns. *)
Lemma array_list_to_dense_rows_witness :
  let array_list := [[1; 2]; [3]]%Z in
  let shape := (3, 4) in
  length array_list ≤ shape.1 ∧
  Forall (λ array, length array ≤ shape.2) array_list ∧
  ∃ dense, array_list_to_dense 0%Z array_list shape = Ok dense ∧
           shape2 dense = shape ∧ wf2 dense ∧
           ∀ r, r < shape.1 →
                data2 dense !! r = Some (padded_row 0%Z array_list shape.2 r).
Proof.
  intros array_list shape.
  assert (length array_list ≤ shape.1) as Hrows by (simpl; lia).
  assert (Forall (λ array, length array ≤ shape.2) array_list) as Hfit
    by (repeat constructor; simpl; lia).
  split; [exact Hrows|]. split; [exact Hfit|].
  exact (array_list_to_dense_rows 0%Z array_list shape Hrows Hfit).
Defined.

(** Three arrays do not go into two rows, and an array of length 3
    does not go into a row of length 2. *)
Lemma array_list_to_dense_raises_witness :
  array_list_to_dense 0%Z [[1]; [2]; [3]]%Z (2, 2) = Raise IndexError ∧
  array_list_to_dense 0%Z [[1]; [2; 3; 4]]%Z (2, 2)
  = Raise (ValueError "could not broadcast").
Proof.
  split.
  - apply (array_list_to_dense_raises 0%Z [[1]; [2]; [3]]%Z (2, 2) 2 [3]%Z);
      [reflexivity|simpl; lia|repeat constructor; simpl; lia|reflexivity].
  - apply (array_list_to_dense_raises 0%Z [[1]; [2; 3; 4]]%Z (2, 2) 1 [2; 3; 4]%Z);
      [reflexivity|simpl; lia|repeat constructor; simpl; lia
      |simpl; lia|simpl; lia|simpl; lia].
Defined.

(** The targets 0 3 0 5 and 2 as a sparse tensor and as a matrix. *)
Lemma sparse_tensor_to_dense_witness :
  let target_list := [[0; 3; 0; 5]; [2]]%Z in
  BatchDispenser.target_list_to_sparse_tensor target_list
  = Ok ([[0; 1]; [0; 3]; [1; 0]], [3; 5; 2]%Z, [2; 4]) ∧
  ∃ dense,
    sparse_to_dense 0%Z [[0; 1]; [0; 3]; [1; 0]] [3; 5; 2]%Z (2, 4) = Ok dense ∧
    array_list_to_dense 0%Z target_list (2, 4) = Ok dense ∧
    ∀ r, r < 2 → data2 dense !! r = Some (padded_row 0%Z target_list 4 r).
Proof.
  intros target_list.
  assert (BatchDispenser.target_list_to_sparse_tensor target_list
          = Ok ([[0; 1]; [0; 3]; [1; 0]], [3; 5; 2]%Z, [2; 4])) as Htensor
    by reflexivity.
  split; [exact Htensor|].
  exact (sparse_tensor_to_dense target_list _ _ 2 4 Htensor).
Defined.

(** The matrix of the same targets has the tensor as its sparse form. *)
Lemma dense_targets_to_sparse_witness :
  let target_list := [[0; 3; 0; 5]; [2]]%Z in
  BatchDispenser.target_list_to_sparse_tensor target_list
  = Ok ([[0; 1]; [0; 3]; [1; 0]], [3; 5; 2]%Z, [2; 4]) ∧
  ∃ dense,
    array_list_to_dense 0%Z target_list (2, 4) = Ok dense ∧
    dense_to_sparse 0%Z dense
    = Ok ([[0; 1]; [0; 3]; [1; 0]], [3; 5; 2]%Z, (2, 4)).
Proof.
  intros target_list.
  assert (BatchDispenser.target_list_to_sparse_tensor target_list
          = Ok ([[0; 1]; [0; 3]; [1; 0]], [3; 5; 2]%Z, [2; 4])) as Htensor
    by reflexivity.
  split; [exact Htensor|].
  exact (dense_targets_to_sparse target_list _ _ 2 4 Htensor).
Defined.

(** A file of two utterances over the phonemes a, b and c: the
    transcription b a of the first is encoded. *)
Lemma phoneme_dispenser_encodes_stored_witness :
  let lines := ["u1 b a"; "u2 a c"] in
  3 = length (remove_dups (corpus_words lines)) ∧
  utt_words lines "u1" = Some ["b"; "a"] ∧
  ∃ self codes,
    PhonemeTextDispenser.init 2 lines 3 None false = Ok self ∧
    PhonemeTextDispenser.encode self ["b"; "a"] = Ok codes ∧
    length codes = 2.
Proof.
  intros lines.
  assert (3 = length (remove_dups (corpus_words lines))) as Hlabels
    by (vm_compute; reflexivity).
  assert (utt_words lines "u1" = Some ["b"; "a"]) as Hwords
    by (vm_compute; reflexivity).
  split; [exact Hlabels|]. split; [exact Hwords|].
  destruct (phoneme_dispenser_encodes_stored 2 lines 3 None false "u1" ["b"; "a"]
              Hlabels Hwords) as (self & codes & Hinit & _ & Hencode & Hlen & _).
  exists self, codes. split; [exact Hinit|]. split; [exact Hencode|exact Hlen].
Defined.

(** A cap of 4 time steps and a first input of 5. *)
Lemma data_lists_to_batch_over_cap_witness :
  let self := BatchDispenser.Build (Tok:=ascii) 3 [] ∅ 2 (Some 4%Z) false in
  let inp := Array2 (2, 5) [[1; 2; 3; 4; 5]; [6; 7; 8; 9; 10]]%Z in
  let input_list := [inp; Array2 (2, 3) [[11; 12; 13]; [14; 15; 16]]%Z] in
  let target_list := [[1; 0]%Z; [2]%Z] in
  Forall (λ inp, wf2 inp ∧ (shape2 inp).1 = 2) input_list ∧
  BatchDispenser.data_lists_to_batch 0%Z 1%Z self input_list target_list
  = Raise (ValueError "index can't contain negative values").
Proof.
  intros self inp input_list target_list.
  assert (Forall (λ inp, wf2 inp ∧ (shape2 inp).1 = 2) input_list) as Hwf.
  { unfold wf2. repeat (constructor || split). }
  split; [exact Hwf|].
  apply (data_lists_to_batch_over_cap 0%Z 1%Z self input_list target_list 2 4%Z
           0 inp);
    [reflexivity|exact Hwf|reflexivity|lia|reflexivity|simpl; lia|simpl; lia].
Defined.

(** A dispenser without transcriptions meets the utterance u1. *)
Lemma get_batch_missing_transcription_witness :
  let self := BatchDispenser.Build (Tok:=ascii) 32 [] ∅ 1 None true in
  let utt := ("u1", Array2 (1, 1) [[0%Z]]) in
  delivers list_get_utt [utt] ([] ++ [utt]) [] ∧
  get_batch 0%Z 1%Z list_get_utt UttTextDispenser.encode self [utt]
  = Raise KeyError.
Proof.
  intros self utt.
  assert (delivers list_get_utt [utt] ([] ++ [utt]) []) as Hd.
  { simpl. exists []. split; reflexivity. }
  split; [exact Hd|].
  apply (get_batch_missing_transcription 0%Z 1%Z list_get_utt
           UttTextDispenser.encode self [] utt [] [utt] []);
    [simpl; lia|exact Hd|constructor|reflexivity].
Defined.

(** A reader that counts the utterances it has passed. *)
Lemma return_batch_after_skip_batch_witness :
  let nextId := λ r : nat, Ok (EmptyString, S r) in
  let prevId := λ r : nat, Ok (EmptyString, Nat.pred r) in
  let self := BatchDispenser.Build (Tok:=ascii) 32 [] ∅ 2 None true in
  skip_batch nextId self 0 = Ok 2 ∧ return_batch prevId self 2 = Ok 0.
Proof.
  intros nextId prevId self.
  assert (skip_batch nextId self 0 = Ok 2) as Hskip by reflexivity.
  split; [exact Hskip|].
  apply (return_batch_after_skip_batch nextId prevId self 0 2); [|exact Hskip].
  intros r r' utt_id [= _ <-]. exists EmptyString. reflexivity.
Defined.

(** A file with two transcriptions and a reader with the two
    utterances, of 3 and 1 time steps and 2 features: the batch has 3
    time steps. *)
Lemma utt_dispenser_get_batch_witness :
  let lines := ["u1 HI"; "u2 A B"] in
  let utts := [("u2", Array2 (3, 2) [[1; 2]; [3; 4]; [5; 6]]%Z);
               ("u1", Array2 (1, 2) [[7; 8]]%Z)] in
  delivers list_get_utt utts utts [] ∧
  Forall (λ utt, is_Some (utt_words lines utt.1) ∧
                 wf2 utt.2 ∧ (shape2 utt.2).2 = 2) utts ∧
  ∃ self inputs target_mat,
    UttTextDispenser_init 2 lines 32 None true = Ok self ∧
    get_batch 0%Z 1%Z list_get_utt UttTextDispenser.encode self utts
    = Ok (inputs, BatchDispenser.OneHot target_mat, [3; 1], []) ∧
    shape3 inputs = (3, 2, 2).
Proof.
  intros lines utts.
  assert (delivers list_get_utt utts utts []) as Hd.
  { simpl. eexists. split; [reflexivity|]. eexists. split; reflexivity. }
  assert (Forall (λ utt, is_Some (utt_words lines utt.1) ∧
                         wf2 utt.2 ∧ (shape2 utt.2).2 = 2) utts) as Hutts.
  { repeat constructor.
    - eexists. vm_compute. reflexivity.
    - eexists. vm_compute. reflexivity. }
  split; [exact Hd|]. split; [exact Hutts|].
  destruct (utt_dispenser_get_batch 0%Z 1%Z list_get_utt 2 lines 32 None 2 utts
              utts [] ltac:(lia) eq_refl
              ltac:(rewrite target_label_no_eq; lia) Hd Hutts
              ltac:(intros m Hm; discriminate Hm))
    as (self & inputs & target_mat & codes & Hinit & Hbatch & Hshape & _).
  exists self, inputs, target_mat.
  split; [exact Hinit|]. split; [exact Hbatch|exact Hshape].
Defined.

(** In the file over a, b and c the phoneme a comes first: the second
    token of the transcription b a has code 0. *)
Lemma sparse_targets_lose_first_phoneme_witness :
  let lines := ["u1 b a"; "u2 a c"] in
  3 = length (remove_dups (corpus_words lines)) ∧
  utt_words lines "u1" = Some ["b"; "a"] ∧
  (∀ q, q ∈ corpus_words lines → string_le "a" q) ∧
  ∃ self codes,
    PhonemeTextDispenser.init 2 lines 3 None false = Ok self ∧
    PhonemeTextDispenser.encode self ["b"; "a"] = Ok codes ∧
    codes !! 1 = Some 0%Z.
Proof.
  intros lines.
  assert (3 = length (remove_dups (corpus_words lines))) as Hlabels
    by (vm_compute; reflexivity).
  assert (utt_words lines "u1" = Some ["b"; "a"]) as Hwords
    by (vm_compute; reflexivity).
  assert (∀ q, q ∈ corpus_words lines → string_le "a" q) as Hleast.
  { assert (Forall (string_le "a") (corpus_words lines)) as Hall
      by (vm_compute; repeat constructor).
    intros q Hq. by apply (proj1 (Forall_forall _ _) Hall). }
  split; [exact Hlabels|]. split; [exact Hwords|]. split; [exact Hleast|].
  destruct (sparse_targets_lose_first_phoneme 2 lines 3 None "u1" ["b"; "a"] 1 "a"
              Hlabels Hwords eq_refl Hleast)
    as (self & codes & Hinit & Hencode & Hzero & _).
  exists self, codes. split; [exact Hinit|]. split; [exact Hencode|exact Hzero].
Defined.

(** A cell over traced tensors after [set_features]: a step in decoding
    mode returns, the states of the second recurrent network are those
    of the state, and the logits do not mention that network. *)
Lemma constructed_cell_steps_witness :
  let set :=
    AttendAndSpellCell.set_features
      (AttendAndSpellCell.init (Tensor:=Traced.Tensor) 32) "features" "lengths" in
  let state := AttendAndSpellCell.State (Tensor:=Traced.Tensor) "s0" "p0" "prev" "ctx" in
  ∃ logits state',
    AttendAndSpellCell.call set.1 None state (1 # 2) = Ok (logits, state') ∧
    set.2 = Ok tt ∧
    AttendAndSpellCell.post_context_states state' = "p0" ∧
    AttendAndSpellCell.one_hot_char state'
    = Traced.node "one_hot" [Traced.node "argmax" [logits]].
Proof.
  intros set state.
  destruct (AttendAndSpellCell.call set.1 None state (1 # 2))
    as [[logits state']|e] eqn:Hcall; [|discriminate Hcall].
  exists logits, state'. split; [reflexivity|].
  destruct (constructed_cell_steps 32 "features" "lengths")
    as (_ & _ & Hstep).
  destruct (Hstep None state (1 # 2)%Q logits state' Hcall)
    as (Hset & Hpost & pre_context_out & _ & _ & _ & Hlabel).
  split; [exact Hset|]. split; [exact Hpost|exact Hlabel].
Defined.
